(** * FACTORS: scoring-and-selection core, embedded and verified

    A shallow embedding of the numeric core of the FACTORS package
    ([factors/score.py], [factors/optimizer.py], [factors/bootstrap.py],
    [factors/effects.py], [factors/pci.py]) together with the properties
    its specification states about it.

    Numbers.  A Python/numpy float is modelled by [float]: an explicit NaN,
    the two infinities, and finite values carried as canonical rationals
    ([Qc]).  Finite arithmetic is exact: rounding, overflow and signed zeros
    are idealised away, everything else (NaN propagation, NaN-false
    comparisons, inf - inf, 0 * inf) follows IEEE 754.

    Tables.  A pandas DataFrame is a record of row labels, column labels and
    a dense row-major block of floats; label lookups go through the position
    of the label, as pandas does. *)

From Stdlib Require Import String Ascii.
From Stdlib Require Import List Bool Arith ZArith QArith Qcanon Qround.
From Stdlib Require Import Lia Lqa Permutation Sorted OrdersEx.
Import ListNotations.

Set Implicit Arguments.

(* ================================================================== *)
(** * Part I: the embedding *)
(* ================================================================== *)

(** ** Floats *)

Inductive float : Type :=
| NaN
| NInf
| Fin (q : Qc)
| PInf.

Definition Qc_eqb (x y : Qc) : bool := Qeq_bool x y.
Definition Qc_leb (x y : Qc) : bool := Qle_bool x y.
Definition Qc_ltb (x y : Qc) : bool := negb (Qle_bool y x).

Definition qz (z : Z) : Qc := Q2Qc (inject_Z z).
Definition qfrac (n : Z) (d : positive) : Qc := Q2Qc (n # d).

Definition fz (z : Z) : float := Fin (qz z).
Definition ffrac (n : Z) (d : positive) : float := Fin (qfrac n d).

Definition isnan (x : float) : bool :=
  match x with NaN => true | _ => false end.

Definition isfinite (x : float) : bool :=
  match x with Fin _ => true | _ => false end.

(** NaN or a finite number: the values a cell table of the data model holds. *)
Definition isreal (x : float) : bool :=
  match x with NaN | Fin _ => true | _ => false end.

Definition fopp (x : float) : float :=
  match x with
  | NaN => NaN
  | NInf => PInf
  | PInf => NInf
  | Fin q => Fin (- q)%Qc
  end.

Definition fadd (x y : float) : float :=
  match x, y with
  | NaN, _ | _, NaN => NaN
  | PInf, NInf | NInf, PInf => NaN
  | PInf, _ | _, PInf => PInf
  | NInf, _ | _, NInf => NInf
  | Fin a, Fin b => Fin (a + b)%Qc
  end.

Definition fsub (x y : float) : float := fadd x (fopp y).

(** The infinity carrying the sign of [a] times the sign of [s]; NaN when
    [a] is zero. *)
Definition inf_signed (positive_inf : bool) (a : Qc) : float :=
  if Qc_eqb a 0%Qc then NaN
  else if xorb positive_inf (Qc_ltb a 0%Qc) then PInf else NInf.

Definition fmul (x y : float) : float :=
  match x, y with
  | NaN, _ | _, NaN => NaN
  | Fin a, Fin b => Fin (a * b)%Qc
  | Fin a, PInf | PInf, Fin a => inf_signed true a
  | Fin a, NInf | NInf, Fin a => inf_signed false a
  | PInf, PInf | NInf, NInf => PInf
  | PInf, NInf | NInf, PInf => NInf
  end.

(** numpy division: x/0 is an infinity (or NaN for 0/0), never an exception. *)
Definition fdiv (x y : float) : float :=
  match x, y with
  | NaN, _ | _, NaN => NaN
  | Fin a, Fin b =>
      if Qc_eqb b 0%Qc then inf_signed true a else Fin (a / b)%Qc
  | Fin _, PInf | Fin _, NInf => Fin 0%Qc
  | PInf, Fin b =>
      if Qc_ltb b 0%Qc then NInf else PInf
  | NInf, Fin b =>
      if Qc_ltb b 0%Qc then PInf else NInf
  | _, _ => NaN
  end.

Definition fabs (x : float) : float :=
  match x with
  | NaN => NaN
  | NInf | PInf => PInf
  | Fin q => Fin (if Qc_ltb q 0%Qc then (- q)%Qc else q)
  end.

(** Comparisons: every comparison with NaN is false. *)
Definition fle (x y : float) : bool :=
  match x, y with
  | NaN, _ | _, NaN => false
  | NInf, _ => true
  | _, PInf => true
  | Fin a, Fin b => Qc_leb a b
  | _, _ => false
  end.

Definition flt (x y : float) : bool :=
  match x, y with
  | NaN, _ | _, NaN => false
  | NInf, NInf | PInf, PInf => false
  | NInf, _ => true
  | _, PInf => true
  | Fin a, Fin b => Qc_ltb a b
  | _, _ => false
  end.

Definition fgt (x y : float) : bool := flt y x.

(** Python [==] on floats. *)
Definition feq (x y : float) : bool :=
  match x, y with
  | NInf, NInf | PInf, PInf => true
  | Fin a, Fin b => Qc_eqb a b
  | _, _ => false
  end.

(** Structural equality test (NaN equals NaN); used to compare results. *)
Definition float_eqb (x y : float) : bool :=
  match x, y with
  | NaN, NaN => true
  | _, _ => feq x y
  end.

(** The largest finite binary64 value, to which [np.nan_to_num] maps +inf. *)
Definition DBL_MAX : Qc := qz (2 ^ 1024 - 2 ^ 971).

(** [np.nan_to_num(x, copy, nan=0.0)] on a scalar. *)
Definition nan_to_num (x : float) : float :=
  match x with
  | NaN => Fin 0%Qc
  | PInf => Fin DBL_MAX
  | NInf => Fin (- DBL_MAX)%Qc
  | Fin q => Fin q
  end.

(** [np.nanmax] over a flat array: NaN entries are ignored; an all-NaN (or
    empty) array gives NaN. *)
Definition fmax_nan (acc x : float) : float :=
  match acc, x with
  | NaN, _ => x
  | _, NaN => acc
  | _, _ => if fle acc x then x else acc
  end.

Definition nanmax (xs : list float) : float := fold_left fmax_nan xs NaN.

(** [np.nansum]: NaN entries count as zero. *)
Definition nansum (xs : list float) : float :=
  fold_left (fun acc x => if isnan x then acc else fadd acc x) xs (Fin 0%Qc).

(** ** Labelled tables (pandas DataFrame) *)

Definition label := string.

Record DataFrame : Type := mkDF {
  index : list label;
  columns : list label;
  values : list (list float)
}.

(** [Index.get_loc]: position of the first occurrence. *)
Fixpoint get_loc (ls : list label) (a : label) : option nat :=
  match ls with
  | [] => None
  | x :: r => if String.eqb x a then Some O
              else option_map S (get_loc r a)
  end.

Definition has_label (ls : list label) (a : label) : bool :=
  match get_loc ls a with Some _ => true | None => false end.

Definition iat (df : DataFrame) (i j : nat) : float :=
  nth j (nth i (values df) []) NaN.

(** [df.loc[a, b]]; [None] stands for the KeyError of an unknown label. *)
Definition loc (df : DataFrame) (a b : label) : option float :=
  match get_loc (index df) a, get_loc (columns df) b with
  | Some i, Some j => Some (iat df i j)
  | _, _ => None
  end.

Fixpoint unique_labels (ls : list label) : bool :=
  match ls with
  | [] => true
  | x :: r => negb (has_label r x) && unique_labels r
  end.

(** Shape and label discipline of a DataFrame addressed by scalar [.loc]. *)
Definition df_shape (df : DataFrame) : bool :=
  Nat.eqb (length (values df)) (length (index df)) &&
  forallb (fun r => Nat.eqb (length r) (length (columns df))) (values df).

Definition df_wf (df : DataFrame) : bool :=
  df_shape df && unique_labels (index df) && unique_labels (columns df).

Definition df_all (p : float -> bool) (df : DataFrame) : bool :=
  forallb (forallb p) (values df).

(** [df.size] *)
Definition df_size (df : DataFrame) : nat :=
  (length (index df) * length (columns df))%nat.

(** [df.values] flattened in row-major order. *)
Definition flat_values (df : DataFrame) : list float := concat (values df).

(** [pd.DataFrame(v, index=idx, columns=cols)] *)
Definition df_const (v : float) (idx cols : list label) : DataFrame :=
  mkDF idx cols (map (fun _ => map (fun _ => v) cols) idx).

Definition df_map (f : float -> float) (df : DataFrame) : DataFrame :=
  mkDF (index df) (columns df) (map (map f) (values df)).

Definition fillna (v : float) (df : DataFrame) : DataFrame :=
  df_map (fun x => if isnan x then v else x) df.

(** [df.reindex(index=idx, columns=cols)]: values are carried over by
    label; a label unknown to [df] gives NaN. *)
Definition reindex (df : DataFrame) (idx cols : list label) : DataFrame :=
  mkDF idx cols
    (map (fun a => map (fun b =>
            match loc df a b with Some v => v | None => NaN end) cols) idx).

Fixpoint zip_with (A B C : Type) (f : A -> B -> C)
  (xs : list A) (ys : list B) : list C :=
  match xs, ys with
  | x :: xs', y :: ys' => f x y :: zip_with f xs' ys'
  | _, _ => []
  end.

(** Element-wise binary operation of two frames that carry identical
    labels (the only case [score.py] produces: both operands were built on
    [means.index] and [means.columns]), where pandas works by position. *)
Definition df_map2 (f : float -> float -> float) (x y : DataFrame)
  : DataFrame :=
  mkDF (index x) (columns x) (zip_with (zip_with f) (values x) (values y)).

Definition df_sub : DataFrame -> DataFrame -> DataFrame := df_map2 fsub.

(** scalar * frame *)
Definition df_scale (k : float) (df : DataFrame) : DataFrame :=
  df_map (fmul k) df.

(** frame / scalar *)
Definition df_div_scalar (df : DataFrame) (d : float) : DataFrame :=
  df_map (fun x => fdiv x d) df.

(** ** factors/score.py *)

Definition default_eps : float := ffrac 1 1000000000.

(** [normalize_costs(costs, eps)] *)
Definition normalize_costs (costs : DataFrame) (eps : float) : DataFrame :=
  let cm := costs in
  let maxc := if Nat.ltb 0 (df_size cm) then nanmax (flat_values cm)
              else Fin 0%Qc in
  if fle maxc eps then fillna (Fin 0%Qc) cm
  else df_div_scalar cm maxc.

(** The local [uncertainty] after alignment: zeros when omitted, else
    [uncertainty.reindex(index=means.index, columns=means.columns)
    .fillna(0.0)]. *)
Definition aligned_uncertainty (means : DataFrame)
  (uncertainty : option DataFrame) : DataFrame :=
  match uncertainty with
  | None => df_const (Fin 0%Qc) (index means) (columns means)
  | Some u => fillna (Fin 0%Qc) (reindex u (index means) (columns means))
  end.

(** The local [cost_norm]: zeros when the cost is omitted, else the
    reindexed cost, normalized when the flag is set. *)
Definition cost_term (means : DataFrame) (cost : option DataFrame)
  (normalize_costs_flag : bool) : DataFrame :=
  match cost with
  | None => df_const (Fin 0%Qc) (index means) (columns means)
  | Some c =>
      let c' := reindex c (index means) (columns means) in
      if normalize_costs_flag then normalize_costs c' default_eps else c'
  end.

(** [compute_risk_adjusted_score(cell_means, uncertainty, cost, kappa, rho,
    normalize_costs_flag)]; an omitted table is [None]. *)
Definition compute_risk_adjusted_score
  (cell_means : DataFrame) (uncertainty cost : option DataFrame)
  (kappa rho : float) (normalize_costs_flag : bool) : DataFrame :=
  let means := cell_means in
  let uncertainty' := aligned_uncertainty means uncertainty in
  let cost_norm := cost_term means cost normalize_costs_flag in
  df_sub (df_sub means (df_scale kappa uncertainty'))
         (df_scale rho cost_norm).

(** Result comparison on finite tables. *)
Definition row_eqb (r s : list float) : bool :=
  Nat.eqb (length r) (length s) &&
  forallb (fun p => float_eqb (fst p) (snd p)) (combine r s).

Definition values_eqb (v w : list (list float)) : bool :=
  Nat.eqb (length v) (length w) &&
  forallb (fun p => row_eqb (fst p) (snd p)) (combine v w).

(** ** factors/optimizer.py *)

Definition cell := (label * label)%type.

Definition cell_eqb (x y : cell) : bool :=
  String.eqb (fst x) (fst y) && String.eqb (snd x) (snd y).

(** Python [cand in sel] on a list of label pairs. *)
Definition cell_in (c : cell) (sel : list cell) : bool :=
  existsb (cell_eqb c) sel.

(** One flattened table entry: the cell, its score and its cost (the
    tuples [(a, b, val, c)] and [((a, b), val, c)] of the source). *)
Record cand : Type := mkCand {
  cand_cell : cell;
  cand_val : float;
  cand_cost : float
}.

(** [df.loc[a, b]] for labels taken from [df] itself, and the guarded
    lookup [float(df.loc[a, b]) if (a in df.index and b in df.columns)
    else d]. *)
Definition loc_or (d : float) (df : DataFrame) (a b : label) : float :=
  match loc df a b with Some v => v | None => d end.

(** [sorted(xs, key=...)]: Python's sort is stable and only asks [<] of the
    keys; [lt x y] is that test on the keys of [x] and [y].  Insertion from
    the right keeps equal keys in their original order; on keys that form a
    strict weak order (no NaN among them) every stable sort returns this
    list. *)
Section PySorted.
Variable A : Type.
Variable lt : A -> A -> bool.

Fixpoint insert_sorted (x : A) (l : list A) : list A :=
  match l with
  | [] => [x]
  | y :: r => if lt y x then y :: insert_sorted x r else x :: y :: r
  end.

Fixpoint py_sorted (l : list A) : list A :=
  match l with
  | [] => []
  | x :: r => insert_sorted x (py_sorted r)
  end.

(** [x] may stand before [y] in sorted order: [y] is not strictly
    smaller. *)
Definition not_after (x y : A) : Prop := lt y x = false.
End PySorted.

(** Python [sum(xs)]: left to right from 0. *)
Definition py_sum (xs : list float) : float :=
  fold_left fadd xs (Fin 0%Qc).

(** The two nested loops [for a in score.index: for b in score.columns]. *)
Definition cells_of (df : DataFrame) : list cell :=
  flat_map (fun a => map (fun b => (a, b)) (columns df)) (index df).

(** The flattened list of [greedy_select_under_budget]: every cell, NaN
    scores included; an absent cost table is uniform cost 1, and so is a
    cell the cost table does not know. *)
Definition greedy_flat (score : DataFrame) (cost : option DataFrame)
  : list cand :=
  let cost' := match cost with
               | None => df_const (Fin 1%Qc) (index score) (columns score)
               | Some c => c
               end in
  map (fun ab => mkCand ab (loc_or NaN score (fst ab) (snd ab))
                        (loc_or (Fin 1%Qc) cost' (fst ab) (snd ab)))
      (cells_of score).

(** Python [<] on the key tuples [(-np.nan_to_num(val, -np.inf), c)].  The
    second positional argument of [nan_to_num] is [copy], so a NaN score is
    keyed as 0.  Tuples compare by the first position where they differ
    under [==]. *)
Definition greedy_key_lt (x y : cand) : bool :=
  let kx := fopp (nan_to_num (cand_val x)) in
  let ky := fopp (nan_to_num (cand_val y)) in
  if feq kx ky then flt (cand_cost x) (cand_cost y) else flt kx ky.

(** The acceptance loop of the greedy selector. *)
Definition greedy_step (budget : float) (st : list cell * float) (e : cand)
  : list cell * float :=
  let '(selected, total_cost) := st in
  if isnan (cand_val e) then st
  else if fle (fadd total_cost (cand_cost e)) budget
       then (selected ++ [cand_cell e], fadd total_cost (cand_cost e))
       else st.

(** [greedy_select_under_budget(score, cost, budget)] (the optional mask
    output is not modelled). *)
Definition greedy_select_under_budget
  (score : DataFrame) (cost : option DataFrame) (budget : float)
  : list cell * float :=
  let flat := greedy_flat score cost in
  let flat_sorted := py_sorted greedy_key_lt flat in
  fold_left (greedy_step budget) flat_sorted ([], Fin 0%Qc).

(** The candidate list of [exhaustive_best_k] and
    [beam_search_pair_selection]: NaN scores are dropped; [cost.loc[a, b]]
    is unguarded, an unknown label is a KeyError ([None]). *)
Fixpoint candidates_from (score : DataFrame) (cost : option DataFrame)
  (cs : list cell) : option (list cand) :=
  match cs with
  | [] => Some []
  | (a, b) :: r =>
      let val := loc_or NaN score a b in
      if isnan val then candidates_from score cost r
      else
        match (match cost with
               | None => Some (Fin 1%Qc)
               | Some c => loc c a b
               end) with
        | None => None
        | Some c =>
            match candidates_from score cost r with
            | None => None
            | Some rest => Some (mkCand (a, b) val c :: rest)
            end
        end
  end.

Definition candidates (score : DataFrame) (cost : option DataFrame)
  : option (list cand) :=
  candidates_from score cost (cells_of score).

(** [itertools.combinations(xs, r=k)], in its lexicographic emission
    order. *)
Fixpoint combinations (A : Type) (xs : list A) (k : nat) : list (list A) :=
  match k with
  | O => [[]]
  | S k' =>
      match xs with
      | [] => []
      | x :: r => map (cons x) (combinations r k') ++ combinations r k
      end
  end.

Definition comb_score (comb : list cand) : float :=
  py_sum (map cand_val comb).

Definition comb_cost (comb : list cand) : float :=
  py_sum (map cand_cost comb).

(** One turn of the enumeration loop; the state is
    [(best_score, best_sel)]. *)
Definition exhaustive_step (budget : float) (st : float * list cell)
  (comb : list cand) : float * list cell :=
  let sel := map cand_cell comb in
  let ssum := comb_score comb in
  let csum := comb_cost comb in
  if fle csum budget && fgt ssum (fst st) then (ssum, sel) else st.

(** [exhaustive_best_k(score, cost, k, budget)] *)
Definition exhaustive_best_k
  (score : DataFrame) (cost : option DataFrame) (k : nat) (budget : float)
  : option (list cell * float) :=
  match candidates score cost with
  | None => None
  | Some flat =>
      let '(best_score, best_sel) :=
        fold_left (exhaustive_step budget) (combinations flat k)
                  (NInf, []) in
      if feq best_score NInf then Some ([], Fin 0%Qc)
      else Some (best_sel, best_score)
  end.

(** A beam entry [(selected_list, total_score, total_cost)]. *)
Record bentry : Type := mkB {
  b_sel : list cell;
  b_score : float;
  b_cost : float
}.

Definition beam_key_lt (x y : cand) : bool :=
  flt (fopp (cand_val x)) (fopp (cand_val y)).

Definition bentry_key_lt (x y : bentry) : bool :=
  flt (fopp (b_score x)) (fopp (b_score y)).

(** Innermost loop body: try to append candidate [cd] to the partial
    selection [be]; the state is [(new_beam, best)]. *)
Definition beam_try (budget : float) (be : bentry)
  (st : list bentry * bentry) (cd : cand) : list bentry * bentry :=
  let '(new_beam, best) := st in
  if cell_in (cand_cell cd) (b_sel be) then st
  else
    let new_cost := fadd (b_cost be) (cand_cost cd) in
    if fgt new_cost budget then st
    else
      let new_sel := b_sel be ++ [cand_cell cd] in
      let new_sum := fadd (b_score be) (cand_val cd) in
      let e := mkB new_sel new_sum new_cost in
      (new_beam ++ [e], if fgt new_sum (b_score best) then e else best).

(** Middle loop: every retained partial selection against every
    candidate. *)
Definition beam_expand (budget : float) (cands : list cand)
  (st : list bentry * bentry) (be : bentry) : list bentry * bentry :=
  fold_left (beam_try budget be) cands st.

(** Outer loop [for _iter in range(max_iters)], with its [break]. *)
Fixpoint beam_loop (budget : float) (beam_width : nat) (cands : list cand)
  (iters : nat) (beam : list bentry) (best : bentry) : bentry :=
  match iters with
  | O => best
  | S n =>
      let '(new_beam, best') :=
        fold_left (beam_expand budget cands) beam ([], best) in
      match new_beam with
      | [] => best'
      | _ :: _ =>
          let new_beam_sorted := py_sorted bentry_key_lt new_beam in
          beam_loop budget beam_width cands n
                    (firstn beam_width new_beam_sorted) best'
      end
  end.

(** [beam_search_pair_selection(score, cost, budget, beam_width,
    max_iters)]; [beam_width] and [max_iters] are natural numbers. *)
Definition beam_search_pair_selection
  (score : DataFrame) (cost : option DataFrame) (budget : float)
  (beam_width : nat) (max_iters : option nat)
  : option (list cell * float) :=
  let cost' := match cost with
               | None => df_const (Fin 1%Qc) (index score) (columns score)
               | Some c => c
               end in
  match candidates score (Some cost') with
  | None => None
  | Some cands0 =>
      let cands := py_sorted beam_key_lt cands0 in
      let total_cells := length cands in
      let iters := match max_iters with
                   | None => total_cells
                   | Some n => n
                   end in
      let start := mkB [] (Fin 0%Qc) (Fin 0%Qc) in
      let best := beam_loop budget beam_width cands iters [start] start in
      if fle (b_score best) (Fin 0%Qc)
      then Some (greedy_select_under_budget score (Some cost') budget)
      else Some (b_sel best, b_score best)
  end.

(** ** pandas/numpy reductions *)

Definition notnan (x : float) : bool := negb (isnan x).

Definition fnat (n : nat) : float := fz (Z.of_nat n).

(** [np.mean] of a flat array: sum over length; the empty array gives NaN
    (0/0). *)
Definition np_mean (xs : list float) : float :=
  fdiv (py_sum xs) (fnat (length xs)).

(** [np.nanmean], and pandas' [mean] with its default [skipna=True]: the
    mean of the non-NaN entries, NaN when there is none. *)
Definition nanmean (xs : list float) : float :=
  np_mean (filter notnan xs).

(** Column [j] of a row-major block. *)
Definition column_at (rows : list (list float)) (j : nat) : list float :=
  map (fun r => nth j r NaN) rows.

(** A pandas Series: labels and values. *)
Record Series : Type := mkSeries {
  s_index : list label;
  s_values : list float
}.

Definition series_loc (s : Series) (a : label) : option float :=
  match get_loc (s_index s) a with
  | Some i => Some (nth i (s_values s) NaN)
  | None => None
  end.

Definition series_loc_or (d : float) (s : Series) (a : label) : float :=
  match series_loc s a with Some v => v | None => d end.

(** [df.mean(axis=1)]: one mean per row label. *)
Definition mean_axis1 (df : DataFrame) : Series :=
  mkSeries (index df) (map nanmean (values df)).

(** [df.mean(axis=0)]: one mean per column label. *)
Definition mean_axis0 (df : DataFrame) : Series :=
  mkSeries (columns df)
           (map (fun j => nanmean (column_at (values df) j))
                (seq 0 (length (columns df)))).

(** ** factors/effects.py and factors/pci.py *)

(** The double loop shared by both interaction functions: the residual
    [mij - row_means.loc[i] - col_means.loc[j] + overall] at every non-NaN
    cell, NaN elsewhere. *)
Definition interaction_loop (cell_means : DataFrame)
  (row_means col_means : Series) (overall : float) : DataFrame :=
  mkDF (index cell_means) (columns cell_means)
    (map (fun i =>
       map (fun j =>
          let mij := loc_or NaN cell_means i j in
          if isnan mij then NaN
          else fadd (fsub (fsub mij (series_loc_or NaN row_means i))
                          (series_loc_or NaN col_means j))
                    overall)
         (columns cell_means))
       (index cell_means)).

(** [effects.two_factor_interaction_matrix(cell_means, effect_center)];
    [None] is the ValueError of an unsupported centering mode. *)
Definition two_factor_interaction_matrix
  (cell_means : DataFrame) (effect_center : string) : option DataFrame :=
  if negb (String.eqb effect_center "overall") then None
  else
    let overall_mean := np_mean (filter notnan (flat_values cell_means)) in
    let row_means := mean_axis1 cell_means in
    let col_means := mean_axis0 cell_means in
    Some (interaction_loop cell_means row_means col_means overall_mean).

(** [pci.interaction_matrix_from_cell_means(cell_means)] *)
Definition interaction_matrix_from_cell_means (cell_means : DataFrame)
  : DataFrame :=
  let overall := nanmean (flat_values cell_means) in
  let row_means := mean_axis1 cell_means in
  let col_means := mean_axis0 cell_means in
  interaction_loop cell_means row_means col_means overall.

(** ** factors/bootstrap.py *)

(** A group key: the tuple of levels of the grouping columns. *)
Definition key := list label.

Fixpoint key_eqb (x y : key) : bool :=
  match x, y with
  | [], [] => true
  | a :: x', b :: y' => String.eqb a b && key_eqb x' y'
  | _, _ => false
  end.

(** Python [<] on tuples of strings. *)
Fixpoint key_ltb (x y : key) : bool :=
  match x, y with
  | [], [] => false
  | [], _ :: _ => true
  | _ :: _, [] => false
  | a :: x', b :: y' =>
      if String.eqb a b then key_ltb x' y' else String.ltb a b
  end.

(** The observations as [df.groupby(list(group_cols))[value_col]] reads
    them: per row, the levels of the grouping columns (strings, never
    missing) and the value. *)
Definition observations := list (key * float).

Fixpoint distinct_keys (ks : list key) : list key :=
  match ks with
  | [] => []
  | k :: r => if existsb (key_eqb k) r then distinct_keys r
              else k :: distinct_keys r
  end.

(** [df.groupby(cols)[value_col]]: one group per key that occurs in the
    rows, in sorted key order, each with its values in row order. *)
Definition groupby (df : observations) : list (key * list float) :=
  map (fun k => (k, map snd (filter (fun r => key_eqb (fst r) k) df)))
      (py_sorted key_ltb (distinct_keys (map fst df))).

(** [np.percentile(a, q)] with linear interpolation: the virtual index
    [(n - 1) * q / 100] is split into its floor and its fraction, the two
    neighbouring positions are kept inside the array, and the result
    interpolates between the order statistics found there.  [None] is the
    ValueError for [q] outside [0, 100]. *)
Definition percentile (a : list float) (q : float) : option float :=
  match q with
  | Fin qq =>
      if Qc_leb 0%Qc qq && Qc_leb qq (qz 100) then
        Some
          (if existsb isnan a then NaN
           else
             match a with
             | [] => NaN
             | _ :: _ =>
                 let srt := py_sorted flt a in
                 let pos := (qz (Z.of_nat (length a - 1)) * qq / qz 100)%Qc in
                 let lo := Nat.min (Z.to_nat (Qfloor pos)) (length a - 1) in
                 let hi := Nat.min (S lo) (length a - 1) in
                 let g := (pos - qz (Qfloor pos))%Qc in
                 let x := nth lo srt NaN in
                 let y := nth hi srt NaN in
                 fadd x (fmul (fsub y x) (Fin g))
             end)
      else None
  | _ => None
  end.

(** The table of replicates: MultiIndex rows, [bf_width] replicate
    columns. *)
Record BootFrame : Type := mkBF {
  bf_index : list key;
  bf_width : nat;
  bf_values : list (list float)
}.

(** [boot_df.empty] *)
Definition bf_empty (bf : BootFrame) : bool :=
  Nat.eqb (length (bf_index bf)) 0 || Nat.eqb (bf_width bf) 0.

(** [np.pad(v, (0, n - len(v)), constant_values=np.nan)] *)
Definition pad_nan (n : nat) (v : list float) : list float :=
  v ++ repeat NaN (n - length v).

Fixpoint assoc_key (A : Type) (k : key) (l : list (key * A)) : option A :=
  match l with
  | [] => None
  | (k', v) :: r => if key_eqb k' k then Some v else assoc_key k r
  end.

(** [bootstrap_to_dataframe(boot_dict, levels_a, levels_b)] *)
Definition bootstrap_to_dataframe
  (boot_dict : list (key * list float))
  (levels_a levels_b : option (list label)) : BootFrame :=
  let rows := map fst boot_dict in
  let vals := map snd boot_dict in
  match rows with
  | [] => mkBF [] 0 []
  | k0 :: _ =>
      let n_rep := fold_left Nat.max (map (@length float) vals) 0%nat in
      let vals_padded := map (pad_nan n_rep) vals in
      match levels_a, levels_b with
      | Some la, Some lb =>
          if Nat.eqb (length k0) 2 then
            let mi := flat_map (fun a => map (fun b => [a; b]) lb) la in
            mkBF mi n_rep
              (map (fun k =>
                      match assoc_key k (combine rows vals_padded) with
                      | Some v => v
                      | None => repeat NaN n_rep
                      end) mi)
          else mkBF rows n_rep vals_padded
      | _, _ => mkBF rows n_rep vals_padded
      end
  end.

Record ci_row : Type := mkCI {
  ci_key : key;
  estimate : float;
  se : float;
  ci_lower : float;
  ci_upper : float
}.

Section Bootstrap.
(** The generator behind [np.random.default_rng]: an abstract state and
    its bounded integer draw [rng.integers(0, n, size=k)]. *)
Variable rng : Type.
Variable seeded : Z -> rng.
Variable integers : rng -> nat -> nat -> list nat * rng.

(** The process-wide legacy generator behind
    [np.random.standard_normal(k)]. *)
Variable gstate : Type.
Variable standard_normal : gstate -> nat -> list float * gstate.

(** Square root on the finite carrier. *)
Variable sqrt : Qc -> Qc.

Definition fsqrt (x : float) : float :=
  match x with
  | Fin q => if Qc_ltb q 0%Qc then NaN else Fin (sqrt q)
  | PInf => PInf
  | _ => NaN
  end.

(** [_rng_from_seed(seed)]; without a seed the generator starts from
    fresh entropy, passed here as [fresh]. *)
Definition _rng_from_seed (fresh : rng) (seed : option Z) : rng :=
  match seed with
  | None => fresh
  | Some s => seeded s
  end.

(** The replicate loop [for i in range(n_boot)] over one group. *)
Fixpoint replicate_loop (stat : list float -> float) (arr : list float)
  (n_boot : nat) (g : rng) : list float * rng :=
  match n_boot with
  | O => ([], g)
  | S m =>
      let n := length arr in
      let '(idx, g1) := integers g n n in
      let sample := map (fun i => nth i arr NaN) idx in
      let '(rest, g2) := replicate_loop stat arr m g1 in
      (stat sample :: rest, g2)
  end.

(** The loop over groups, filling [boot_results] in group order. *)
Fixpoint bootstrap_groups (stat : list float -> float) (n_boot : nat)
  (groups : list (key * list float)) (g : rng)
  : list (key * list float) * rng :=
  match groups with
  | [] => ([], g)
  | (k, series) :: r =>
      let arr := filter notnan series in
      if Nat.eqb (length arr) 0 then
        let '(rest, g') := bootstrap_groups stat n_boot r g in
        ((k, repeat NaN n_boot) :: rest, g')
      else
        let '(reps, g1) := replicate_loop stat arr n_boot g in
        let '(rest, g2) := bootstrap_groups stat n_boot r g1 in
        ((k, reps) :: rest, g2)
  end.

(** [bootstrap_cell_statistics(df, group_cols, value_col, stat, n_boot,
    random_state)]: the returned dict, in insertion order. *)
Definition bootstrap_cell_statistics (fresh : rng) (df : observations)
  (stat : list float -> float) (n_boot : nat) (random_state : option Z)
  : list (key * list float) :=
  let g := _rng_from_seed fresh random_state in
  fst (bootstrap_groups stat n_boot (groupby df) g).

(** pandas [std(axis=1, ddof=1)] of one row, NaN skipped. *)
Definition nanstd1 (xs : list float) : float :=
  let ys := filter notnan xs in
  let n := length ys in
  if Nat.leb n 1 then NaN
  else
    let m := np_mean ys in
    let sq := map (fun x => fmul (fsub x m) (fsub x m)) ys in
    fsqrt (fdiv (py_sum sq) (fnat (n - 1))).

(** pandas [quantile(q, axis=1)] of one row, NaN skipped. *)
Definition row_quantile (q : float) (xs : list float) : option float :=
  percentile (filter notnan xs) (fmul (fz 100) q).

Definition one_minus_half (alpha : float) : float :=
  fsub (Fin 1%Qc) (fdiv alpha (fz 2)).

Fixpoint percentile_rows (alpha : float) (rows : list (key * list float))
  : option (list ci_row) :=
  match rows with
  | [] => Some []
  | (k, xs) :: r =>
      match row_quantile (fdiv alpha (fz 2)) xs,
            row_quantile (one_minus_half alpha) xs,
            percentile_rows alpha r with
      | Some lo, Some hi, Some rest =>
          Some (mkCI k (nanmean xs) (nanstd1 xs) lo hi :: rest)
      | _, _, _ => None
      end
  end.

Definition se_row (z : float) (kx : key * list float) : ci_row :=
  let estimates := nanmean (snd kx) in
  let se := nanstd1 (snd kx) in
  mkCI (fst kx) estimates se
       (fsub estimates (fmul z se)) (fadd estimates (fmul z se)).

(** The size of the standard-normal sample behind the critical value. *)
Definition n_draws : nat := Z.to_nat 100000.

(** [compute_bootstrap_ci(boot_df, alpha, ci_method)], run in the global
    generator state [g]; [None] is a raised ValueError. *)
Definition compute_bootstrap_ci (boot_df : BootFrame) (alpha : float)
  (ci_method : string) (g : gstate) : option (list ci_row) * gstate :=
  if bf_empty boot_df then (Some [], g)
  else
    let rows := combine (bf_index boot_df) (bf_values boot_df) in
    if String.eqb ci_method "percentile" then
      (percentile_rows alpha rows, g)
    else if String.eqb ci_method "se" then
      let '(draws, g') := standard_normal g n_draws in
      match percentile draws (fmul (fz 100) (one_minus_half alpha)) with
      | None => (None, g')
      | Some p =>
          let z := fabs p in
          (Some (map (se_row z) rows), g')
      end
    else (None, g).
End Bootstrap.

(** ** Concrete generators and square root, for running the model *)

(** A linear congruential generator standing for a seeded
    [np.random.Generator]. *)
Definition lcg_next (s : Z) : Z := ((s * 1103515245 + 12345) mod 2147483648)%Z.

Fixpoint lcg_integers (s : Z) (n size : nat) : list nat * Z :=
  match size with
  | O => ([], s)
  | S m =>
      let s' := lcg_next s in
      let '(rest, s'') := lcg_integers s' n m in
      (Z.to_nat (s' mod Z.of_nat n) :: rest, s'')
  end.

(** The global generator as the tape of values it is about to produce. *)
Definition tape := nat -> float.

Definition tape_standard_normal (t : tape) (n : nat) : list float * tape :=
  (map t (seq 0 n), fun i => t (n + i)%nat).

(** Square root by integer square root of numerator times denominator;
    exact on squares of rationals. *)
Definition sqrt_floor (q : Qc) : Qc :=
  let n := Qnum (this q) in
  let d := Zpos (Qden (this q)) in
  Q2Qc (Z.sqrt (n * d) # Qden (this q)).

(** ** Example tables *)

Definition means_2x2 : DataFrame :=
  mkDF ["A1"; "A2"]%string ["B1"; "B2"]%string
       [[fz 1; fz 2]; [fz 3; fz 4]].

Definition unc_2x2 : DataFrame :=
  mkDF ["A1"; "A2"]%string ["B1"; "B2"]%string
       [[ffrac 1 10; ffrac 2 10]; [ffrac 3 10; ffrac 4 10]].

Definition cost_2x2 : DataFrame :=
  mkDF ["A1"; "A2"]%string ["B1"; "B2"]%string
       [[fz 10; fz 0]; [fz 5; fz 1]].

(** The cost table of the tests with the entry of (A1, B2) missing. *)
Definition cost_2x2_gap : DataFrame :=
  mkDF ["A1"; "A2"]%string ["B1"; "B2"]%string
       [[fz 10; NaN]; [fz 5; fz 1]].

(** A means table over A1 x {B1, B2} and cost tables over A1 x {B1}
    alone, and over the full universe with the absent entry set to zero. *)
Definition means_1x2 : DataFrame :=
  mkDF ["A1"]%string ["B1"; "B2"]%string [[fz 1; fz 2]].

Definition cost_1x1 : DataFrame :=
  mkDF ["A1"]%string ["B1"]%string [[fz 2]].

Definition cost_1x2_zero_filled : DataFrame :=
  mkDF ["A1"]%string ["B1"; "B2"]%string [[fz 2; fz 0]].

(** A cost table whose only entry lies strictly between 0 and the default
    epsilon: 5e-10. *)
Definition cost_tiny : DataFrame :=
  mkDF ["A1"]%string ["B1"]%string [[ffrac 1 2000000000]].

(** ** Specification-side notions for the selectors *)

(** A table entry that takes part in selection: its score is not NaN. *)
Definition scored (e : cand) : bool := notnan (cand_val e).



(** Entries whose sort keys are plain numbers. *)
Definition cand_ok (e : cand) : Prop :=
  isreal (cand_val e) = true /\ isfinite (cand_cost e) = true.

(** A cost argument that is absent or a well-formed table of finite
    costs. *)
Definition cost_ok (cost : option DataFrame) : bool :=
  match cost with
  | None => true
  | Some c => df_wf c && df_all isfinite c
  end.

(** The score and unit-cost tables of the optimizer tests. *)
Definition score_3x2 : DataFrame :=
  mkDF ["A1"; "A2"; "A3"]%string ["B1"; "B2"]%string
       [[fz 10; fz 8]; [fz 6; fz 4]; [fz 2; fz 1]].

Definition unit_cost_3x2 : DataFrame :=
  mkDF ["A1"; "A2"; "A3"]%string ["B1"; "B2"]%string
       [[fz 1; fz 1]; [fz 1; fz 1]; [fz 1; fz 1]].



(** [s] is obtained from [l] by dropping elements, order kept: the
    combinations of [itertools] are the subsequences of a given length. *)
Inductive subseq (A : Type) : list A -> list A -> Prop :=
| subseq_nil : subseq [] []
| subseq_take x s l : subseq s l -> subseq (x :: s) (x :: l)
| subseq_drop x s l : subseq s l -> subseq s (x :: l).

(** The cost table, when given, knows every label of the score table, so
    that the unguarded [cost.loc[a, b]] cannot raise. *)
Definition cost_aligned (score : DataFrame) (cost : option DataFrame)
  : bool :=
  match cost with
  | None => true
  | Some c => forallb (has_label (index c)) (index score) &&
              forallb (has_label (columns c)) (columns score)
  end.

(** A combination fits the budget. *)
Definition within_budget (budget : float) (comb : list cand) : bool :=
  fle (comb_cost comb) budget.

(** *** Beam search, in the words of the specification *)

(** The partial selection [be] grown by candidate [cd]. *)
Definition extend (be : bentry) (cd : cand) : bentry :=
  mkB (b_sel be ++ [cand_cell cd])
      (fadd (b_score be) (cand_val cd))
      (fadd (b_cost be) (cand_cost cd)).

(** [cd] is not yet selected in [be] and adding it keeps the cumulative
    cost within the budget. *)
Definition admissible (budget : float) (be : bentry) (cd : cand) : bool :=
  negb (cell_in (cand_cell cd) (b_sel be)) &&
  fle (fadd (b_cost be) (cand_cost cd)) budget.

Definition expansions (budget : float) (cands : list cand) (be : bentry)
  : list bentry :=
  map (extend be) (filter (admissible budget be) cands).

Definition next_generation (budget : float) (cands : list cand)
  (beam : list bentry) : list bentry :=
  flat_map (expansions budget cands) beam.

Definition top_by_score (w : nat) (gen : list bentry) : list bentry :=
  firstn w (py_sorted bentry_key_lt gen).

(** The generations produced from [beam] in [iters] steps. *)
Fixpoint generations (budget : float) (w : nat) (cands : list cand)
  (iters : nat) (beam : list bentry) : list (list bentry) :=
  match iters with
  | O => []
  | S n =>
      let g := next_generation budget cands beam in
      g :: generations budget w cands n (top_by_score w g)
  end.

(** The tracking of the best entry: a strictly better score replaces
    it. *)
Definition better (best e : bentry) : bentry :=
  if fgt (b_score e) (b_score best) then e else best.

Definition beam_start : bentry := mkB [] (Fin 0%Qc) (Fin 0%Qc).


Definition bentry_fin (e : bentry) : Prop :=
  isfinite (b_score e) = true /\ isfinite (b_cost e) = true.

Definition cand_fin (e : cand) : Prop :=
  isfinite (cand_val e) = true /\ isfinite (cand_cost e) = true.

(** The cost table the beam search works with. *)
Definition beam_cost (score : DataFrame) (cost : option DataFrame)
  : DataFrame :=
  match cost with
  | None => df_const (Fin 1%Qc) (index score) (columns score)
  | Some c => c
  end.

(** The total cost and the total score of a selection of cells, read off
    the tables (unit cost where the cost table is absent). *)
Definition cell_cost (score : DataFrame) (cost : option DataFrame)
  (ab : cell) : float :=
  loc_or (Fin 1%Qc) (beam_cost score cost) (fst ab) (snd ab).

Definition cell_score (score : DataFrame) (ab : cell) : float :=
  loc_or NaN score (fst ab) (snd ab).

Definition selection_cost (score : DataFrame) (cost : option DataFrame)
  (sel : list cell) : float :=
  py_sum (map (cell_cost score cost) sel).

Definition selection_score (score : DataFrame) (sel : list cell) : float :=
  py_sum (map (cell_score score) sel).

(** A beam entry carries the total score of its own selection. *)
Definition accounted (score : DataFrame) (e : bentry) : Prop :=
  b_score e = selection_score score (b_sel e).

(** Result comparison for the selectors. *)
Fixpoint sel_eqb (x y : list cell) : bool :=
  match x, y with
  | [], [] => true
  | a :: x', b :: y' => cell_eqb a b && sel_eqb x' y'
  | _, _ => false
  end.

Definition result_eqb (r : option (list cell * float))
  (sel : list cell) (v : float) : bool :=
  match r with
  | Some (s, x) => sel_eqb s sel && float_eqb x v
  | None => false
  end.

(** *** Sums over the finite carrier, for the residual identity *)

Definition qsum (l : list Qc) : Qc := fold_right Qcplus 0%Qc l.

(** The value of an entry (a missing entry weighs nothing) and its
    presence indicator. *)
Definition fval (x : float) : Qc :=
  match x with Fin q => q | _ => 0%Qc end.

Definition fcnt (x : float) : Qc :=
  match x with Fin _ => 1%Qc | _ => 0%Qc end.

(** The mean of the present entries, on the carrier. *)
Definition qmean (xs : list float) : Qc :=
  (qsum (map fval xs) / qsum (map fcnt xs))%Qc.

(** The residual the interaction loops store at one cell. *)
Definition residual (mij row_mean col_mean overall : float) : float :=
  if isnan mij then NaN
  else fadd (fsub (fsub mij row_mean) col_mean) overall.

(** A 2 x 2 means table with one missing cell. *)
Definition means_2x2_gap : DataFrame :=
  mkDF ["A1"; "A2"]%string ["B1"; "B2"]%string
       [[fz 1; fz 2]; [fz 3; NaN]].

(** *** Bootstrap examples *)

(** One cell with the three replicates 0, 2, 4: mean 2, standard
    deviation 2. *)
Definition boot_one_cell : BootFrame :=
  mkBF [["A1"; "B1"]%string] 3 [[fz 0; fz 2; fz 4]].

(** Two states of the global generator: about to produce zeros, about to
    produce ones. *)
Definition tape_of (c : Qc) : tape := fun _ => Fin c.

(** Observations of the cells (A1, B1) and (A2, B2) only: the cells
    (A1, B2) and (A2, B1) of the level universe have no row. *)
Definition obs_diagonal : observations :=
  [(["A1"; "B1"]%string, fz 1); (["A2"; "B2"]%string, fz 2);
   (["A1"; "B1"]%string, fz 5)].


(** The same with a row for (A2, B1) whose outcome is missing. *)
Definition obs_with_missing_outcome : observations :=
  [(["A1"; "B1"]%string, fz 1); (["A2"; "B2"]%string, fz 2);
   (["A1"; "B1"]%string, fz 5); (["A2"; "B1"]%string, NaN)].


(** One row of three cells with scores 10, 8, 6 and costs 1, 5, 1. *)
Definition score_1x3 : DataFrame :=
  mkDF ["A1"]%string ["B1"; "B2"; "B3"]%string [[fz 10; fz 8; fz 6]].

Definition cost_1x3 : DataFrame :=
  mkDF ["A1"]%string ["B1"; "B2"; "B3"]%string [[fz 1; fz 5; fz 1]].


(** A score that is missing or at most zero. *)
Definition nonpositive (x : float) : bool := isnan x || fle x (Fin 0%Qc).

(** A score table without a positive entry. *)
Definition score_nonpositive : DataFrame :=
  mkDF ["A1"; "A2"]%string ["B1"; "B2"]%string
       [[fz (-1); fz 0]; [NaN; fz (-3)]].

(** ** factors/pci.py: the index *)

(** Python [x / y] on two floats: a zero divisor raises ZeroDivisionError
    ([None]). *)
Definition py_truediv (x y : float) : option float :=
  if feq y (Fin 0%Qc) then None else Some (fdiv x y).

(** [pci_simple(cell_means, normalize, eps)] *)
Definition pci_simple (cell_means : DataFrame) (normalize : bool)
  (eps : float) : option float :=
  let I := interaction_matrix_from_cell_means cell_means in
  let sum_abs_I := nansum (map fabs (flat_values I)) in
  if negb normalize then Some sum_abs_I
  else
    let denom := nansum (map fabs (flat_values cell_means)) in
    if fle denom eps then Some (Fin 0%Qc)
    else py_truediv sum_abs_I denom.

(** An entry that is missing or zero. *)
Definition nan_or_zero (x : float) : bool :=
  match x with
  | NaN => true
  | Fin q => Qc_eqb q 0%Qc
  | _ => false
  end.

(** The absolute value on the carrier. *)
Definition qabs (q : Qc) : Qc := if Qc_ltb q 0%Qc then (- q)%Qc else q.


(** An all-zero table with one missing cell. *)
Definition means_zero : DataFrame :=
  mkDF ["A1"; "A2"]%string ["B1"; "B2"]%string
       [[fz 0; NaN]; [fz 0; fz 0]].

(** ** factors/effects.py: estimation from rows *)

Fixpoint distinct_labels (ls : list label) : list label :=
  match ls with
  | [] => []
  | x :: r => if existsb (String.eqb x) r then distinct_labels r
              else x :: distinct_labels r
  end.

(** The sorted distinct values of a column of levels: the order pandas
    gives the levels of a group index, and Python's [sorted(set(...))]. *)
Definition sorted_levels (ls : list label) : list label :=
  py_sorted String.ltb (distinct_labels ls).

(** The rows of a data frame as the two-factor functions read them: the
    levels of [factor_a] and [factor_b] (strings, never missing) and the
    outcome. *)
Definition two_factor_rows := list (cell * float).

Definition cell_key (c : cell) : key := [fst c; snd c].

(** [df.groupby([factor_a, factor_b])[outcome_col]] *)
Definition cell_groups (df : two_factor_rows) : list (key * list float) :=
  groupby (map (fun r => (cell_key (fst r), snd r)) df).

(** [estimate_two_factor_cell_means(df, factor_a, factor_b, outcome_col)]:
    the group means, unstacked on the second level. *)
Definition estimate_two_factor_cell_means (df : two_factor_rows)
  : DataFrame :=
  let means := map (fun g => (fst g, nanmean (snd g))) (cell_groups df) in
  let idx := sorted_levels (map (fun r => fst (fst r)) df) in
  let cols := sorted_levels (map (fun r => snd (fst r)) df) in
  mkDF idx cols
    (map (fun a =>
       map (fun b =>
          match assoc_key [a; b] means with
          | Some v => v
          | None => NaN
          end) cols) idx).

(** The outcomes of the rows of one cell, in row order. *)
Definition cell_outcomes (df : two_factor_rows) (c : cell) : list float :=
  map snd (filter (fun r => cell_eqb (fst r) c) df).


(** One row as [estimate_main_effects] reads it: the level of every
    categorical column by name, the outcome, and the weight (read only when
    a weights column is named). *)
Record obs_row : Type := mkRow {
  row_level : string -> label;
  row_y : float;
  row_w : float
}.

(** [df.groupby(f)] on rows of any kind: one group per key, in sorted key
    order, the rows of a group in their original order. *)
Definition groupby_rows (A : Type) (df : list (key * A))
  : list (key * list A) :=
  map (fun k => (k, map snd (filter (fun r => key_eqb (fst r) k) df)))
      (py_sorted key_ltb (distinct_keys (map fst df))).

(** The weighted mean of one group of (outcome, weight) rows:
    [(g[y] * g[w]).sum() / (g[w].sum() if g[w].sum() != 0 else np.nan)];
    pandas' [sum] skips NaN. *)
Definition weighted_mean (g : list (float * float)) : float :=
  let num := nansum (map (fun yw => fmul (fst yw) (snd yw)) g) in
  let den := nansum (map snd g) in
  fdiv num (if negb (feq den (Fin 0%Qc)) then den else NaN).

(** The loop body for the factor column [f]: the marginal means, indexed by
    level in sorted order. *)
Definition main_effect (df : list obs_row) (f : string) (weighted : bool)
  : Series :=
  let groups :=
    groupby_rows
      (map (fun r => ([row_level r f], (row_y r, row_w r))) df) in
  mkSeries (map (fun g => hd EmptyString (fst g)) groups)
           (map (fun g => if weighted then weighted_mean (snd g)
                          else nanmean (map fst (snd g))) groups).

(** A Python dict with string keys, in insertion order. *)
Fixpoint dict_set (A : Type) (k : string) (v : A) (d : list (string * A))
  : list (string * A) :=
  match d with
  | [] => [(k, v)]
  | (k', v') :: r => if String.eqb k' k then (k', v) :: r
                     else (k', v') :: dict_set k v r
  end.

Fixpoint dict_get (A : Type) (k : string) (d : list (string * A))
  : option A :=
  match d with
  | [] => None
  | (k', v) :: r => if String.eqb k' k then Some v else dict_get k r
  end.

(** [estimate_main_effects(df, factor_cols, outcome_col,
    groupby_weights_col)]; [weighted] tells whether a weights column is
    named. *)
Definition estimate_main_effects (df : list obs_row)
  (factor_cols : list string) (weighted : bool) : list (string * Series) :=
  fold_left (fun effects f => dict_set f (main_effect df f weighted) effects)
            factor_cols [].

(** The (outcome, weight) rows at level [a] of factor [f], in row order. *)
Definition rows_at (df : list obs_row) (f : string) (a : label)
  : list (float * float) :=
  map (fun r => (row_y r, row_w r))
      (filter (fun r => String.eqb (row_level r f) a) df).

(** The toy data of the tests: a balanced 2 x 2 design with outcomes 1, 2,
    3, 4 and unit weights. *)
Definition toy_row (a b : label) (y : float) : obs_row :=
  mkRow (fun f => if String.eqb f "A"%string then a else b) y (Fin 1%Qc).

Definition toy_df : list obs_row :=
  [toy_row "A1"%string "B1"%string (fz 1);
   toy_row "A1"%string "B2"%string (fz 2);
   toy_row "A2"%string "B1"%string (fz 3);
   toy_row "A2"%string "B2"%string (fz 4)].

(** [v] is the statistic of some resample of [arr]: a sample of the size of
    [arr] whose elements are all drawn from [arr]. *)
Definition resample_stat (stat : list float -> float) (arr : list float)
  (v : float) : Prop :=
  exists sample,
    length sample = length arr /\ Forall (fun x => In x arr) sample /\
    v = stat sample.

(** The contract of [rng.integers(0, n, size=k)] for a positive [n]: [k]
    draws, each below [n]. *)
Definition integers_in_range (rng : Type)
  (integers : rng -> nat -> nat -> list nat * rng) : Prop :=
  forall g n k, (0 < n)%nat ->
    length (fst (integers g n k)) = k /\
    Forall (fun i => (i < n)%nat) (fst (integers g n k)).

(** The non-missing outcomes of the rows with key [k], in row order. *)
Definition group_values (df : observations) (k : key) : list float :=
  filter notnan (map snd (filter (fun r => key_eqb (fst r) k) df)).

(** A finite value between two bounds. *)
Definition within (lo hi : Qc) (x : float) : Prop :=
  exists q, x = Fin q /\ (lo <= q)%Qc /\ (q <= hi)%Qc.

(** The interpolation of [np.percentile] on the carrier: the value at the
    virtual index [pos] of the ascending list [s]. *)
Definition interpolate (s : list Qc) (pos : Qc) : Qc :=
  let lo := Nat.min (Z.to_nat (Qfloor pos)) (length s - 1) in
  let hi := Nat.min (S lo) (length s - 1) in
  let g := (pos - qz (Qfloor pos))%Qc in
  (nth lo s 0 + (nth hi s 0 - nth lo s 0) * g)%Qc.

(** The virtual index of the [q]-th percentile in an array of [n]
    values. *)
Definition virtual_index (n : nat) (q : Qc) : Qc :=
  (qz (Z.of_nat (n - 1)) * q / qz 100)%Qc.

Section Pipeline.
Variable rng : Type.
Variable seeded : Z -> rng.
Variable integers : rng -> nat -> nat -> list nat * rng.
Variable gstate : Type.
Variable standard_normal : gstate -> nat -> list float * gstate.
Variable sqrt : Qc -> Qc.

End Pipeline.


(** ** factors/score.py: uncertainty from bootstrap draws *)

(** [result.loc[a, b] = v] on a frame: a label the frame does not have is
    appended first (a new row or column of NaN), then every cell whose row
    label is [a] and whose column label is [b] receives [v]. *)
Definition set_loc (df : DataFrame) (a b : label) (v : float) : DataFrame :=
  let df1 :=
    if has_label (index df) a then df
    else mkDF (index df ++ [a]) (columns df)
              (values df ++ [map (fun _ => NaN) (columns df)]) in
  let df2 :=
    if has_label (columns df1) b then df1
    else mkDF (index df1) (columns df1 ++ [b])
              (map (fun r => r ++ [NaN]) (values df1)) in
  mkDF (index df2) (columns df2)
    (map (fun ir =>
       map (fun jx =>
          if String.eqb (fst ir) a && String.eqb (fst jx) b then v
          else snd jx)
         (combine (columns df2) (snd ir)))
       (combine (index df2) (values df2))).

Section Uncertainty.
(** Square root on the carrier, and numpy's namespace as far as
    [getattr(np, aggfunc, None)] reads it: the reduction behind a name, if
    any. *)
Variable sqrt : Qc -> Qc.
Variable np_attr : string -> option (list float -> float).

(** [np.std(arr, ddof=1)]: NaN propagates; fewer than two values give
    NaN (0/0). *)
Definition np_std1 (arr : list float) : float :=
  let m := np_mean arr in
  let sq := map (fun x => fmul (fsub x m) (fsub x m)) arr in
  fsqrt sqrt (fdiv (py_sum sq) (fnat (length arr - 1))).

(** The interquartile range: [np.subtract] applied to the two values of
    [np.percentile(arr, [75, 25])]. *)
Definition np_iqr (arr : list float) : float :=
  match percentile arr (fz 75), percentile arr (fz 25) with
  | Some p75, Some p25 => fsub p75 p25
  | _, _ => NaN
  end.

(** The aggregation of one array of draws; [None] is the ValueError of an
    unknown name. *)
Definition aggregate (aggfunc : string) (arr : list float) : option float :=
  if String.eqb aggfunc "std" then Some (np_std1 arr)
  else if String.eqb aggfunc "se"
       then Some (fdiv (np_std1 arr) (fsqrt sqrt (fnat (length arr))))
  else if String.eqb aggfunc "iqr" then Some (np_iqr arr)
  else match np_attr aggfunc with
       | Some f => Some (f arr)
       | None => None
       end.

(** The loop [for (a, b), arr in bootstrap_values.items()]; a key that is
    not a pair fails to unpack. *)
Fixpoint uncertainty_loop (aggfunc : string)
  (items : list (key * list float)) (result : DataFrame)
  : option DataFrame :=
  match items with
  | [] => Some result
  | (k, arr) :: r =>
      match k with
      | [a; b] =>
          match aggregate aggfunc arr with
          | Some v => uncertainty_loop aggfunc r (set_loc result a b v)
          | None => None
          end
      | _ => None
      end
  end.

(** [compute_uncertainty_from_bootstrap(bootstrap_values, levels_a,
    levels_b, aggfunc)] on a dict of draws (the branch for a mapping);
    [None] stands for a raised exception. *)
Definition compute_uncertainty_from_bootstrap
  (bootstrap_values : list (key * list float))
  (levels_a levels_b : option (list label)) (aggfunc : string)
  : option DataFrame :=
  match levels_a, levels_b with
  | Some la, Some lb =>
      uncertainty_loop aggfunc bootstrap_values (df_const NaN la lb)
  | _, _ =>
      let keys := map fst bootstrap_values in
      if forallb (fun k => Nat.leb 2 (length k)) keys then
        let la := sorted_levels (map (fun k => nth 0 k EmptyString) keys) in
        let lb := sorted_levels (map (fun k => nth 1 k EmptyString) keys) in
        uncertainty_loop aggfunc bootstrap_values (df_const NaN la lb)
      else None
  end.
End Uncertainty.

(** The bootstrap dict of the tests. *)
Definition boot_dict_test : list (key * list float) :=
  [(["A1"; "B1"]%string, [fz 1; ffrac 11 10; ffrac 9 10]);
   (["A1"; "B2"]%string, [fz 2; ffrac 21 10; ffrac 19 10])].

(** A numpy namespace that knows [mean] only. *)
Definition np_attr_mean (name : string) : option (list float -> float) :=
  if String.eqb name "mean" then Some np_mean else None.

(** ** factors/pci.py: the variance shares *)





(* ================================================================== *)
(** * Part II: properties *)
(* ================================================================== *)

Unset Implicit Arguments.

(** ** Canonical rationals and floats *)

Lemma Qc_eqb_eq (x y : Qc) : Qc_eqb x y = true <-> x = y.
Proof.
  unfold Qc_eqb. rewrite Qeq_bool_iff. split.
  - apply Qc_is_canon.
  - intros ->. reflexivity.
Qed.

Lemma Qc_eqb_neq (x y : Qc) : Qc_eqb x y = false <-> x <> y.
Proof.
  rewrite <- Qc_eqb_eq. destruct (Qc_eqb x y); split; congruence.
Qed.

Lemma Qc_leb_le (x y : Qc) : Qc_leb x y = true <-> (x <= y)%Qc.
Proof. unfold Qc_leb, Qcle. apply Qle_bool_iff. Qed.

Lemma Qc_ltb_lt (x y : Qc) : Qc_ltb x y = true <-> (x < y)%Qc.
Proof.
  unfold Qc_ltb, Qclt. rewrite negb_true_iff.
  split; intros H.
  - apply Qnot_le_lt. intros C. apply Qle_bool_iff in C. congruence.
  - destruct (Qle_bool y x) eqn:E; [|reflexivity].
    apply Qle_bool_iff in E. exfalso. revert E. apply Qlt_not_le, H.
Qed.

Lemma Qc_ltb_nlt (x y : Qc) : Qc_ltb x y = false <-> (y <= x)%Qc.
Proof.
  unfold Qc_ltb. rewrite negb_false_iff. apply Qc_leb_le.
Qed.

Lemma Qc_leb_nle (x y : Qc) : Qc_leb x y = false <-> (y < x)%Qc.
Proof.
  rewrite <- Qc_ltb_lt. unfold Qc_ltb, Qc_leb.
  destruct (Qle_bool x y); simpl; split; congruence.
Qed.

Lemma float_eqb_eq (x y : float) : float_eqb x y = true -> x = y.
Proof.
  destruct x, y; simpl; try discriminate; try reflexivity.
  intros H. apply Qc_eqb_eq in H. now subst.
Qed.

Lemma row_eqb_eq (r s : list float) : row_eqb r s = true -> r = s.
Proof.
  unfold row_eqb. revert s.
  induction r as [|x r IH]; intros [|y s]; simpl; try discriminate; auto.
  rewrite !andb_true_iff. intros [Hl [Hx Hr]].
  apply float_eqb_eq in Hx. subst. f_equal.
  apply IH. now rewrite Hl, Hr.
Qed.

Lemma values_eqb_eq (v w : list (list float)) :
  values_eqb v w = true -> v = w.
Proof.
  unfold values_eqb. revert w.
  induction v as [|x v IH]; intros [|y w]; simpl; try discriminate; auto.
  rewrite !andb_true_iff. intros [Hl [Hx Hr]].
  apply row_eqb_eq in Hx. subst. f_equal.
  apply IH. now rewrite Hl, Hr.
Qed.

Lemma fsub_zero_r (x : float) : fsub x (Fin 0%Qc) = x.
Proof.
  destruct x; simpl; try reflexivity.
  unfold fsub; simpl. f_equal. ring.
Qed.

Lemma fmul_fin_zero (k : Qc) : fmul (Fin k) (Fin 0%Qc) = Fin 0%Qc.
Proof. simpl. f_equal. ring. Qed.

Lemma fmul_zero_fin (v : Qc) : fmul (Fin 0%Qc) (Fin v) = Fin 0%Qc.
Proof. simpl. f_equal. ring. Qed.

(** ** Positional access *)

Lemma nth_zip_with (A B C : Type) (f : A -> B -> C) xs ys i dc da db :
  (i < length xs)%nat -> (i < length ys)%nat ->
  nth i (zip_with f xs ys) dc = f (nth i xs da) (nth i ys db).
Proof.
  revert ys i. induction xs as [|x xs IH]; intros [|y ys] [|i];
    simpl; intros; try lia; auto.
  apply IH; lia.
Qed.

Lemma length_zip_with (A B C : Type) (f : A -> B -> C) xs ys :
  length (zip_with f xs ys) = Nat.min (length xs) (length ys).
Proof.
  revert ys. induction xs as [|x xs IH]; intros [|y ys]; simpl; auto.
Qed.

Lemma nth_map_in (A B : Type) (f : A -> B) l i da db :
  (i < length l)%nat -> nth i (map f l) db = f (nth i l da).
Proof.
  revert i. induction l as [|x l IH]; intros [|i]; simpl; intros; try lia.
  - reflexivity.
  - apply IH. lia.
Qed.

Lemma df_shape_rows (df : DataFrame) :
  df_shape df = true ->
  length (values df) = length (index df) /\
  forall i, (i < length (index df))%nat ->
            length (nth i (values df) []) = length (columns df).
Proof.
  unfold df_shape. rewrite andb_true_iff, Nat.eqb_eq, forallb_forall.
  intros [Hl Hr]. split; [exact Hl|].
  intros i Hi. apply Nat.eqb_eq, Hr, nth_In. lia.
Qed.

Lemma iat_df_map (f : float -> float) df i j :
  (i < length (values df))%nat ->
  (j < length (nth i (values df) []))%nat ->
  iat (df_map f df) i j = f (iat df i j).
Proof.
  intros Hi Hj. unfold iat, df_map; simpl.
  rewrite (nth_map_in _ _ (map f) (values df) i [] []) by exact Hi.
  apply nth_map_in. exact Hj.
Qed.

Lemma iat_df_map2 (f : float -> float -> float) x y i j :
  (i < length (values x))%nat -> (i < length (values y))%nat ->
  (j < length (nth i (values x) []))%nat ->
  (j < length (nth i (values y) []))%nat ->
  iat (df_map2 f x y) i j = f (iat x i j) (iat y i j).
Proof.
  intros Hx Hy Hjx Hjy. unfold iat, df_map2; simpl.
  rewrite (nth_zip_with _ _ _ (zip_with f) (values x) (values y) i [] [] [])
    by assumption.
  apply nth_zip_with; assumption.
Qed.

(** A frame built by a double [map] over labels has the shape of those
    labels and holds the generating function at every position. *)
Lemma built_rows (g : label -> label -> float) idx cols i :
  (i < length idx)%nat ->
  nth i (map (fun a => map (fun b => g a b) cols) idx) [] =
  map (fun b => g (nth i idx EmptyString) b) cols.
Proof.
  intros Hi.
  apply (nth_map_in _ _ (fun a => map (fun b => g a b) cols) idx i
           EmptyString []).
  exact Hi.
Qed.

Lemma built_iat (g : label -> label -> float) idx cols i j :
  (i < length idx)%nat -> (j < length cols)%nat ->
  iat (mkDF idx cols (map (fun a => map (fun b => g a b) cols) idx)) i j =
  g (nth i idx EmptyString) (nth j cols EmptyString).
Proof.
  intros Hi Hj. unfold iat; simpl. rewrite built_rows by exact Hi.
  apply (nth_map_in _ _ (fun b => g (nth i idx EmptyString) b) cols j
           EmptyString NaN). exact Hj.
Qed.

Lemma built_shape (g : label -> label -> float) idx cols :
  df_shape (mkDF idx cols (map (fun a => map (fun b => g a b) cols) idx))
  = true.
Proof.
  unfold df_shape; simpl. rewrite length_map, Nat.eqb_refl. simpl.
  apply forallb_forall. intros r Hr. apply in_map_iff in Hr.
  destruct Hr as [a [<- _]]. rewrite length_map. apply Nat.eqb_refl.
Qed.

Lemma df_map_shape (f : float -> float) df :
  df_shape df = true -> df_shape (df_map f df) = true.
Proof.
  unfold df_shape; simpl. rewrite !andb_true_iff, !forallb_forall.
  intros [Hl Hr]. split.
  - now rewrite length_map.
  - intros r Hin. apply in_map_iff in Hin. destruct Hin as [r' [<- Hin]].
    rewrite length_map. apply Hr, Hin.
Qed.

(** ** Risk-adjusted score: the aligned tables *)

Lemma reindex_shape df idx cols : df_shape (reindex df idx cols) = true.
Proof.
  unfold reindex.
  apply (built_shape
           (fun a b => match loc df a b with Some v => v | None => NaN end)).
Qed.

Lemma aligned_uncertainty_labels means u :
  index (aligned_uncertainty means u) = index means /\
  columns (aligned_uncertainty means u) = columns means.
Proof. destruct u; split; reflexivity. Qed.

Lemma aligned_uncertainty_shape means u :
  df_shape (aligned_uncertainty means u) = true.
Proof.
  destruct u as [u|]; simpl.
  - unfold fillna. apply df_map_shape. apply reindex_shape.
  - apply (built_shape (fun _ _ => Fin 0%Qc)).
Qed.

Lemma normalize_costs_labels costs eps :
  index (normalize_costs costs eps) = index costs /\
  columns (normalize_costs costs eps) = columns costs.
Proof.
  unfold normalize_costs.
  destruct (fle _ eps); split; reflexivity.
Qed.

Lemma normalize_costs_shape costs eps :
  df_shape costs = true -> df_shape (normalize_costs costs eps) = true.
Proof.
  intros H. unfold normalize_costs.
  destruct (fle _ eps); apply df_map_shape, H.
Qed.

Lemma cost_term_labels means c flag :
  index (cost_term means c flag) = index means /\
  columns (cost_term means c flag) = columns means.
Proof.
  destruct c as [c|]; simpl; [|split; reflexivity].
  destruct flag; [|split; reflexivity].
  destruct (normalize_costs_labels
              (reindex c (index means) (columns means)) default_eps)
    as [Ei Ec].
  rewrite Ei, Ec. split; reflexivity.
Qed.

Lemma cost_term_shape means c flag :
  df_shape (cost_term means c flag) = true.
Proof.
  destruct c as [c|]; simpl.
  - destruct flag.
    + apply normalize_costs_shape. apply reindex_shape.
    + apply reindex_shape.
  - apply (built_shape (fun _ _ => Fin 0%Qc)).
Qed.

(** Inside the frame, every position of a well-shaped table holds a
    value of its row. *)
Lemma shape_bounds df i j :
  df_shape df = true ->
  (i < length (index df))%nat -> (j < length (columns df))%nat ->
  (i < length (values df))%nat /\ (j < length (nth i (values df) []))%nat.
Proof.
  intros Hs Hi Hj. destruct (df_shape_rows df Hs) as [Hl Hr].
  split; [lia|]. rewrite Hr; assumption.
Qed.

Lemma iat_df_scale k df i j :
  df_shape df = true ->
  (i < length (index df))%nat -> (j < length (columns df))%nat ->
  iat (df_scale k df) i j = fmul k (iat df i j).
Proof.
  intros Hs Hi Hj. destruct (shape_bounds df i j Hs Hi Hj).
  unfold df_scale. apply iat_df_map; assumption.
Qed.

Lemma iat_df_sub x y i j :
  df_shape x = true -> df_shape y = true ->
  index y = index x -> columns y = columns x ->
  (i < length (index x))%nat -> (j < length (columns x))%nat ->
  iat (df_sub x y) i j = fsub (iat x i j) (iat y i j).
Proof.
  intros Hx Hy Ei Ec Hi Hj.
  destruct (shape_bounds x i j Hx Hi Hj).
  assert (Hi' : (i < length (index y))%nat) by (rewrite Ei; exact Hi).
  assert (Hj' : (j < length (columns y))%nat) by (rewrite Ec; exact Hj).
  destruct (shape_bounds y i j Hy Hi' Hj').
  unfold df_sub. apply iat_df_map2; assumption.
Qed.

(** The contract formula of the scorer, position by position. *)
Lemma score_formula means u c kappa rho flag i j :
  df_shape means = true ->
  (i < length (index means))%nat -> (j < length (columns means))%nat ->
  iat (compute_risk_adjusted_score means u c kappa rho flag) i j =
  fsub (fsub (iat means i j)
             (fmul kappa (iat (aligned_uncertainty means u) i j)))
       (fmul rho (iat (cost_term means c flag) i j)).
Proof.
  intros Hs Hi Hj. unfold compute_risk_adjusted_score.
  destruct (aligned_uncertainty_labels means u) as [Eui Euc].
  destruct (cost_term_labels means c flag) as [Eci Ecc].
  pose proof (aligned_uncertainty_shape means u) as Hu.
  pose proof (cost_term_shape means c flag) as Hc.
  rewrite iat_df_sub; try assumption.
  - rewrite iat_df_sub; try assumption.
    + rewrite !iat_df_scale; try assumption; try congruence.
    + unfold df_scale. apply df_map_shape, Hu.
  - unfold df_sub, df_map2, df_shape; simpl.
    destruct (df_shape_rows means Hs) as [Hl Hr].
    destruct (df_shape_rows _ Hu) as [Hlu Hru].
    rewrite length_zip_with, length_map, Hl, Hlu, Eui, Nat.min_id.
    rewrite Nat.eqb_refl. simpl.
    apply forallb_forall. intros r Hin.
    destruct (In_nth _ _ [] Hin) as [n [Hn <-]].
    rewrite length_zip_with, length_map, Hl, Hlu, Eui, Nat.min_id in Hn.
    assert (Hnu : (n < length (values (aligned_uncertainty means u)))%nat)
      by (rewrite Hlu, Eui; exact Hn).
    rewrite (nth_zip_with _ _ _ (zip_with fsub) _ _ n [] [] []);
      [| lia | rewrite length_map; exact Hnu].
    rewrite length_zip_with.
    rewrite (nth_map_in _ _ (map (fmul kappa)) _ n [] []) by exact Hnu.
    rewrite length_map, Hr by lia.
    rewrite Hru by (rewrite Eui; lia).
    rewrite Euc, Nat.min_id. apply Nat.eqb_refl.
  - unfold df_scale. apply df_map_shape, Hc.
Qed.

(** After alignment the uncertainty entry is the supplied value when it
    is present and a number, zero otherwise. *)
Lemma aligned_uncertainty_at means u i j :
  (i < length (index means))%nat -> (j < length (columns means))%nat ->
  iat (aligned_uncertainty means u) i j =
  match u with
  | None => Fin 0%Qc
  | Some t =>
      match loc t (nth i (index means) EmptyString)
                  (nth j (columns means) EmptyString) with
      | Some v => if isnan v then Fin 0%Qc else v
      | None => Fin 0%Qc
      end
  end.
Proof.
  intros Hi Hj. destruct u as [t|]; simpl.
  - unfold fillna, reindex.
    rewrite iat_df_map.
    + rewrite built_iat by assumption.
      destruct (loc t _ _) as [v|]; reflexivity.
    + simpl. rewrite length_map. exact Hi.
    + simpl. rewrite built_rows by exact Hi. rewrite length_map. exact Hj.
  - apply (built_iat (fun _ _ => Fin 0%Qc)); assumption.
Qed.

Lemma aligned_uncertainty_notnan means u i j :
  (i < length (index means))%nat -> (j < length (columns means))%nat ->
  isnan (iat (aligned_uncertainty means u) i j) = false.
Proof.
  intros Hi Hj. rewrite aligned_uncertainty_at by assumption.
  destruct u as [t|]; [|reflexivity].
  destruct (loc t _ _) as [v|]; [|reflexivity].
  destruct (isnan v) eqn:E; [reflexivity | exact E].
Qed.

(** An omitted cost table is a table of zeros; without normalization the
    cost term is the reindexed cost itself, a missing entry staying NaN. *)
Lemma cost_term_omitted means flag i j :
  (i < length (index means))%nat -> (j < length (columns means))%nat ->
  iat (cost_term means None flag) i j = Fin 0%Qc.
Proof.
  intros Hi Hj. apply (built_iat (fun _ _ => Fin 0%Qc)); assumption.
Qed.

Lemma cost_term_raw means c i j :
  (i < length (index means))%nat -> (j < length (columns means))%nat ->
  iat (cost_term means (Some c) false) i j =
  loc_or NaN c (nth i (index means) EmptyString)
               (nth j (columns means) EmptyString).
Proof.
  intros Hi Hj. simpl. unfold reindex, loc_or.
  rewrite built_iat by assumption. reflexivity.
Qed.

(** Omission never penalizes: with both tables omitted and finite
    weights, the score is the means table. *)
Lemma score_omitted means (k r : Qc) flag i j :
  df_shape means = true ->
  (i < length (index means))%nat -> (j < length (columns means))%nat ->
  iat (compute_risk_adjusted_score means None None (Fin k) (Fin r) flag) i j
  = iat means i j.
Proof.
  intros Hs Hi Hj. rewrite score_formula by assumption.
  rewrite aligned_uncertainty_at, cost_term_omitted by assumption.
  rewrite !fmul_fin_zero, !fsub_zero_r. reflexivity.
Qed.

(** With zero weights the score is the raw mean wherever the aligned cost
    entry is a number. *)
Lemma score_zero_weights means u c flag i j :
  df_shape means = true ->
  (i < length (index means))%nat -> (j < length (columns means))%nat ->
  isfinite (iat (aligned_uncertainty means u) i j) = true ->
  isfinite (iat (cost_term means c flag) i j) = true ->
  iat (compute_risk_adjusted_score means u c (Fin 0%Qc) (Fin 0%Qc) flag) i j
  = iat means i j.
Proof.
  intros Hs Hi Hj Hu Hc. rewrite score_formula by assumption.
  destruct (iat (aligned_uncertainty means u) i j); try discriminate.
  destruct (iat (cost_term means c flag) i j); try discriminate.
  rewrite !fmul_zero_fin, !fsub_zero_r. reflexivity.
Qed.

(** A missing uncertainty entry contributes zero to the score. *)
Lemma score_missing_uncertainty means u c kappa rho flag i j :
  df_shape means = true ->
  (i < length (index means))%nat -> (j < length (columns means))%nat ->
  loc_or NaN u (nth i (index means) EmptyString)
               (nth j (columns means) EmptyString) = NaN ->
  iat (compute_risk_adjusted_score means (Some u) c (Fin kappa) rho flag) i j
  = fsub (iat means i j) (fmul rho (iat (cost_term means c flag) i j)).
Proof.
  intros Hs Hi Hj Hm. rewrite score_formula by assumption.
  rewrite aligned_uncertainty_at by assumption.
  unfold loc_or in Hm.
  destruct (loc u _ _) as [v|]; [subst v; cbn [isnan]|];
    rewrite fmul_fin_zero, fsub_zero_r; reflexivity.
Qed.

(** ** Cost normalization *)

Lemma fmax_fold_real xs : forall acc,
  forallb isreal xs = true -> isreal acc = true ->
  isreal (fold_left fmax_nan xs acc) = true /\
  (forall a, acc = Fin a ->
     exists m, fold_left fmax_nan xs acc = Fin m /\ (a <= m)%Qc) /\
  (forall v, In (Fin v) xs ->
     exists m, fold_left fmax_nan xs acc = Fin m /\ (v <= m)%Qc) /\
  (fold_left fmax_nan xs acc = acc \/ In (fold_left fmax_nan xs acc) xs).
Proof.
  induction xs as [|x xs IH]; intros acc Hxs Hacc; simpl.
  - repeat split; auto.
    + intros a ->. exists a. split; [reflexivity | apply Qcle_refl].
    + intros v [].
  - simpl in Hxs. apply andb_true_iff in Hxs. destruct Hxs as [Hx Hxs].
    assert (Hstep : isreal (fmax_nan acc x) = true).
    { destruct acc, x; simpl; try discriminate; auto.
      destruct (Qc_leb q q0); reflexivity. }
    destruct (IH (fmax_nan acc x) Hxs Hstep) as [Hr [Ha [Hv Hin]]].
    split; [exact Hr|]. split; [|split].
    + intros a ->.
      destruct x as [| |b|]; try discriminate; simpl in *.
      * apply (Ha a eq_refl).
      * destruct (Qc_leb a b) eqn:E.
        -- destruct (Ha b eq_refl) as [m [Em Hm]]. exists m. split; auto.
           apply Qc_leb_le in E. eapply Qcle_trans; eauto.
        -- apply (Ha a eq_refl).
    + intros v [Hv0 | Hv0].
      * subst x.
        destruct acc as [| |a|]; try discriminate; simpl in *.
        -- apply (Ha v eq_refl).
        -- destruct (Qc_leb a v) eqn:E.
           ++ apply (Ha v eq_refl).
           ++ destruct (Ha a eq_refl) as [m [Em Hm]]. exists m.
              split; auto. apply Qc_leb_nle in E.
              eapply Qcle_trans; [apply Qclt_le_weak, E | exact Hm].
      * apply Hv, Hv0.
    + destruct Hin as [Hin | Hin]; [|right; right; exact Hin].
      rewrite Hin.
      destruct acc as [| |a|], x as [| |b|]; try discriminate; simpl; auto.
      destruct (Qc_leb a b); auto.
Qed.

Lemma nanmax_upper xs m v :
  forallb isreal xs = true -> nanmax xs = Fin m -> In (Fin v) xs ->
  (v <= m)%Qc.
Proof.
  intros Hxs Hm Hin.
  destruct (fmax_fold_real xs NaN Hxs eq_refl) as [_ [_ [Hv _]]].
  destruct (Hv v Hin) as [m' [Em Hle]].
  unfold nanmax in Hm. rewrite Hm in Em. now inversion Em; subst.
Qed.

Lemma nanmax_attained xs m :
  forallb isreal xs = true -> nanmax xs = Fin m -> In (Fin m) xs.
Proof.
  intros Hxs Hm.
  destruct (fmax_fold_real xs NaN Hxs eq_refl) as [_ [_ [_ Hin]]].
  unfold nanmax in Hm. rewrite Hm in Hin.
  destruct Hin as [Hin | Hin]; [discriminate | exact Hin].
Qed.

Lemma nanmax_all_nan xs x :
  forallb isreal xs = true -> nanmax xs = NaN -> In x xs -> x = NaN.
Proof.
  intros Hxs Hm Hin.
  destruct (fmax_fold_real xs NaN Hxs eq_refl) as [_ [_ [Hv _]]].
  assert (Hx : isreal x = true).
  { rewrite forallb_forall in Hxs. apply Hxs, Hin. }
  destruct x as [| |v|]; try discriminate; [reflexivity|].
  destruct (Hv v Hin) as [m [Em _]]. unfold nanmax in Hm. congruence.
Qed.

Lemma iat_in_flat df i j :
  df_shape df = true ->
  (i < length (index df))%nat -> (j < length (columns df))%nat ->
  In (iat df i j) (flat_values df).
Proof.
  intros Hs Hi Hj. destruct (shape_bounds df i j Hs Hi Hj) as [Hi' Hj'].
  unfold flat_values, iat. apply in_concat.
  exists (nth i (values df) []). split; apply nth_In; assumption.
Qed.

Lemma df_all_flat p df :
  df_all p df = true -> forallb p (flat_values df) = true.
Proof.
  unfold df_all, flat_values. intros H.
  rewrite forallb_forall in *. intros x Hx.
  apply in_concat in Hx. destruct Hx as [r [Hr Hx]].
  specialize (H r Hr). rewrite forallb_forall in H. apply H, Hx.
Qed.

Lemma df_size_pos df i j :
  (i < length (index df))%nat -> (j < length (columns df))%nat ->
  Nat.ltb 0 (df_size df) = true.
Proof.
  intros Hi Hj. apply Nat.ltb_lt. unfold df_size.
  apply Nat.mul_pos_pos; lia.
Qed.

Lemma Qcdiv_le_one (v m : Qc) : (0 < m)%Qc -> (v <= m)%Qc -> (v / m <= 1)%Qc.
Proof.
  intros Hm Hv. apply Qcmult_lt_0_le_reg_r with (z := m); [exact Hm|].
  unfold Qcdiv. rewrite <- Qcmult_assoc, Qcmult_inv_l, Qcmult_1_r, Qcmult_1_l.
  - exact Hv.
  - intros E. rewrite E in Hm. revert Hm. apply Qcle_not_lt, Qcle_refl.
Qed.

(** C9 (as the code has it).  [normalize_costs] never raises.  When the
    NaN-ignoring maximum [m] of the table exceeds [eps], every entry is
    divided by [m], so every normalized cost is at most 1.  When [m] is at
    or below [eps], no division takes place: the table is returned as it
    is, with missing entries replaced by zero; every returned entry is then
    at most [eps], and a zero or missing cost comes back as zero.  When
    every entry is missing, the result is all-missing. *)
Theorem normalize_costs_contract (costs : DataFrame) (e : Qc) (i j : nat) :
  df_shape costs = true -> df_all isreal costs = true -> (0 <= e)%Qc ->
  (i < length (index costs))%nat -> (j < length (columns costs))%nat ->
  let x := iat costs i j in
  let y := iat (normalize_costs costs (Fin e)) i j in
  (forall m, nanmax (flat_values costs) = Fin m -> (e < m)%Qc ->
     y = fdiv x (Fin m) /\
     (x = NaN -> y = NaN) /\
     (forall v, x = Fin v -> y = Fin (v / m)%Qc /\ (v / m <= 1)%Qc)) /\
  (forall m, nanmax (flat_values costs) = Fin m -> (m <= e)%Qc ->
     y = (if isnan x then Fin 0%Qc else x) /\
     fle y (Fin e) = true /\
     (x = Fin 0%Qc \/ x = NaN -> y = Fin 0%Qc)) /\
  (nanmax (flat_values costs) = NaN -> y = NaN).
Proof.
  intros Hs Hreal He Hi Hj x y.
  pose proof (df_all_flat _ _ Hreal) as Hflat.
  pose proof (iat_in_flat costs i j Hs Hi Hj) as Hin.
  destruct (shape_bounds costs i j Hs Hi Hj) as [Hi' Hj'].
  assert (Hy : y = iat (if fle (nanmax (flat_values costs)) (Fin e)
                        then fillna (Fin 0%Qc) costs
                        else df_div_scalar costs (nanmax (flat_values costs)))
                       i j).
  { subst y. unfold normalize_costs.
    rewrite (df_size_pos costs i j Hi Hj). reflexivity. }
  split; [|split].
  - intros m Hm Hlt. rewrite Hm in Hy. simpl in Hy.
    assert (E : Qc_leb m e = false) by (apply Qc_leb_nle; exact Hlt).
    rewrite E in Hy. unfold df_div_scalar in Hy.
    rewrite iat_df_map in Hy by assumption. fold x in Hy.
    assert (Hm0 : (0 < m)%Qc) by (eapply Qcle_lt_trans; eauto).
    assert (Hne : Qc_eqb m 0%Qc = false).
    { apply Qc_eqb_neq. intros E0. rewrite E0 in Hm0.
      revert Hm0. apply Qcle_not_lt, Qcle_refl. }
    split; [exact Hy|]. split.
    + intros Hx. rewrite Hy, Hx. reflexivity.
    + intros v Hx. rewrite Hy, Hx. simpl. rewrite Hne. split; [reflexivity|].
      apply Qcdiv_le_one; [exact Hm0|].
      apply (nanmax_upper _ m v Hflat Hm). fold x in Hin. now rewrite <- Hx.
  - intros m Hm Hle. rewrite Hm in Hy. simpl in Hy.
    assert (E : Qc_leb m e = true) by (apply Qc_leb_le; exact Hle).
    rewrite E in Hy. unfold fillna in Hy.
    rewrite iat_df_map in Hy by assumption. fold x in Hy.
    split; [exact Hy|]. split.
    + rewrite Hy.
      assert (Hx : isreal x = true).
      { rewrite forallb_forall in Hflat. apply Hflat, Hin. }
      destruct x as [| |v|] eqn:Ex; try discriminate; simpl.
      * apply Qc_leb_le, He.
      * apply Qc_leb_le. eapply Qcle_trans; [|exact Hle].
        apply (nanmax_upper _ m v Hflat Hm). fold x in Hin.
        rewrite Ex in Hin. exact Hin.
    + intros [Hx | Hx]; rewrite Hy, Hx; reflexivity.
  - intros Hm. rewrite Hm in Hy. simpl in Hy. unfold df_div_scalar in Hy.
    rewrite iat_df_map in Hy by assumption. fold x in Hy.
    rewrite Hy. destruct x; reflexivity.
Qed.

Lemma normalize_costs_contract_witness :
  df_shape cost_2x2 = true /\ df_all isreal cost_2x2 = true /\
  nanmax (flat_values cost_2x2) = fz 10 /\
  iat (normalize_costs cost_2x2 default_eps) 1 0 = Fin (qz 5 / qz 10)%Qc /\
  (qz 5 / qz 10 <= 1)%Qc.
Proof.
  assert (Hm : nanmax (flat_values cost_2x2) = fz 10).
  { apply float_eqb_eq. vm_compute. reflexivity. }
  split; [reflexivity|]. split; [reflexivity|]. split; [exact Hm|].
  refine (proj2 (proj2 (proj1
    (normalize_costs_contract cost_2x2 (qfrac 1 1000000000) 1 0
       eq_refl eq_refl _ _ _) (qz 10) Hm _)) (qz 5) _).
  - apply Qc_leb_le. vm_compute. reflexivity.
  - simpl. lia.
  - simpl. lia.
  - apply Qc_ltb_lt. vm_compute. reflexivity.
  - apply float_eqb_eq. vm_compute. reflexivity.
Defined.

(** C9 as stated fails: the only cost 5e-10 is at or below the default
    epsilon 1e-9, and it is returned unchanged, not as zero. *)
Lemma normalize_costs_small_max_not_zero :
  fle (nanmax (flat_values cost_tiny)) default_eps = true /\
  iat (normalize_costs cost_tiny default_eps) 0 0 = ffrac 1 2000000000 /\
  iat (normalize_costs cost_tiny default_eps) 0 0 <> Fin 0%Qc.
Proof.
  split; [vm_compute; reflexivity|].
  assert (E : iat (normalize_costs cost_tiny default_eps) 0 0
              = ffrac 1 2000000000).
  { apply float_eqb_eq. vm_compute. reflexivity. }
  split; [exact E|]. rewrite E. intros H. inversion H.
Qed.

(** C1 at its failing input.  With kappa = 0 and rho = 0 and a cost table
    whose entry for (A1, B2) is missing, the score of (A1, B2) is NaN while
    the raw mean is 2; the other three cells carry the raw means. *)
Theorem zero_weights_score_with_missing_cost :
  let s := compute_risk_adjusted_score means_2x2 None (Some cost_2x2_gap)
             (Fin 0%Qc) (Fin 0%Qc) true in
  loc means_2x2 "A1"%string "B2"%string = Some (fz 2) /\
  loc s "A1"%string "B2"%string = Some NaN /\
  loc s "A1"%string "B1"%string = loc means_2x2 "A1"%string "B1"%string /\
  loc s "A2"%string "B1"%string = loc means_2x2 "A2"%string "B1"%string /\
  loc s "A2"%string "B2"%string = loc means_2x2 "A2"%string "B2"%string.
Proof.
  assert (E : values_eqb
            (values (compute_risk_adjusted_score means_2x2 None
                       (Some cost_2x2_gap) (Fin 0%Qc) (Fin 0%Qc) true))
            [[fz 1; NaN]; [fz 3; fz 4]] = true)
    by (vm_compute; reflexivity).
  apply values_eqb_eq in E.
  unfold loc, iat. cbn zeta. rewrite E. cbn. repeat split; reflexivity.
Qed.

(** C2 at its failing input.  The cost table knows A1 x {B1} only; after
    reindexing to A1 x {B1, B2} the entry of (A1, B2) is missing, and the
    score there is NaN, with or without normalization, whereas a cost of
    zero at (A1, B2) gives the score 2.  A missing uncertainty entry, in
    contrast, does count as zero. *)
Theorem missing_cost_entry_is_not_zero_contribution :
  (forall flag,
     loc (compute_risk_adjusted_score means_1x2 None (Some cost_1x1)
            (Fin 0%Qc) (Fin 1%Qc) flag) "A1"%string "B2"%string = Some NaN) /\
  (forall flag,
     loc (compute_risk_adjusted_score means_1x2 None
            (Some cost_1x2_zero_filled) (Fin 0%Qc) (Fin 1%Qc) flag)
         "A1"%string "B2"%string = Some (fz 2)) /\
  loc (compute_risk_adjusted_score means_1x2 (Some cost_1x1) None
         (Fin 1%Qc) (Fin 0%Qc) true) "A1"%string "B2"%string = Some (fz 2).
Proof.
  split; [|split].
  - intros flag.
    assert (E : values_eqb
              (values (compute_risk_adjusted_score means_1x2 None
                         (Some cost_1x1) (Fin 0%Qc) (Fin 1%Qc) flag))
              [[if flag then fz 0 else fz (-1); NaN]] = true)
      by (destruct flag; vm_compute; reflexivity).
    apply values_eqb_eq in E. unfold loc, iat. rewrite E. reflexivity.
  - intros flag.
    assert (E : values_eqb
              (values (compute_risk_adjusted_score means_1x2 None
                         (Some cost_1x2_zero_filled) (Fin 0%Qc) (Fin 1%Qc)
                         flag))
              [[if flag then fz 0 else fz (-1); fz 2]] = true)
      by (destruct flag; vm_compute; reflexivity).
    apply values_eqb_eq in E. unfold loc, iat. rewrite E. reflexivity.
  - assert (E : values_eqb
              (values (compute_risk_adjusted_score means_1x2
                         (Some cost_1x1) None (Fin 1%Qc) (Fin 0%Qc) true))
              [[fz (-1); fz 2]] = true)
      by (vm_compute; reflexivity).
    apply values_eqb_eq in E. unfold loc, iat. rewrite E. reflexivity.
Qed.

(** ** Python's stable sort *)

Section PySortedFacts.
Variable A : Type.
Variable lt : A -> A -> bool.

(** The keys of the elements in [ok] form a strict weak order under
    [lt]. *)
Variable ok : A -> Prop.
Hypothesis lt_asym :
  forall x y, ok x -> ok y -> lt x y = true -> lt y x = false.
Hypothesis nlt_trans :
  forall x y z, ok x -> ok y -> ok z ->
    lt y x = false -> lt z y = false -> lt z x = false.

Lemma insert_sorted_perm x l :
  Permutation (insert_sorted lt x l) (x :: l).
Proof.
  induction l as [|y r IH]; simpl.
  - apply Permutation_refl.
  - destruct (lt y x).
    + eapply Permutation_trans; [apply perm_skip, IH | apply perm_swap].
    + apply Permutation_refl.
Qed.

Lemma py_sorted_perm l : Permutation (py_sorted lt l) l.
Proof.
  induction l as [|x r IH]; simpl.
  - apply perm_nil.
  - eapply Permutation_trans; [apply insert_sorted_perm|].
    apply perm_skip, IH.
Qed.

Lemma py_sorted_length l : length (py_sorted lt l) = length l.
Proof. apply Permutation_length, py_sorted_perm. Qed.

Lemma insert_sorted_Forall (P : A -> Prop) x l :
  P x -> Forall P l -> Forall P (insert_sorted lt x l).
Proof.
  intros Hx Hl.
  eapply Permutation_Forall.
  - apply Permutation_sym, insert_sorted_perm.
  - constructor; assumption.
Qed.

Lemma py_sorted_Forall (P : A -> Prop) l :
  Forall P l -> Forall P (py_sorted lt l).
Proof.
  intros H. eapply Permutation_Forall; [|exact H].
  apply Permutation_sym, py_sorted_perm.
Qed.

Lemma insert_sorted_sorted x l :
  ok x -> Forall ok l ->
  StronglySorted (not_after lt) l ->
  StronglySorted (not_after lt) (insert_sorted lt x l).
Proof.
  intros Hx Hok Hs. induction Hs as [|y r Hr IH Hy]; simpl.
  - constructor; constructor.
  - inversion Hok as [|? ? Hoky Hokr]; subst.
    destruct (lt y x) eqn:E.
    + constructor; [apply IH, Hokr|].
      apply insert_sorted_Forall; [|exact Hy].
      unfold not_after. apply lt_asym; assumption.
    + constructor; [constructor; assumption|].
      constructor; [exact E|].
      rewrite Forall_forall in *. intros z Hz.
      unfold not_after in *.
      apply (nlt_trans x y z); auto.
Qed.

Lemma py_sorted_sorted l :
  Forall ok l -> StronglySorted (not_after lt) (py_sorted lt l).
Proof.
  induction l as [|x r IH]; intros Hok; simpl.
  - constructor.
  - inversion Hok; subst.
    apply insert_sorted_sorted; auto.
    apply py_sorted_Forall; assumption.
Qed.
End PySortedFacts.




(** ** Order facts on canonical rationals, by way of [Q] *)

Lemma Qc_eqb_true_Q (a b : Qc) : Qc_eqb a b = true -> (a == b)%Q.
Proof. apply Qeq_bool_iff. Qed.

Lemma Qc_eqb_false_Q (a b : Qc) : Qc_eqb a b = false -> ~ (a == b)%Q.
Proof. intros H E. apply Qeq_bool_iff in E. unfold Qc_eqb in H. congruence. Qed.

Lemma Qc_ltb_true_Q (a b : Qc) : Qc_ltb a b = true -> (a < b)%Q.
Proof. apply Qc_ltb_lt. Qed.

Lemma Qc_ltb_false_Q (a b : Qc) : Qc_ltb a b = false -> (b <= a)%Q.
Proof. apply Qc_ltb_nlt. Qed.

Lemma Qc_leb_true_Q (a b : Qc) : Qc_leb a b = true -> (a <= b)%Q.
Proof. apply Qc_leb_le. Qed.

Lemma Qc_leb_false_Q (a b : Qc) : Qc_leb a b = false -> (b < a)%Q.
Proof. apply Qc_leb_nle. Qed.

Lemma Q_Qc_eqb_true (a b : Qc) : (a == b)%Q -> Qc_eqb a b = true.
Proof. apply Qeq_bool_iff. Qed.

Lemma Q_Qc_ltb_true (a b : Qc) : (a < b)%Q -> Qc_ltb a b = true.
Proof. apply Qc_ltb_lt. Qed.

Lemma Q_Qc_ltb_false (a b : Qc) : (b <= a)%Q -> Qc_ltb a b = false.
Proof. apply Qc_ltb_nlt. Qed.

Lemma Q_Qc_leb_true (a b : Qc) : (a <= b)%Q -> Qc_leb a b = true.
Proof. apply Qc_leb_le. Qed.

Lemma Q_Qc_leb_false (a b : Qc) : (b < a)%Q -> Qc_leb a b = false.
Proof. apply Qc_leb_nle. Qed.

Lemma Q_Qc_eqb_false (a b : Qc) : ~ (a == b)%Q -> Qc_eqb a b = false.
Proof.
  intros H. destruct (Qc_eqb a b) eqn:E; [|reflexivity].
  apply Qc_eqb_true_Q in E. contradiction.
Qed.

(** Turn every boolean comparison of the context into a fact on [Q], and a
    boolean goal into its [Q] reading; [lra] finishes. *)
Ltac qc_hyps :=
  repeat match goal with
  | H : Qc_eqb _ _ = true |- _ => apply Qc_eqb_true_Q in H
  | H : Qc_eqb _ _ = false |- _ => apply Qc_eqb_false_Q in H
  | H : Qc_ltb _ _ = true |- _ => apply Qc_ltb_true_Q in H
  | H : Qc_ltb _ _ = false |- _ => apply Qc_ltb_false_Q in H
  | H : Qc_leb _ _ = true |- _ => apply Qc_leb_true_Q in H
  | H : Qc_leb _ _ = false |- _ => apply Qc_leb_false_Q in H
  end.

Ltac qc_goal :=
  match goal with
  | |- Qc_eqb _ _ = true => apply Q_Qc_eqb_true
  | |- Qc_eqb _ _ = false => apply Q_Qc_eqb_false
  | |- Qc_ltb _ _ = true => apply Q_Qc_ltb_true
  | |- Qc_ltb _ _ = false => apply Q_Qc_ltb_false
  | |- Qc_leb _ _ = true => apply Q_Qc_leb_true
  | |- Qc_leb _ _ = false => apply Q_Qc_leb_false
  | |- _ => idtac
  end.

Ltac qc_order := qc_hyps; qc_goal; try lra; try discriminate.




(** ** Greedy selection *)






Lemma get_loc_bound ls a i : get_loc ls a = Some i -> (i < length ls)%nat.
Proof.
  revert i. induction ls as [|x r IH]; simpl; intros i H; [discriminate|].
  destruct (String.eqb x a).
  - inversion H; subst. lia.
  - destruct (get_loc r a) as [k|]; simpl in H; [|discriminate].
    inversion H; subst. specialize (IH k eq_refl). lia.
Qed.

Lemma get_loc_nth ls a i : get_loc ls a = Some i -> nth i ls EmptyString = a.
Proof.
  revert i. induction ls as [|x r IH]; simpl; intros i H; [discriminate|].
  destruct (String.eqb x a) eqn:E.
  - inversion H; subst. apply String.eqb_eq, E.
  - destruct (get_loc r a) as [k|]; simpl in H; [|discriminate].
    inversion H; subst. apply IH. reflexivity.
Qed.

Lemma iat_all p df i j :
  df_all p df = true -> p NaN = true -> p (iat df i j) = true.
Proof.
  intros Hall Hnan. unfold iat, df_all in *.
  rewrite forallb_forall in Hall.
  destruct (nth_in_or_default i (values df) []) as [Hin | ->].
  - specialize (Hall _ Hin). rewrite forallb_forall in Hall.
    destruct (nth_in_or_default j (nth i (values df) []) NaN) as [Hj | ->].
    + apply Hall, Hj.
    + exact Hnan.
  - destruct j; exact Hnan.
Qed.

Lemma loc_all p df a b v :
  df_shape df = true -> df_all p df = true ->
  loc df a b = Some v -> p v = true.
Proof.
  intros Hs Hall. unfold loc.
  destruct (get_loc (index df) a) as [i|] eqn:Ei; [|discriminate].
  destruct (get_loc (columns df) b) as [j|] eqn:Ej; [|discriminate].
  intros H. inversion H; subst.
  apply get_loc_bound in Ei. apply get_loc_bound in Ej.
  pose proof (iat_in_flat df i j Hs Ei Ej) as Hin.
  pose proof (df_all_flat _ _ Hall) as Hf.
  rewrite forallb_forall in Hf. apply Hf, Hin.
Qed.

Lemma df_const_all p v idx cols :
  p v = true -> df_all p (df_const v idx cols) = true.
Proof.
  intros Hv. unfold df_all, df_const; simpl.
  apply forallb_forall. intros r Hr. apply in_map_iff in Hr.
  destruct Hr as [a [<- _]].
  apply forallb_forall. intros x Hx. apply in_map_iff in Hx.
  destruct Hx as [b [<- _]]. exact Hv.
Qed.

Lemma df_wf_shape df : df_wf df = true -> df_shape df = true.
Proof.
  unfold df_wf. rewrite !andb_true_iff. tauto.
Qed.

Lemma cost_ok_finite cost a b (d : Qc) idx cols :
  cost_ok cost = true ->
  isfinite (loc_or (Fin d)
              (match cost with
               | None => df_const (Fin 1%Qc) idx cols
               | Some c => c
               end) a b) = true.
Proof.
  intros Hc. unfold loc_or.
  destruct (loc _ a b) as [v|] eqn:E; [|reflexivity].
  destruct cost as [c|]; simpl in Hc.
  - apply andb_true_iff in Hc. destruct Hc as [Hwf Hfin].
    apply (loc_all isfinite c a b v (df_wf_shape _ Hwf) Hfin E).
  - apply (loc_all isfinite _ a b v
             (built_shape (fun _ _ => Fin 1%Qc) idx cols)
             (df_const_all isfinite (Fin 1%Qc) idx cols eq_refl) E).
Qed.

Lemma greedy_flat_ok score cost :
  df_all isreal score = true -> cost_ok cost = true ->
  Forall cand_ok (greedy_flat score cost).
Proof.
  intros Hs Hc. unfold greedy_flat.
  apply Forall_forall. intros e He. apply in_map_iff in He.
  destruct He as [[a b] [<- _]]. split; simpl.
  - unfold loc_or, loc.
    destruct (get_loc (index score) a); [|reflexivity].
    destruct (get_loc (columns score) b); [|reflexivity].
    apply iat_all; [exact Hs | reflexivity].
  - apply cost_ok_finite, Hc.
Qed.



(** ** Exhaustive search *)

Lemma combinations_subseq (A : Type) (l : list A) : forall k c,
  In c (combinations l k) <-> subseq c l /\ length c = k.
Proof.
  induction l as [|x r IH]; intros k c.
  - destruct k; simpl.
    + split.
      * intros [<- | []]. split; [constructor | reflexivity].
      * intros [H _]. inversion H. now left.
    + split; [intros [] |].
      intros [H Hl]. inversion H; subst. discriminate.
  - destruct k; simpl.
    + split.
      * intros [<- | []]. split; [|reflexivity].
        clear IH. induction (x :: r); constructor; assumption.
      * intros [_ Hl]. destruct c; [now left | discriminate].
    + rewrite in_app_iff, in_map_iff. split.
      * intros [[c' [<- Hc']] | Hc].
        -- apply IH in Hc'. destruct Hc' as [Hs Hl].
           split; [constructor; exact Hs | simpl; now rewrite Hl].
        -- apply IH in Hc. destruct Hc as [Hs Hl].
           split; [constructor; exact Hs | exact Hl].
      * intros [Hs Hl]. inversion Hs; subst.
        -- left. exists s. split; [reflexivity|].
           apply IH. split; [assumption|]. simpl in Hl. lia.
        -- right. apply IH. split; assumption.
Qed.



Lemma py_sum_fin_from xs : forall a,
  Forall (fun x => isfinite x = true) xs ->
  exists q, fold_left fadd xs (Fin a) = Fin q.
Proof.
  induction xs as [|x xs IH]; intros a H; simpl.
  - now exists a.
  - inversion H as [|? ? Hx Hxs]; subst.
    destruct x; try discriminate. simpl. apply IH, Hxs.
Qed.

Lemma comb_score_fin comb :
  Forall (fun e => isfinite (cand_val e) = true) comb ->
  exists q, comb_score comb = Fin q.
Proof.
  intros H. unfold comb_score, py_sum. apply py_sum_fin_from.
  apply Forall_forall. intros x Hx. apply in_map_iff in Hx.
  destruct Hx as [e [<- He]]. rewrite Forall_forall in H. apply H, He.
Qed.

Lemma subseq_Forall (A : Type) (P : A -> Prop) (s l : list A) :
  subseq s l -> Forall P l -> Forall P s.
Proof.
  induction 1 as [|x s l Hs IH|x s l Hs IH]; intros HP; auto.
  - inversion HP; subst. constructor; auto.
  - inversion HP; subst. auto.
Qed.

(** The enumeration loop keeps the first combination of maximal score
    among those within budget, or leaves the state untouched when no
    combination within budget beats it. *)
Lemma exhaustive_fold_spec budget combos : forall bs sel,
  (bs = NInf \/ exists q, bs = Fin q) ->
  Forall (fun c => exists q, comb_score c = Fin q) combos ->
  (fold_left (exhaustive_step budget) combos (bs, sel) = (bs, sel) /\
   forall c, In c combos -> within_budget budget c = true ->
             fgt (comb_score c) bs = false) \/
  (exists pre best post,
     combos = pre ++ best :: post /\
     within_budget budget best = true /\
     fgt (comb_score best) bs = true /\
     (forall c, In c pre -> within_budget budget c = true ->
                flt (comb_score c) (comb_score best) = true) /\
     (forall c, In c post -> within_budget budget c = true ->
                fle (comb_score c) (comb_score best) = true) /\
     fold_left (exhaustive_step budget) combos (bs, sel)
     = (comb_score best, map cand_cell best)).
Proof.
  induction combos as [|c rest IH]; intros bs sel Hbs Hfin.
  - left. split; [reflexivity | intros c []].
  - inversion Hfin as [|? ? Hc0 Hrest]; subst. destruct Hc0 as [qc Hc].
    assert (Hstep : exhaustive_step budget (bs, sel) c =
                    if within_budget budget c && fgt (comb_score c) bs
                    then (comb_score c, map cand_cell c) else (bs, sel))
      by reflexivity.
    cbn [fold_left]. rewrite Hstep.
    destruct (within_budget budget c && fgt (comb_score c) bs) eqn:E.
    + apply andb_true_iff in E. destruct E as [Ew Eg].
      destruct (IH (comb_score c) (map cand_cell c)
                   (or_intror (ex_intro _ qc Hc)) Hrest)
        as [[Hst Hno] | [pre [best [post [Hsplit [Hw [Hg [Hpre [Hpost Hst]]]]]]]]].
      * right. exists [], c, rest.
        split; [reflexivity|]. split; [exact Ew|]. split; [exact Eg|].
        split; [intros x []|]. split; [|exact Hst].
        intros x Hx Hwx. specialize (Hno x Hx Hwx).
        rewrite Forall_forall in Hrest.
        destruct (Hrest x Hx) as [qx Hqx].
        rewrite Hqx, Hc in *. unfold fgt in Hno. simpl in *. qc_order.
      * right. exists (c :: pre), best, post.
        assert (Hbest : exists qb, comb_score best = Fin qb).
        { rewrite Forall_forall in Hrest. apply Hrest.
          rewrite Hsplit. apply in_elt. }
        destruct Hbest as [qb Hqb].
        split; [simpl; now rewrite Hsplit|]. split; [exact Hw|].
        split; [|split; [|split; [exact Hpost | exact Hst]]].
        -- rewrite Hqb, Hc in *. unfold fgt in *.
           destruct Hbs as [-> | [q ->]]; simpl in *; [reflexivity|].
           qc_order.
        -- intros x [<- | Hx] Hwx.
           ++ rewrite Hqb, Hc in *. unfold fgt in Hg. exact Hg.
           ++ apply Hpre; assumption.
    + destruct (IH bs sel Hbs Hrest)
        as [[Hst Hno] | [pre [best [post [Hsplit [Hw [Hg [Hpre [Hpost Hst]]]]]]]]].
      * left. split; [exact Hst|].
        intros x [<- | Hx] Hwx; [|apply Hno; assumption].
        rewrite Hwx in E. simpl in E. exact E.
      * right. exists (c :: pre), best, post.
        split; [simpl; now rewrite Hsplit|]. split; [exact Hw|].
        split; [exact Hg|]. split; [|split; [exact Hpost | exact Hst]].
        intros x [<- | Hx] Hwx; [|apply Hpre; assumption].
        rewrite Hwx in E. simpl in E.
        assert (Hbest : exists qb, comb_score best = Fin qb).
        { rewrite Forall_forall in Hrest. apply Hrest.
          rewrite Hsplit. apply in_elt. }
        destruct Hbest as [qb Hqb]. rewrite Hqb, Hc in *.
        unfold fgt in *.
        destruct Hbs as [-> | [q ->]]; simpl in *; [discriminate|].
        qc_order.
Qed.

Lemma loc_or_const v idx cols a b : loc_or v (df_const v idx cols) a b = v.
Proof.
  unfold loc_or, loc; simpl.
  destruct (get_loc idx a) as [i|] eqn:Ei; [|reflexivity].
  destruct (get_loc cols b) as [j|] eqn:Ej; [|reflexivity].
  apply (built_iat (fun _ _ => v) idx cols i j);
    eapply get_loc_bound; eassumption.
Qed.

Lemma cells_of_in df a b :
  In (a, b) (cells_of df) -> In a (index df) /\ In b (columns df).
Proof.
  unfold cells_of. rewrite in_flat_map. intros [a' [Ha Hb]].
  apply in_map_iff in Hb. destruct Hb as [b' [E Hb]].
  inversion E; subst. split; assumption.
Qed.

Lemma cost_aligned_loc score c a b :
  cost_aligned score (Some c) = true ->
  In a (index score) -> In b (columns score) ->
  exists v, loc c a b = Some v.
Proof.
  simpl. rewrite andb_true_iff, !forallb_forall. intros [Hi Hc] Ha Hb.
  specialize (Hi a Ha). specialize (Hc b Hb).
  unfold has_label in *. unfold loc.
  destruct (get_loc (index c) a); [|discriminate].
  destruct (get_loc (columns c) b); [|discriminate].
  eexists. reflexivity.
Qed.

(** With an aligned cost table the candidate list of the exhaustive and
    beam selectors is the list of scored cells the greedy selector
    flattens: no lookup raises. *)
Lemma candidates_from_scored score cost cs :
  cost_aligned score cost = true ->
  (forall a b, In (a, b) cs -> In a (index score) /\ In b (columns score)) ->
  candidates_from score cost cs =
  Some (filter scored
          (map (fun ab =>
                  mkCand ab (loc_or NaN score (fst ab) (snd ab))
                    (loc_or (Fin 1%Qc)
                       (match cost with
                        | None => df_const (Fin 1%Qc) (index score)
                                    (columns score)
                        | Some c => c
                        end) (fst ab) (snd ab))) cs)).
Proof.
  intros Hal. induction cs as [|[a b] r IH]; intros Hin; [reflexivity|].
  assert (Hr : forall a b, In (a, b) r ->
                 In a (index score) /\ In b (columns score)).
  { intros a' b' H. apply Hin. now right. }
  specialize (IH Hr). cbn [candidates_from map filter fst snd].
  unfold scored at 1. cbn [cand_val]. unfold notnan.
  destruct (isnan (loc_or NaN score a b)) eqn:En; cbn [negb].
  - exact IH.
  - rewrite IH. destruct cost as [c|].
    + destruct (Hin a b (or_introl eq_refl)) as [Ha Hb].
      destruct (cost_aligned_loc score c a b Hal Ha Hb) as [v Ev].
      assert (El : loc_or (Fin 1%Qc) c a b = v)
        by (unfold loc_or; rewrite Ev; reflexivity).
      rewrite Ev, El. reflexivity.
    + rewrite loc_or_const. reflexivity.
Qed.

Lemma candidates_scored score cost :
  cost_aligned score cost = true ->
  candidates score cost = Some (filter scored (greedy_flat score cost)).
Proof.
  intros Hal. unfold candidates, greedy_flat.
  apply candidates_from_scored; [exact Hal|].
  intros a b. apply cells_of_in.
Qed.

Lemma scored_vals_finite score cost :
  df_all isreal score = true ->
  Forall (fun e => isfinite (cand_val e) = true)
         (filter scored (greedy_flat score cost)).
Proof.
  intros Hs. apply Forall_forall. intros e He. apply filter_In in He.
  destruct He as [He Hsc]. unfold greedy_flat in He.
  apply in_map_iff in He. destruct He as [[a b] [<- _]].
  unfold scored, notnan in Hsc. cbn [cand_val fst snd] in *.
  assert (Hr : isreal (loc_or NaN score a b) = true).
  { unfold loc_or, loc.
    destruct (get_loc (index score) a); [|reflexivity].
    destruct (get_loc (columns score) b); [|reflexivity].
    apply iat_all; [exact Hs | reflexivity]. }
  destruct (loc_or NaN score a b); try discriminate; reflexivity.
Qed.

Lemma scored_flat_finite score cost :
  df_all isreal score = true -> cost_ok cost = true ->
  Forall (fun e => isfinite (cand_val e) = true /\
                   isfinite (cand_cost e) = true)
         (filter scored (greedy_flat score cost)).
Proof.
  intros Hs Hc. pose proof (greedy_flat_ok score cost Hs Hc) as Hok.
  apply Forall_forall. intros e He. apply filter_In in He.
  destruct He as [He Hsc]. rewrite Forall_forall in Hok.
  destruct (Hok e He) as [Hv Hcst]. split; [|exact Hcst].
  unfold scored, notnan in Hsc.
  destruct (cand_val e); try discriminate; reflexivity.
Qed.



(** ** Beam search *)

Lemma beam_try_spec budget be nb best cd :
  isnan budget = false -> bentry_fin be -> cand_fin cd ->
  beam_try budget be (nb, best) cd =
  if admissible budget be cd
  then (nb ++ [extend be cd], better best (extend be cd))
  else (nb, best).
Proof.
  intros Hb [_ Hc] [_ Hcc]. unfold beam_try, admissible.
  destruct (cell_in (cand_cell cd) (b_sel be)); [reflexivity|].
  cbn [negb andb].
  assert (E : fgt (fadd (b_cost be) (cand_cost cd)) budget =
              negb (fle (fadd (b_cost be) (cand_cost cd)) budget)).
  { destruct (b_cost be); try discriminate.
    destruct (cand_cost cd); try discriminate.
    destruct budget; try discriminate; reflexivity. }
  rewrite E.
  destruct (fle (fadd (b_cost be) (cand_cost cd)) budget); reflexivity.
Qed.

Lemma beam_expand_spec budget be cands : forall nb best,
  isnan budget = false -> bentry_fin be -> Forall cand_fin cands ->
  beam_expand budget cands (nb, best) be =
  (nb ++ expansions budget cands be,
   fold_left better (expansions budget cands be) best).
Proof.
  unfold beam_expand, expansions.
  induction cands as [|cd r IH]; intros nb best Hb Hbe Hc.
  - simpl. now rewrite app_nil_r.
  - inversion Hc as [|? ? Hcd Hr]; subst.
    cbn [fold_left filter]. rewrite beam_try_spec by assumption.
    destruct (admissible budget be cd); cbn [map fold_left].
    + rewrite IH by assumption. now rewrite <- app_assoc.
    + apply IH; assumption.
Qed.

Lemma beam_sweep_spec budget cands beam : forall nb best,
  isnan budget = false -> Forall bentry_fin beam -> Forall cand_fin cands ->
  fold_left (beam_expand budget cands) beam (nb, best) =
  (nb ++ next_generation budget cands beam,
   fold_left better (next_generation budget cands beam) best).
Proof.
  unfold next_generation.
  induction beam as [|be r IH]; intros nb best Hb Hbeam Hc.
  - simpl. now rewrite app_nil_r.
  - inversion Hbeam as [|? ? Hbe Hr]; subst.
    cbn [fold_left flat_map].
    rewrite beam_expand_spec by assumption.
    rewrite IH by assumption.
    now rewrite <- app_assoc, fold_left_app.
Qed.

Lemma extend_fin be cd : bentry_fin be -> cand_fin cd -> bentry_fin (extend be cd).
Proof.
  intros [Hs Hc] [Hv Hcc]. unfold bentry_fin, extend; simpl.
  destruct (b_score be), (b_cost be), (cand_val cd), (cand_cost cd);
    try discriminate; split; reflexivity.
Qed.

Lemma next_generation_in budget cands beam e :
  In e (next_generation budget cands beam) <->
  exists be cd,
    In be beam /\ In cd cands /\
    cell_in (cand_cell cd) (b_sel be) = false /\
    fle (fadd (b_cost be) (cand_cost cd)) budget = true /\
    e = extend be cd.
Proof.
  unfold next_generation, expansions. rewrite in_flat_map. split.
  - intros [be [Hbe He]]. apply in_map_iff in He.
    destruct He as [cd [<- Hcd]]. apply filter_In in Hcd.
    destruct Hcd as [Hcd Had]. unfold admissible in Had.
    apply andb_true_iff in Had. destruct Had as [Hn Hf].
    apply negb_true_iff in Hn. exists be, cd. auto.
  - intros [be [cd [Hbe [Hcd [Hn [Hf ->]]]]]]. exists be. split; [exact Hbe|].
    apply in_map. apply filter_In. split; [exact Hcd|].
    unfold admissible. now rewrite Hn, Hf.
Qed.

Lemma next_generation_fin budget cands beam :
  Forall bentry_fin beam -> Forall cand_fin cands ->
  Forall bentry_fin (next_generation budget cands beam).
Proof.
  intros Hb Hc. apply Forall_forall. intros e He.
  apply next_generation_in in He.
  destruct He as [be [cd [Hbe [Hcd [_ [_ ->]]]]]].
  rewrite Forall_forall in Hb, Hc. apply extend_fin; auto.
Qed.

Lemma Forall_firstn (A : Type) (P : A -> Prop) n (l : list A) :
  Forall P l -> Forall P (firstn n l).
Proof.
  revert n. induction l as [|x l IH]; intros [|n] H; simpl; auto.
  inversion H; subst. constructor; auto.
Qed.

Lemma top_by_score_fin w gen :
  Forall bentry_fin gen -> Forall bentry_fin (top_by_score w gen).
Proof.
  intros H. apply Forall_firstn, py_sorted_Forall, H.
Qed.

Lemma generations_nil budget w cands n :
  concat (generations budget w cands n []) = [].
Proof.
  induction n as [|n IH]; simpl; [reflexivity|].
  unfold top_by_score. simpl py_sorted. rewrite firstn_nil. exact IH.
Qed.

(** The outer loop returns the best of everything it has seen. *)
Lemma beam_loop_spec budget w cands iters : forall beam best,
  isnan budget = false -> Forall bentry_fin beam -> Forall cand_fin cands ->
  beam_loop budget w cands iters beam best =
  fold_left better (concat (generations budget w cands iters beam)) best.
Proof.
  induction iters as [|n IH]; intros beam best Hb Hbeam Hc; simpl.
  - reflexivity.
  - rewrite (beam_sweep_spec budget cands beam [] best Hb Hbeam Hc).
    simpl app. rewrite fold_left_app.
    destruct (next_generation budget cands beam) as [|e g] eqn:Eg.
    + unfold top_by_score. simpl py_sorted.
      rewrite firstn_nil, generations_nil. reflexivity.
    + rewrite IH; try assumption; [reflexivity|].
      apply top_by_score_fin. rewrite <- Eg.
      apply next_generation_fin; assumption.
Qed.

Lemma fold_better_spec l : forall best0,
  isfinite (b_score best0) = true -> Forall bentry_fin l ->
  (fold_left better l best0 = best0 /\
   forall e, In e l -> fle (b_score e) (b_score best0) = true) \/
  (In (fold_left better l best0) l /\
   flt (b_score best0) (b_score (fold_left better l best0)) = true /\
   forall e, In e l ->
     fle (b_score e) (b_score (fold_left better l best0)) = true).
Proof.
  induction l as [|x l IH]; intros best0 H0 Hl.
  - left. split; [reflexivity | intros e []].
  - inversion Hl as [|? ? Hx0 Hl']; subst. destruct Hx0 as [Hx _].
    cbn [fold_left].
    assert (Hstep : better best0 x =
                    if flt (b_score best0) (b_score x) then x else best0)
      by reflexivity.
    rewrite Hstep. clear Hstep.
    destruct (flt (b_score best0) (b_score x)) eqn:E.
    + right. destruct (IH x Hx Hl') as [[Hst Hno] | [Hin [Hlt Hall]]].
      * rewrite Hst. split; [now left|]. split; [exact E|].
        intros e [<- | He]; [|apply Hno, He].
        destruct (b_score x); try discriminate. simpl. qc_order.
      * split; [now right|].
        destruct (b_score best0) as [| |s0|]; try discriminate.
        destruct (b_score x) as [| |sx|] eqn:Ex; try discriminate.
        destruct (b_score (fold_left better l x)) as [| |sr|];
          simpl in *; try discriminate.
        -- split; [qc_order|].
           intros e He. destruct He as [He | He]; [|apply Hall, He].
           subst e. rewrite Ex. simpl. qc_order.
        -- split; [reflexivity|].
           intros e He. destruct He as [He | He]; [|apply Hall, He].
           subst e. rewrite Ex. reflexivity.
    + destruct (IH best0 H0 Hl') as [[Hst Hno] | [Hin [Hlt Hall]]].
      * left. split; [exact Hst|].
        intros e [<- | He]; [|apply Hno, He].
        destruct (b_score best0) as [| |s0|]; try discriminate.
        destruct (b_score x) as [| |sx|]; try discriminate.
        simpl in *. qc_order.
      * right. split; [now right|]. split; [exact Hlt|].
        intros e [<- | He]; [|apply Hall, He].
        destruct (b_score best0) as [| |s0|]; try discriminate.
        destruct (b_score x) as [| |sx|]; try discriminate.
        destruct (b_score (fold_left better l best0)) as [| |sr|];
          simpl in *; try discriminate; try reflexivity.
        qc_order.
Qed.







Lemma generations_fin budget w cands iters : forall beam,
  Forall bentry_fin beam -> Forall cand_fin cands ->
  Forall bentry_fin (concat (generations budget w cands iters beam)).
Proof.
  induction iters as [|n IH]; intros beam Hb Hc; simpl.
  - constructor.
  - pose proof (next_generation_fin budget cands beam Hb Hc) as Hg.
    apply Forall_app. split; [exact Hg|].
    apply IH; [|exact Hc]. apply top_by_score_fin, Hg.
Qed.

Lemma has_label_in ls a : In a ls -> has_label ls a = true.
Proof.
  unfold has_label. induction ls as [|x r IH]; simpl; [intros []|].
  intros [-> | H].
  - now rewrite String.eqb_refl.
  - destruct (String.eqb x a); [reflexivity|].
    specialize (IH H). destruct (get_loc r a); [reflexivity | discriminate].
Qed.

Lemma beam_cost_aligned score cost :
  cost_aligned score cost = true ->
  cost_aligned score (Some (beam_cost score cost)) = true.
Proof.
  destruct cost as [c|]; simpl; [auto|]. intros _.
  apply andb_true_iff. split; apply forallb_forall; intros a Ha;
    apply has_label_in, Ha.
Qed.

Lemma beam_cost_flat score cost :
  greedy_flat score (Some (beam_cost score cost)) = greedy_flat score cost.
Proof. destruct cost; reflexivity. Qed.

Lemma beam_candidates_fin score cost :
  df_all isreal score = true -> cost_ok cost = true ->
  Forall cand_fin
    (py_sorted beam_key_lt (filter scored (greedy_flat score cost))).
Proof.
  intros Hs Hc. apply py_sorted_Forall.
  apply (scored_flat_finite score cost Hs Hc).
Qed.

(** The whole of beam search: the best over everything seen, or the
    greedy result when that best is not positive. *)
Lemma beam_search_run score cost budget beam_width max_iters :
  df_all isreal score = true -> cost_ok cost = true ->
  cost_aligned score cost = true -> isnan budget = false ->
  let cands :=
    py_sorted beam_key_lt (filter scored (greedy_flat score cost)) in
  let iters := match max_iters with
               | None => length cands
               | Some n => n
               end in
  beam_search_pair_selection score cost budget beam_width max_iters =
  let best := fold_left better
                (concat (generations budget beam_width cands iters
                           [beam_start])) beam_start in
  if fle (b_score best) (Fin 0%Qc)
  then Some (greedy_select_under_budget score cost budget)
  else Some (b_sel best, b_score best).
Proof.
  intros Hreal Hcost Hal Hb cands iters.
  pose proof (beam_candidates_fin score cost Hreal Hcost) as Hc.
  fold cands in Hc.
  assert (Hstart : Forall bentry_fin [beam_start]).
  { constructor; [split; reflexivity | constructor]. }
  unfold beam_search_pair_selection. fold (beam_cost score cost).
  rewrite (candidates_scored score _ (beam_cost_aligned score cost Hal)).
  rewrite beam_cost_flat. fold cands. fold iters. fold beam_start.
  rewrite (beam_loop_spec budget beam_width cands iters [beam_start]
             beam_start Hb Hstart Hc).
  cbn zeta.
  replace (greedy_select_under_budget score
             (Some (beam_cost score cost)) budget)
    with (greedy_select_under_budget score cost budget)
    by (unfold greedy_select_under_budget;
        now rewrite beam_cost_flat).
  reflexivity.
Qed.



(** ** What the selectors return next to the selection *)

Lemma py_sum_snoc xs x : py_sum (xs ++ [x]) = fadd (py_sum xs) x.
Proof. unfold py_sum. now rewrite fold_left_app. Qed.

Lemma greedy_flat_entries score cost e :
  In e (greedy_flat score cost) ->
  cand_val e = cell_score score (cand_cell e) /\
  cand_cost e = cell_cost score cost (cand_cell e).
Proof.
  unfold greedy_flat. intros H. apply in_map_iff in H.
  destruct H as [ab [<- _]]. split; reflexivity.
Qed.

Lemma greedy_fold_cost budget (costf : cell -> float) l : forall st,
  (forall e, In e l -> cand_cost e = costf (cand_cell e)) ->
  snd st = py_sum (map costf (fst st)) ->
  snd (fold_left (greedy_step budget) l st) =
  py_sum (map costf (fst (fold_left (greedy_step budget) l st))).
Proof.
  induction l as [|e l IH]; intros [selected total] Hc Hst.
  - exact Hst.
  - cbn [fold_left]. apply IH; [intros x Hx; apply Hc; now right|].
    unfold greedy_step.
    destruct (isnan (cand_val e)); [exact Hst|].
    destruct (fle (fadd total (cand_cost e)) budget); [|exact Hst].
    cbn [fst snd] in *. rewrite map_app. cbn [map]. rewrite py_sum_snoc.
    rewrite <- Hst, (Hc e (or_introl eq_refl)). reflexivity.
Qed.

Lemma greedy_total_cost score cost budget :
  snd (greedy_select_under_budget score cost budget) =
  selection_cost score cost
    (fst (greedy_select_under_budget score cost budget)).
Proof.
  unfold greedy_select_under_budget, selection_cost.
  apply greedy_fold_cost; [|reflexivity].
  intros e He.
  apply (Permutation_in e (py_sorted_perm cand greedy_key_lt _)) in He.
  apply (greedy_flat_entries score cost e He).
Qed.

Lemma comb_score_selection score cost comb :
  Forall (fun e => In e (greedy_flat score cost)) comb ->
  comb_score comb = selection_score score (map cand_cell comb).
Proof.
  intros H. unfold comb_score, selection_score. f_equal.
  rewrite map_map. apply map_ext_in. intros e He.
  rewrite Forall_forall in H.
  apply (greedy_flat_entries score cost e (H e He)).
Qed.

Lemma generations_accounted score budget w cands iters : forall beam,
  Forall (fun cd => cand_val cd = cell_score score (cand_cell cd)) cands ->
  Forall (accounted score) beam ->
  Forall (accounted score) (concat (generations budget w cands iters beam)).
Proof.
  intros beam Hc. revert beam.
  assert (Hnext : forall beam, Forall (accounted score) beam ->
            Forall (accounted score) (next_generation budget cands beam)).
  { intros beam Hb. apply Forall_forall. intros e He.
    apply next_generation_in in He.
    destruct He as [be [cd [Hbe [Hcd [_ [_ ->]]]]]].
    rewrite Forall_forall in Hb, Hc.
    unfold accounted, extend, selection_score; cbn [b_score b_sel].
    rewrite map_app. cbn [map]. rewrite py_sum_snoc.
    rewrite (Hb be Hbe), (Hc cd Hcd). reflexivity. }
  induction iters as [|n IH]; intros beam Hb; simpl.
  - constructor.
  - apply Forall_app. split; [apply Hnext, Hb|].
    apply IH. unfold top_by_score.
    apply Forall_firstn, py_sorted_Forall, Hnext, Hb.
Qed.

Lemma exhaustive_returns score cost k budget :
  df_all isreal score = true -> cost_aligned score cost = true ->
  exhaustive_best_k score cost k budget = Some ([], Fin 0%Qc) \/
  exists best,
    In best (combinations (filter scored (greedy_flat score cost)) k) /\
    exhaustive_best_k score cost k budget
    = Some (map cand_cell best, comb_score best).
Proof.
  intros Hreal Hal.
  set (flat := filter scored (greedy_flat score cost)).
  pose proof (scored_vals_finite score cost Hreal) as Hfin.
  fold flat in Hfin.
  assert (Hscores : Forall (fun c => exists q, comb_score c = Fin q)
                      (combinations flat k)).
  { apply Forall_forall. intros c Hc. apply combinations_subseq in Hc.
    destruct Hc as [Hsub _]. apply comb_score_fin.
    apply (subseq_Forall _ _ c flat Hsub).
    apply Forall_forall. intros e He. rewrite Forall_forall in Hfin.
    apply (Hfin e He). }
  unfold exhaustive_best_k.
  rewrite (candidates_scored score cost Hal). fold flat.
  destruct (exhaustive_fold_spec budget (combinations flat k) NInf []
              (or_introl eq_refl) Hscores)
    as [[Hst _] | [pre [best [post [Hsplit [_ [_ [_ [_ Hst]]]]]]]]].
  - left. rewrite Hst. reflexivity.
  - right. exists best. split; [rewrite Hsplit; apply in_elt|].
    rewrite Hst. rewrite Forall_forall in Hscores.
    destruct (Hscores best) as [q Hq]; [rewrite Hsplit; apply in_elt|].
    rewrite Hq. reflexivity.
Qed.

(** C4 (as the code has it).  The greedy selector returns its selection
    with the selection's total cost.  The exhaustive selector returns its
    selection with the selection's total score (0 for the empty
    selection).  Beam search returns its best selection with that
    selection's total score when this is positive, and otherwise the greedy
    selection with its total cost. *)
Theorem selectors_second_component
  (score : DataFrame) (cost : option DataFrame) (budget : float)
  (k beam_width : nat) (max_iters : option nat) :
  df_wf score = true -> df_all isreal score = true ->
  cost_ok cost = true -> cost_aligned score cost = true ->
  isnan budget = false ->
  snd (greedy_select_under_budget score cost budget)
  = selection_cost score cost
      (fst (greedy_select_under_budget score cost budget)) /\
  (exists sel v,
     exhaustive_best_k score cost k budget = Some (sel, v) /\
     v = selection_score score sel) /\
  (exists sel v,
     beam_search_pair_selection score cost budget beam_width max_iters
     = Some (sel, v) /\
     ((flt (Fin 0%Qc) v = true /\ v = selection_score score sel) \/
      ((sel, v) = greedy_select_under_budget score cost budget /\
       v = selection_cost score cost sel))).
Proof.
  intros Hwf Hreal Hcost Hal Hb.
  split; [apply greedy_total_cost|]. split.
  - destruct (exhaustive_returns score cost k budget Hreal Hal)
      as [E | [best [Hin E]]].
    + exists [], (Fin 0%Qc). split; [exact E | reflexivity].
    + exists (map cand_cell best), (comb_score best).
      split; [exact E|].
      apply (comb_score_selection score cost).
      apply combinations_subseq in Hin. destruct Hin as [Hsub _].
      apply (subseq_Forall _ _ best _ Hsub).
      apply Forall_forall. intros e He. apply filter_In in He. apply He.
  - pose proof (beam_search_run score cost budget beam_width max_iters
                  Hreal Hcost Hal Hb) as Hrun.
    cbn zeta in Hrun.
    set (cands := py_sorted beam_key_lt
                    (filter scored (greedy_flat score cost))) in *.
    set (iters := match max_iters with
                  | None => length cands
                  | Some n => n
                  end) in *.
    set (seen := concat (generations budget beam_width cands iters
                           [beam_start])) in *.
    assert (Hc : Forall cand_fin cands)
      by apply (beam_candidates_fin score cost Hreal Hcost).
    assert (Hstart : Forall bentry_fin [beam_start]).
    { constructor; [split; reflexivity | constructor]. }
    assert (Hfin : Forall bentry_fin seen)
      by (apply generations_fin; assumption).
    assert (Hacc : Forall (accounted score) seen).
    { apply generations_accounted.
      - apply Forall_forall. intros e He.
        apply (Permutation_in e (py_sorted_perm cand beam_key_lt _)) in He.
        apply filter_In in He.
        apply (greedy_flat_entries score cost e (proj1 He)).
      - constructor; [reflexivity | constructor]. }
    destruct (fold_better_spec seen beam_start eq_refl Hfin)
      as [[Hst _] | [Hin [Hlt _]]].
    + rewrite Hst in Hrun. simpl in Hrun.
      destruct (greedy_select_under_budget score cost budget)
        as [gsel gv] eqn:Eg.
      exists gsel, gv. split; [exact Hrun|]. right. split; [reflexivity|].
      pose proof (greedy_total_cost score cost budget) as Hg.
      rewrite Eg in Hg. exact Hg.
    + exists (b_sel (fold_left better seen beam_start)),
             (b_score (fold_left better seen beam_start)).
      rewrite Forall_forall in Hacc. specialize (Hacc _ Hin).
      simpl b_score in Hlt.
      split.
      * rewrite Hrun.
        destruct (b_score (fold_left better seen beam_start)) as [| |s|];
          simpl in *; try discriminate; [|reflexivity].
        assert (E : Qc_leb s 0%Qc = false) by qc_order.
        rewrite E. reflexivity.
      * left. split; [exact Hlt | exact Hacc].
Qed.

Lemma selectors_second_component_witness :
  snd (greedy_select_under_budget score_3x2 (Some unit_cost_3x2) (fz 2))
  = selection_cost score_3x2 (Some unit_cost_3x2)
      (fst (greedy_select_under_budget score_3x2 (Some unit_cost_3x2)
              (fz 2))) /\
  (exists sel v,
     exhaustive_best_k score_3x2 (Some unit_cost_3x2) 2 (fz 2)
     = Some (sel, v) /\
     v = selection_score score_3x2 sel).
Proof.
  pose proof (selectors_second_component score_3x2 (Some unit_cost_3x2)
                (fz 2) 2 3 None eq_refl eq_refl eq_refl eq_refl eq_refl)
    as H.
  split; [exact (proj1 H) | exact (proj1 (proj2 H))].
Defined.

Lemma cell_eqb_eq (x y : cell) : cell_eqb x y = true -> x = y.
Proof.
  destruct x as [a b], y as [c d]. unfold cell_eqb; simpl.
  rewrite andb_true_iff, !String.eqb_eq. intros [-> ->]. reflexivity.
Qed.

Lemma sel_eqb_eq (x y : list cell) : sel_eqb x y = true -> x = y.
Proof.
  revert y. induction x as [|a x IH]; intros [|b y]; simpl;
    try discriminate; auto.
  rewrite andb_true_iff. intros [Hab Hxy].
  apply cell_eqb_eq in Hab. subst. f_equal. apply IH, Hxy.
Qed.

Lemma result_eqb_eq r sel v : result_eqb r sel v = true -> r = Some (sel, v).
Proof.
  destruct r as [[s x]|]; simpl; [|discriminate].
  rewrite andb_true_iff. intros [Hs Hx].
  apply sel_eqb_eq in Hs. apply float_eqb_eq in Hx. now subst.
Qed.

(** C4 as stated fails for the exhaustive selector and for beam search:
    on the test table with unit costs they return the selection's total
    score (18 for the best pair, 24 for the best triple), while the
    selections cost 2 and 3. *)
Lemma exhaustive_and_beam_return_score_not_cost :
  exhaustive_best_k score_3x2 (Some unit_cost_3x2) 2 PInf
  = Some ([("A1", "B1"); ("A1", "B2")]%string, fz 18) /\
  selection_cost score_3x2 (Some unit_cost_3x2)
    [("A1", "B1"); ("A1", "B2")]%string = fz 2 /\
  beam_search_pair_selection score_3x2 (Some unit_cost_3x2) (fz 3) 3
    (Some 3%nat)
  = Some ([("A1", "B1"); ("A1", "B2"); ("A2", "B1")]%string, fz 24) /\
  selection_cost score_3x2 (Some unit_cost_3x2)
    [("A1", "B1"); ("A1", "B2"); ("A2", "B1")]%string = fz 3 /\
  fz 18 <> fz 2 /\ fz 24 <> fz 3.
Proof.
  split; [apply result_eqb_eq; vm_compute; reflexivity|].
  split; [apply float_eqb_eq; vm_compute; reflexivity|].
  split; [apply result_eqb_eq; vm_compute; reflexivity|].
  split; [apply float_eqb_eq; vm_compute; reflexivity|].
  split; intros H; inversion H.
Qed.

(** ** Interaction residuals *)

(** *** Sums over the carrier *)

Lemma qz_add (a b : Z) : qz (a + b) = (qz a + qz b)%Qc.
Proof.
  unfold qz, Qcplus. apply Q2Qc_eq_iff. cbn [this Q2Qc].
  rewrite !Qred_correct. rewrite inject_Z_plus. reflexivity.
Qed.

Lemma qz_succ (n : nat) : qz (Z.of_nat (S n)) = (1 + qz (Z.of_nat n))%Qc.
Proof.
  rewrite Nat2Z.inj_succ. unfold Z.succ. rewrite qz_add.
  rewrite Qcplus_comm. reflexivity.
Qed.

Lemma qz_nat_nonneg (n : nat) : (0 <= qz (Z.of_nat n))%Qc.
Proof.
  unfold Qcle, qz. cbn [this Q2Qc]. rewrite !Qred_correct.
  unfold Qle. simpl. lia.
Qed.

Lemma qz_succ_nonzero (n : nat) : qz (Z.of_nat (S n)) <> 0%Qc.
Proof.
  intros H. pose proof (qz_nat_nonneg n) as Hn.
  rewrite qz_succ in H.
  assert (Hlt : (0 < 1 + qz (Z.of_nat n))%Qc).
  { unfold Qclt, Qcle in *.
    assert (E : ((1 + qz (Z.of_nat n))%Qc == 1 + qz (Z.of_nat n))%Q).
    { unfold Qcplus. cbn [this Q2Qc]. rewrite !Qred_correct. reflexivity. }
    rewrite E. assert (E0 : (0%Qc == 0)%Q) by reflexivity.
    rewrite E0 in *. lra. }
  rewrite H in Hlt. revert Hlt. apply Qcle_not_lt, Qcle_refl.
Qed.


Lemma qsum_map_ext (A : Type) (f g : A -> Qc) l :
  (forall x, In x l -> f x = g x) -> qsum (map f l) = qsum (map g l).
Proof.
  intros H. f_equal. apply map_ext_in, H.
Qed.




Lemma qsum_map_zero (A : Type) (l : list A) :
  qsum (map (fun _ => 0%Qc) l) = 0%Qc.
Proof.
  induction l as [|x l IH]; simpl; [reflexivity|]. rewrite IH. ring.
Qed.



(** *** Means of present entries *)

Lemma fold_fadd_present xs : forall a,
  forallb isreal xs = true ->
  fold_left fadd (filter notnan xs) (Fin a) =
  Fin (a + qsum (map fval xs))%Qc.
Proof.
  induction xs as [|x xs IH]; intros a H; simpl.
  - f_equal. ring.
  - simpl in H. apply andb_true_iff in H. destruct H as [Hx Hxs].
    destruct x as [| |q|]; try discriminate; simpl.
    + rewrite IH by exact Hxs. f_equal. ring.
    + rewrite IH by exact Hxs. f_equal. ring.
Qed.

Lemma py_sum_present xs :
  forallb isreal xs = true ->
  py_sum (filter notnan xs) = Fin (qsum (map fval xs)).
Proof.
  intros H. unfold py_sum. rewrite fold_fadd_present by exact H.
  f_equal. ring.
Qed.

Lemma count_present xs :
  forallb isreal xs = true ->
  qz (Z.of_nat (length (filter notnan xs))) = qsum (map fcnt xs).
Proof.
  induction xs as [|x xs IH]; intros H; [reflexivity|].
  simpl in H. apply andb_true_iff in H. destruct H as [Hx Hxs].
  destruct x as [| |q|]; try discriminate.
  - simpl. rewrite IH by exact Hxs. ring.
  - cbn [filter notnan isnan negb length map fcnt qsum fold_right].
    rewrite qz_succ, IH by exact Hxs. reflexivity.
Qed.

Lemma none_present xs :
  forallb isreal xs = true -> length (filter notnan xs) = 0%nat ->
  qsum (map fval xs) = 0%Qc.
Proof.
  induction xs as [|x xs IH]; intros H Hl; [reflexivity|].
  simpl in H. apply andb_true_iff in H. destruct H as [Hx Hxs].
  destruct x as [| |q|]; try discriminate; simpl in *.
  rewrite IH by assumption. ring.
Qed.

Lemma nanmean_real xs :
  forallb isreal xs = true ->
  nanmean xs =
  if Nat.eqb (length (filter notnan xs)) 0 then NaN else Fin (qmean xs).
Proof.
  intros H. unfold nanmean, np_mean, qmean.
  rewrite py_sum_present by exact H.
  rewrite <- (count_present xs H). unfold fnat, fz.
  destruct (length (filter notnan xs)) as [|k] eqn:E.
  - rewrite (none_present xs H E). reflexivity.
  - cbn [Nat.eqb fdiv].
    assert (Hk : Qc_eqb (qz (Z.of_nat (S k))) 0%Qc = false)
      by (apply Qc_eqb_neq, qz_succ_nonzero).
    rewrite Hk. reflexivity.
Qed.


Lemma nanmean_of_present xs q :
  forallb isreal xs = true -> In (Fin q) xs -> nanmean xs = Fin (qmean xs).
Proof.
  intros H Hin. rewrite nanmean_real by exact H.
  assert (Hf : In (Fin q) (filter notnan xs))
    by (apply filter_In; split; [exact Hin | reflexivity]).
  destruct (filter notnan xs); [destruct Hf | reflexivity].
Qed.

Lemma nansum_fold xs : forall a,
  forallb isreal xs = true ->
  fold_left (fun acc x => if isnan x then acc else fadd acc x) xs (Fin a) =
  Fin (a + qsum (map fval xs))%Qc.
Proof.
  induction xs as [|x xs IH]; intros a H; simpl.
  - f_equal. ring.
  - simpl in H. apply andb_true_iff in H. destruct H as [Hx Hxs].
    destruct x as [| |q|]; try discriminate; simpl;
      rewrite IH by exact Hxs; f_equal; ring.
Qed.

Lemma nansum_real xs :
  forallb isreal xs = true -> nansum xs = Fin (qsum (map fval xs)).
Proof.
  intros H. unfold nansum. rewrite nansum_fold by exact H. f_equal. ring.
Qed.

(** *** The residuals of a block of present-or-missing entries *)

Section Residuals.
Variables m n : nat.
Variable x : nat -> nat -> float.
Hypothesis x_real : forall i j, isreal (x i j) = true.

Local Abbreviation row i := (map (x i) (seq 0 n)).
Local Abbreviation col j := (map (fun i => x i j) (seq 0 m)).
Local Abbreviation block := (concat (map (fun i => row i) (seq 0 m))).
Local Abbreviation dsum f :=
  (qsum (map (fun i => qsum (map (fun j => f i j) (seq 0 n))) (seq 0 m))).

Lemma row_real i : forallb isreal (row i) = true.
Proof.
  apply forallb_forall. intros y Hy. apply in_map_iff in Hy.
  destruct Hy as [j [<- _]]. apply x_real.
Qed.

Lemma col_real j : forallb isreal (col j) = true.
Proof.
  apply forallb_forall. intros y Hy. apply in_map_iff in Hy.
  destruct Hy as [i [<- _]]. apply x_real.
Qed.

Lemma block_real : forallb isreal block = true.
Proof.
  apply forallb_forall. intros y Hy. apply in_concat in Hy.
  destruct Hy as [r [Hr Hy]]. apply in_map_iff in Hr.
  destruct Hr as [i [<- _]].
  pose proof (row_real i) as H. rewrite forallb_forall in H. apply H, Hy.
Qed.



End Residuals.

(** *** From labels to positions *)

Lemma list_as_seq (A : Type) (d : A) (l : list A) :
  l = map (fun j => nth j l d) (seq 0 (length l)).
Proof.
  induction l as [|a l IH]; simpl; [reflexivity|].
  f_equal. rewrite <- seq_shift, map_map. exact IH.
Qed.

Lemma get_loc_absent ls a : has_label ls a = false -> get_loc ls a = None.
Proof.
  unfold has_label. destruct (get_loc ls a); [discriminate | reflexivity].
Qed.

Lemma get_loc_unique ls i :
  unique_labels ls = true -> (i < length ls)%nat ->
  get_loc ls (nth i ls EmptyString) = Some i.
Proof.
  revert i. induction ls as [|a r IH]; intros i Hu Hi; simpl in *; [lia|].
  apply andb_true_iff in Hu. destruct Hu as [Ha Hr].
  apply negb_true_iff in Ha.
  destruct i as [|i].
  - now rewrite String.eqb_refl.
  - assert (Hi' : (i < length r)%nat) by lia.
    destruct (String.eqb a (nth i r EmptyString)) eqn:E.
    + apply String.eqb_eq in E. subst a.
      unfold has_label in Ha.
      rewrite (IH i Hr Hi') in Ha. discriminate.
    + rewrite (IH i Hr Hi'). reflexivity.
Qed.

Lemma df_wf_parts df :
  df_wf df = true ->
  df_shape df = true /\ unique_labels (index df) = true /\
  unique_labels (columns df) = true.
Proof. unfold df_wf. rewrite !andb_true_iff. tauto. Qed.

Lemma loc_or_positions d df i j :
  df_wf df = true ->
  (i < length (index df))%nat -> (j < length (columns df))%nat ->
  loc_or d df (nth i (index df) EmptyString) (nth j (columns df) EmptyString)
  = iat df i j.
Proof.
  intros Hwf Hi Hj. destruct (df_wf_parts df Hwf) as [_ [Hui Huc]].
  unfold loc_or, loc.
  now rewrite (get_loc_unique _ i Hui Hi), (get_loc_unique _ j Huc Hj).
Qed.

Lemma row_positions df i :
  df_shape df = true -> (i < length (index df))%nat ->
  nth i (values df) [] = map (iat df i) (seq 0 (length (columns df))).
Proof.
  intros Hs Hi. destruct (df_shape_rows df Hs) as [_ Hr].
  rewrite <- (Hr i Hi). apply (list_as_seq float NaN).
Qed.

Lemma column_positions df j :
  df_shape df = true ->
  column_at (values df) j =
  map (fun i => iat df i j) (seq 0 (length (index df))).
Proof.
  intros Hs. destruct (df_shape_rows df Hs) as [Hl _].
  unfold column_at. rewrite <- Hl.
  rewrite (list_as_seq (list float) [] (values df)) at 1.
  rewrite map_map. reflexivity.
Qed.

Lemma flat_positions df :
  df_shape df = true ->
  flat_values df =
  concat (map (fun i => map (iat df i) (seq 0 (length (columns df))))
              (seq 0 (length (index df)))).
Proof.
  intros Hs. destruct (df_shape_rows df Hs) as [Hl _].
  unfold flat_values. f_equal.
  rewrite (list_as_seq (list float) [] (values df)) at 1.
  rewrite Hl. apply map_ext_in. intros i Hi. apply in_seq in Hi.
  apply row_positions; [exact Hs | lia].
Qed.

(** The interaction loop, position by position. *)
Lemma interaction_loop_values cm overall :
  df_wf cm = true ->
  values (interaction_loop cm (mean_axis1 cm) (mean_axis0 cm) overall) =
  map (fun i =>
         map (fun j =>
                residual (iat cm i j)
                  (nanmean (map (iat cm i) (seq 0 (length (columns cm)))))
                  (nanmean (map (fun i' => iat cm i' j)
                                (seq 0 (length (index cm)))))
                  overall)
             (seq 0 (length (columns cm))))
      (seq 0 (length (index cm))).
Proof.
  intros Hwf. destruct (df_wf_parts cm Hwf) as [Hs [Hui Huc]].
  destruct (df_shape_rows cm Hs) as [Hl _].
  unfold interaction_loop. cbn [values].
  rewrite (list_as_seq label EmptyString (index cm)) at 1.
  rewrite map_map. apply map_ext_in. intros i Hi. apply in_seq in Hi.
  rewrite (list_as_seq label EmptyString (columns cm)) at 1.
  rewrite map_map. apply map_ext_in. intros j Hj. apply in_seq in Hj.
  rewrite loc_or_positions by (try exact Hwf; lia).
  assert (ER : series_loc_or NaN (mean_axis1 cm)
                 (nth i (index cm) EmptyString)
               = nanmean (map (iat cm i) (seq 0 (length (columns cm))))).
  { unfold series_loc_or, series_loc, mean_axis1. cbn [s_index s_values].
    rewrite (get_loc_unique _ i Hui) by lia.
    rewrite (nth_map_in _ _ nanmean (values cm) i [] NaN) by lia.
    now rewrite row_positions by (try exact Hs; lia). }
  assert (EC : series_loc_or NaN (mean_axis0 cm)
                 (nth j (columns cm) EmptyString)
               = nanmean (map (fun i' => iat cm i' j)
                              (seq 0 (length (index cm))))).
  { unfold series_loc_or, series_loc, mean_axis0. cbn [s_index s_values].
    rewrite (get_loc_unique _ j Huc) by lia.
    rewrite (nth_map_in _ _ _ (seq 0 (length (columns cm))) j 0%nat NaN)
      by (rewrite length_seq; lia).
    rewrite seq_nth by lia. cbn [Nat.add].
    now rewrite column_positions by exact Hs. }
  rewrite ER, EC. reflexivity.
Qed.

Lemma interaction_loop_shape cm rm cmn overall :
  df_shape (interaction_loop cm rm cmn overall) = true.
Proof.
  unfold interaction_loop.
  apply (built_shape
           (fun i j =>
              if isnan (loc_or NaN cm i j) then NaN
              else fadd (fsub (fsub (loc_or NaN cm i j)
                                    (series_loc_or NaN rm i))
                              (series_loc_or NaN cmn j)) overall)).
Qed.

(** Residuals of a table of present-or-missing cells: a present cell gets
    a number, a missing cell stays missing. *)
Lemma residual_value (x : nat -> nat -> float) m n i j :
  (forall i j, isreal (x i j) = true) ->
  In i (seq 0 m) -> In j (seq 0 n) ->
  let r := residual (x i j)
             (nanmean (map (x i) (seq 0 n)))
             (nanmean (map (fun i' => x i' j) (seq 0 m)))
             (nanmean (concat (map (fun i' => map (x i') (seq 0 n))
                                   (seq 0 m)))) in
  isreal r = true /\
  fval r =
  (fcnt (x i j) *
   (fval (x i j) - qmean (map (x i) (seq 0 n))
    - qmean (map (fun i' => x i' j) (seq 0 m))
    + qmean (concat (map (fun i' => map (x i') (seq 0 n)) (seq 0 m)))))%Qc.
Proof.
  intros Hreal Hi Hj r. subst r. unfold residual.
  pose proof (Hreal i j) as Hx.
  destruct (x i j) as [| |q|] eqn:E; try discriminate.
  - cbn [isnan isreal fval fcnt]. split; [reflexivity | ring].
  - cbn [isnan].
    rewrite (nanmean_of_present (map (x i) (seq 0 n)) q).
    2:{ apply row_real, Hreal. }
    2:{ rewrite <- E. apply in_map, Hj. }
    rewrite (nanmean_of_present (map (fun i' => x i' j) (seq 0 m)) q).
    2:{ apply col_real, Hreal. }
    2:{ rewrite <- E. apply (in_map (fun i' => x i' j)), Hi. }
    rewrite (nanmean_of_present
               (concat (map (fun i' => map (x i') (seq 0 n)) (seq 0 m))) q).
    2:{ apply block_real, Hreal. }
    2:{ apply in_concat. exists (map (x i) (seq 0 n)). split.
        - apply (in_map (fun i' => map (x i') (seq 0 n))), Hi.
        - rewrite <- E. apply in_map, Hj. }
    cbn [fsub fopp fadd isreal fval fcnt]. split; [reflexivity | ring].
Qed.




(** ** Bootstrap confidence intervals *)

Lemma py_sorted_constant (A : Type) (lt : A -> A -> bool) (v : A) l :
  lt v v = false -> Forall (eq v) l -> py_sorted lt l = l.
Proof.
  intros Hv H. induction H as [|x l Hx Hl IH]; simpl; [reflexivity|].
  subst x. rewrite IH. destruct l as [|y r]; simpl; [reflexivity|].
  inversion Hl; subst. now rewrite Hv.
Qed.

Lemma nth_constant (A : Type) (v d : A) l i :
  Forall (eq v) l -> (i < length l)%nat -> nth i l d = v.
Proof.
  intros H Hi. rewrite Forall_forall in H. symmetry. apply H.
  apply nth_In, Hi.
Qed.

(** The percentile of a constant sample is that constant. *)
Lemma percentile_constant (c qq : Qc) (n : nat) :
  (0 < n)%nat ->
  Qc_leb 0%Qc qq && Qc_leb qq (qz 100) = true ->
  percentile (map (fun _ => Fin c) (seq 0 n)) (Fin qq) = Some (Fin c).
Proof.
  intros Hn Hq. unfold percentile. rewrite Hq.
  set (a := map (fun _ : nat => Fin c) (seq 0 n)).
  assert (Hall : Forall (eq (Fin c)) a).
  { apply Forall_forall. intros y Hy. apply in_map_iff in Hy.
    destruct Hy as [k [<- _]]. reflexivity. }
  assert (Hlen : length a = n) by (unfold a; now rewrite length_map, length_seq).
  assert (Hnan : existsb isnan a = false).
  { destruct (existsb isnan a) eqn:E; [|reflexivity].
    apply existsb_exists in E. destruct E as [y [Hy Hy']].
    rewrite Forall_forall in Hall. rewrite <- (Hall y Hy) in Hy'.
    discriminate. }
  rewrite Hnan.
  destruct a as [|a0 a'] eqn:Ea; [simpl in Hlen; lia|]. rewrite <- Ea in *.
  rewrite (py_sorted_constant float flt (Fin c) a).
  - rewrite !(nth_constant float (Fin c) NaN a) by (try exact Hall; lia).
    cbn [fsub fopp fadd fmul]. f_equal. f_equal. ring.
  - simpl. qc_order.
  - exact Hall.
Qed.

(** The normal-approximation branch, spelled out. *)
Lemma compute_bootstrap_ci_se_run
  (gstate : Type) (standard_normal : gstate -> nat -> list float * gstate)
  (sqrt : Qc -> Qc) (boot_df : BootFrame) (alpha : float) (g : gstate) :
  bf_empty boot_df = false ->
  compute_bootstrap_ci standard_normal sqrt boot_df alpha "se" g =
  match percentile (fst (standard_normal g n_draws))
          (fmul (fz 100) (one_minus_half alpha)) with
  | None => (None, snd (standard_normal g n_draws))
  | Some p =>
      (Some (map (se_row sqrt (fabs p))
                 (combine (bf_index boot_df) (bf_values boot_df))),
       snd (standard_normal g n_draws))
  end.
Proof.
  intros Hne. unfold compute_bootstrap_ci. rewrite Hne.
  change (String.eqb "se" "percentile") with false.
  change (String.eqb "se" "se") with true. cbv iota.
  destruct (standard_normal g n_draws) as [draws g']. reflexivity.
Qed.

Lemma tape_percentile (c : Qc) :
  percentile (fst (tape_standard_normal (tape_of c) n_draws))
             (fmul (fz 100) (one_minus_half (ffrac 1 20))) = Some (Fin c).
Proof.
  assert (E : fmul (fz 100) (one_minus_half (ffrac 1 20))
              = Fin (qfrac 195 2))
    by (apply float_eqb_eq; vm_compute; reflexivity).
  rewrite E. unfold tape_standard_normal, tape_of. cbn [fst].
  apply percentile_constant.
  - unfold n_draws. lia.
  - vm_compute. reflexivity.
Qed.

(** C5 (as the code has it).  In normal-approximation mode the interval of
    every cell is [estimate -/+ z * se], where [z] is the absolute value of
    the empirical [100 * (1 - alpha / 2)] percentile of 100000 draws taken
    from the process-wide standard-normal generator, which the call
    advances.  The result depends on the state of that generator through
    these draws only: two invocations with identical arguments return
    identical results whenever the generator hands out the same draws. *)
Theorem compute_bootstrap_ci_se_mode
  (gstate : Type) (standard_normal : gstate -> nat -> list float * gstate)
  (sqrt : Qc -> Qc) (boot_df : BootFrame) (alpha : float) (g : gstate)
  (p : float) :
  bf_empty boot_df = false ->
  percentile (fst (standard_normal g n_draws))
             (fmul (fz 100) (one_minus_half alpha)) = Some p ->
  let z := fabs p in
  compute_bootstrap_ci standard_normal sqrt boot_df alpha "se" g =
  (Some (map (fun kx =>
                mkCI (fst kx) (nanmean (snd kx)) (nanstd1 sqrt (snd kx))
                  (fsub (nanmean (snd kx)) (fmul z (nanstd1 sqrt (snd kx))))
                  (fadd (nanmean (snd kx)) (fmul z (nanstd1 sqrt (snd kx)))))
             (combine (bf_index boot_df) (bf_values boot_df))),
   snd (standard_normal g n_draws)) /\
  (Z.of_nat n_draws = 100000%Z) /\
  (forall g2,
     fst (standard_normal g2 n_draws) = fst (standard_normal g n_draws) ->
     fst (compute_bootstrap_ci standard_normal sqrt boot_df alpha "se" g2) =
     fst (compute_bootstrap_ci standard_normal sqrt boot_df alpha "se" g)).
Proof.
  intros Hne Hp z.
  pose proof (fun g0 => compute_bootstrap_ci_se_run gstate standard_normal
                          sqrt boot_df alpha g0 Hne) as Hrun.
  split; [|split].
  - rewrite Hrun, Hp. reflexivity.
  - unfold n_draws. lia.
  - intros g2 Hd. rewrite !Hrun, Hd.
    destruct (percentile _ _); reflexivity.
Qed.

Lemma compute_bootstrap_ci_se_mode_witness :
  compute_bootstrap_ci tape_standard_normal sqrt_floor boot_one_cell
    (ffrac 1 20) "se" (tape_of 1) =
  (Some (map (fun kx =>
                mkCI (fst kx) (nanmean (snd kx))
                  (nanstd1 sqrt_floor (snd kx))
                  (fsub (nanmean (snd kx))
                        (fmul (fabs (Fin 1%Qc))
                              (nanstd1 sqrt_floor (snd kx))))
                  (fadd (nanmean (snd kx))
                        (fmul (fabs (Fin 1%Qc))
                              (nanstd1 sqrt_floor (snd kx)))))
             (combine (bf_index boot_one_cell) (bf_values boot_one_cell))),
   snd (tape_standard_normal (tape_of 1) n_draws)).
Proof.
  exact (proj1 (compute_bootstrap_ci_se_mode tape tape_standard_normal
                  sqrt_floor boot_one_cell (ffrac 1 20) (tape_of 1)
                  (Fin 1%Qc) eq_refl (tape_percentile 1))).
Defined.

(** C5 as stated fails: with identical arguments, the upper confidence
    limit of the cell is 2 when the global generator is about to produce
    zeros and 4 when it is about to produce ones. *)
Lemma se_mode_depends_on_generator_state :
  option_map (map ci_upper)
    (fst (compute_bootstrap_ci tape_standard_normal sqrt_floor boot_one_cell
            (ffrac 1 20) "se" (tape_of 0))) = Some [fz 2] /\
  option_map (map ci_upper)
    (fst (compute_bootstrap_ci tape_standard_normal sqrt_floor boot_one_cell
            (ffrac 1 20) "se" (tape_of 1))) = Some [fz 4] /\
  fst (compute_bootstrap_ci tape_standard_normal sqrt_floor boot_one_cell
         (ffrac 1 20) "se" (tape_of 0)) <>
  fst (compute_bootstrap_ci tape_standard_normal sqrt_floor boot_one_cell
         (ffrac 1 20) "se" (tape_of 1)).
Proof.
  assert (H0 : option_map (map ci_upper)
            (fst (compute_bootstrap_ci tape_standard_normal sqrt_floor
                    boot_one_cell (ffrac 1 20) "se" (tape_of 0)))
          = Some [fz 2]).
  { rewrite compute_bootstrap_ci_se_run by reflexivity.
    rewrite tape_percentile. cbn [fst option_map]. apply (f_equal Some).
    apply row_eqb_eq. vm_compute. reflexivity. }
  assert (H1 : option_map (map ci_upper)
            (fst (compute_bootstrap_ci tape_standard_normal sqrt_floor
                    boot_one_cell (ffrac 1 20) "se" (tape_of 1)))
          = Some [fz 4]).
  { rewrite compute_bootstrap_ci_se_run by reflexivity.
    rewrite tape_percentile. cbn [fst option_map]. apply (f_equal Some).
    apply row_eqb_eq. vm_compute. reflexivity. }
  split; [exact H0|]. split; [exact H1|].
  intros E. rewrite E, H1 in H0. inversion H0.
Qed.

(** ** Bootstrap replicate sets *)

Lemma key_eqb_eq (x y : key) : key_eqb x y = true <-> x = y.
Proof.
  revert y. induction x as [|a x IH]; intros [|b y]; simpl;
    try (split; [discriminate | intros H; inversion H]); [tauto|].
  rewrite andb_true_iff, String.eqb_eq, IH. split.
  - intros [-> ->]. reflexivity.
  - intros H. inversion H. auto.
Qed.

Lemma key_eqb_refl (x : key) : key_eqb x x = true.
Proof. now apply key_eqb_eq. Qed.

Lemma existsb_key k ks : existsb (key_eqb k) ks = true <-> In k ks.
Proof.
  rewrite existsb_exists. split.
  - intros [y [Hy E]]. apply key_eqb_eq in E. now subst.
  - intros H. exists k. split; [exact H | apply key_eqb_refl].
Qed.

Lemma distinct_keys_in k ks : In k (distinct_keys ks) <-> In k ks.
Proof.
  induction ks as [|x r IH]; simpl; [tauto|].
  destruct (existsb (key_eqb x) r) eqn:E.
  - rewrite IH. split; [auto|]. intros [<- | H]; [|exact H].
    now apply existsb_key.
  - simpl. rewrite IH. tauto.
Qed.

Lemma groupby_keys (df : observations) k :
  In k (map fst (groupby df)) <-> In k (map fst df).
Proof.
  unfold groupby. rewrite map_map. cbn [fst]. rewrite map_id.
  split; intros H.
  - apply distinct_keys_in.
    apply (Permutation_in k (py_sorted_perm key key_ltb _)), H.
  - apply distinct_keys_in in H.
    apply (Permutation_in k (Permutation_sym (py_sorted_perm key key_ltb _))),
      H.
Qed.

Lemma groupby_series (df : observations) k s :
  In (k, s) (groupby df) ->
  s = map snd (filter (fun r => key_eqb (fst r) k) df).
Proof.
  unfold groupby. intros H. apply in_map_iff in H.
  destruct H as [k' [E _]]. inversion E; subst. reflexivity.
Qed.

Lemma assoc_key_in (A : Type) k (l : list (key * A)) :
  (exists v, assoc_key k l = Some v) <-> In k (map fst l).
Proof.
  induction l as [|[k' v] r IH]; simpl.
  - split; [intros [v H]; discriminate | intros []].
  - destruct (key_eqb k' k) eqn:E.
    + apply key_eqb_eq in E. subst. split; [auto | intros _; now exists v].
    + rewrite IH. split; [auto|]. intros [H | H]; [|exact H].
      subst. rewrite key_eqb_refl in E. discriminate.
Qed.

Section BootstrapFacts.
Variable rng : Type.
Variable seeded : Z -> rng.
Variable integers : rng -> nat -> nat -> list nat * rng.
Variable stat : list float -> float.


Lemma bootstrap_groups_keys n_boot groups : forall g,
  map fst (fst (bootstrap_groups integers stat n_boot groups g)) =
  map fst groups.
Proof.
  induction groups as [|[k s] r IH]; intros g; simpl; [reflexivity|].
  destruct (Nat.eqb (length (filter notnan s)) 0).
  - specialize (IH g).
    destruct (bootstrap_groups integers stat n_boot r g) as [rest g'].
    simpl in *. now rewrite IH.
  - destruct (replicate_loop integers stat (filter notnan s) n_boot g)
      as [reps g1].
    specialize (IH g1).
    destruct (bootstrap_groups integers stat n_boot r g1) as [rest g2].
    simpl in *. now rewrite IH.
Qed.


End BootstrapFacts.




Lemma pad_nan_length n v : (length v <= n)%nat -> length (pad_nan n v) = n.
Proof.
  intros H. unfold pad_nan. rewrite length_app, repeat_length. lia.
Qed.


Lemma assoc_key_absent (A : Type) k (l : list (key * A)) :
  ~ In k (map fst l) -> assoc_key k l = None.
Proof.
  intros H. destruct (assoc_key k l) as [v|] eqn:E; [|reflexivity].
  exfalso. apply H. apply assoc_key_in. now exists v.
Qed.



(** ** The unit tests of the repository, run on the model *)

Lemma opt_float_eq (o : option float) (x : float) :
  match o with Some v => float_eqb v x | None => false end = true ->
  o = Some x.
Proof.
  destruct o as [v|]; [|discriminate].
  intros H. apply float_eqb_eq in H. now subst.
Qed.

(** [test_compute_risk_adjusted_score_basic]: kappa = 1, rho = 0. *)
Example test_compute_risk_adjusted_score_basic :
  let s := compute_risk_adjusted_score means_2x2 (Some unc_2x2) None
             (Fin 1%Qc) (Fin 0%Qc) true in
  loc s "A1"%string "B1"%string = Some (ffrac 9 10) /\
  loc s "A2"%string "B2"%string = Some (ffrac 36 10).
Proof.
  split; apply opt_float_eq; vm_compute; reflexivity.
Qed.

(** [test_normalize_costs_and_apply_rho]: the score is
    [cm - 0.5 * (cost / 10)]. *)
Example test_normalize_costs_and_apply_rho :
  values (normalize_costs cost_2x2 default_eps)
  = [[fz 1; fz 0]; [ffrac 1 2; ffrac 1 10]] /\
  values (compute_risk_adjusted_score means_2x2 (Some unc_2x2)
            (Some cost_2x2) (Fin 0%Qc) (ffrac 1 2) true)
  = [[ffrac 1 2; fz 2]; [ffrac 11 4; ffrac 79 20]].
Proof.
  split; apply values_eqb_eq; vm_compute; reflexivity.
Qed.

(** [test_exhaustive_best_k_small_enumeration]: k = 2, budget 10. *)
Example test_exhaustive_best_k_small_enumeration :
  exhaustive_best_k score_3x2 (Some unit_cost_3x2) 2 (fz 10)
  = Some ([("A1", "B1"); ("A1", "B2")]%string, fz 18).
Proof. apply result_eqb_eq. vm_compute. reflexivity. Qed.

(** [test_two_factor_interaction_matrix_properties]: on the full 2 x 2
    table the additive model fits exactly. *)
Example test_two_factor_interaction_matrix_properties :
  option_map values (two_factor_interaction_matrix means_2x2 "overall")
  = Some [[fz 0; fz 0]; [fz 0; fz 0]].
Proof.
  cbn [two_factor_interaction_matrix String.eqb Ascii.eqb Bool.eqb negb
       option_map].
  apply (f_equal Some). apply values_eqb_eq. vm_compute. reflexivity.
Qed.

(** A cell whose rows all lack an outcome gets its no-data markers; the
    replicates of the other cells are means of resamples. *)
Example bootstrap_missing_outcome_cell :
  assoc_key ["A2"; "B1"]%string
    (bootstrap_cell_statistics (fun s : Z => s) lcg_integers 0%Z
       obs_with_missing_outcome np_mean 3 (Some 7%Z))
  = Some [NaN; NaN; NaN].
Proof. vm_compute. reflexivity. Qed.

(** With budget 2 the greedy selector takes (A1, B1), passes over
    (A1, B2), whose cost 5 does not fit, and still takes the cheaper
    (A1, B3) after it. *)
Example greedy_skips_and_continues :
  greedy_select_under_budget score_1x3 (Some cost_1x3) (fz 2)
  = ([("A1", "B1"); ("A1", "B3")]%string, fz 2).
Proof.
  apply injective_projections.
  - vm_compute. reflexivity.
  - apply float_eqb_eq. vm_compute. reflexivity.
Qed.

(** ** More on the selectors *)

Lemma greedy_fold_budget budget l : forall st,
  (fst st = [] /\ snd st = Fin 0%Qc) \/ fle (snd st) budget = true ->
  (fst (fold_left (greedy_step budget) l st) = [] /\
   snd (fold_left (greedy_step budget) l st) = Fin 0%Qc) \/
  fle (snd (fold_left (greedy_step budget) l st)) budget = true.
Proof.
  induction l as [|e l IH]; intros [sel tot] H; simpl; auto.
  apply IH. unfold greedy_step.
  destruct (isnan (cand_val e)); auto.
  destruct (fle (fadd tot (cand_cost e)) budget) eqn:E; auto.
Qed.

(** X1.  The greedy selector never overspends: either nothing was
    selected and the reported cost is 0, or the reported cost, which is the
    total cost of the selected cells, is at most the budget.  This holds
    for every score table, cost table and budget. *)
Theorem greedy_never_exceeds_budget
  (score : DataFrame) (cost : option DataFrame) (budget : float) :
  let r := greedy_select_under_budget score cost budget in
  r = ([], Fin 0%Qc) \/
  (fle (snd r) budget = true /\
   fle (selection_cost score cost (fst r)) budget = true).
Proof.
  intros r.
  destruct (greedy_fold_budget budget
              (py_sorted greedy_key_lt (greedy_flat score cost))
              ([], Fin 0%Qc)) as [[H1 H2]|H].
  - left; split; reflexivity.
  - left. fold (greedy_select_under_budget score cost budget) in H1, H2.
    fold r in H1, H2. destruct r; simpl in *; congruence.
  - right. fold (greedy_select_under_budget score cost budget) in H.
    split; [exact H|].
    unfold r. rewrite <- greedy_total_cost. exact H.
Qed.

Lemma has_label_false_notin ls a : has_label ls a = false -> ~ In a ls.
Proof. intros H Hin. apply has_label_in in Hin. congruence. Qed.

Lemma unique_labels_NoDup ls : unique_labels ls = true -> NoDup ls.
Proof.
  induction ls as [|x r IH]; simpl; intro H; [constructor|].
  apply andb_true_iff in H as [H1 H2]. constructor; auto.
  apply has_label_false_notin. now apply negb_true_iff.
Qed.

Lemma NoDup_map_pair (a : label) cols :
  NoDup cols -> NoDup (map (fun b : label => (a, b)) cols).
Proof.
  induction 1 as [|b r Hn Hr IH]; simpl; constructor; auto.
  intro Hin. apply in_map_iff in Hin as (b' & E & Hb). inversion E; subst.
  contradiction.
Qed.

Lemma cells_of_NoDup df :
  unique_labels (index df) = true -> unique_labels (columns df) = true ->
  NoDup (cells_of df).
Proof.
  intros Hi Hc. apply unique_labels_NoDup in Hi, Hc.
  unfold cells_of. induction Hi as [|a r Hn Hr IH]; simpl; [constructor|].
  apply NoDup_app; auto.
  - now apply NoDup_map_pair.
  - intros [x y] H1 H2. apply in_map_iff in H1 as (b & E & Hb).
    inversion E; subst. apply in_flat_map in H2 as (a' & Ha' & H2).
    apply in_map_iff in H2 as (b' & E' & _). inversion E'; subst.
    contradiction.
Qed.

Lemma cells_of_iff df a b :
  In (a, b) (cells_of df) <-> In a (index df) /\ In b (columns df).
Proof.
  split; [apply cells_of_in|]. intros [Ha Hb]. unfold cells_of.
  apply in_flat_map. exists a. split; auto.
  apply in_map_iff. exists b. auto.
Qed.

Lemma greedy_flat_cells score cost :
  map cand_cell (greedy_flat score cost) = cells_of score.
Proof.
  unfold greedy_flat. rewrite map_map. simpl. apply map_id.
Qed.

Lemma subseq_In (A : Type) (s l : list A) x :
  subseq s l -> In x s -> In x l.
Proof.
  induction 1; simpl; auto.
  - intros [->|H1]; auto.
Qed.

Lemma subseq_NoDup (A : Type) (s l : list A) :
  subseq s l -> NoDup l -> NoDup s.
Proof.
  induction 1; intro Hn; auto.
  - inversion Hn; subst. constructor; auto.
    intro Hin. eapply subseq_In in Hin; eauto.
  - inversion Hn; subst. auto.
Qed.

Lemma subseq_map (A B : Type) (f : A -> B) (s l : list A) :
  subseq s l -> subseq (map f s) (map f l).
Proof. induction 1; simpl; constructor; auto. Qed.

Lemma subseq_filter (A : Type) (p : A -> bool) (l : list A) :
  subseq (filter p l) l.
Proof.
  induction l as [|x l IH]; simpl; [constructor|].
  destruct (p x); constructor; auto.
Qed.

Lemma subseq_refl (A : Type) (l : list A) : subseq l l.
Proof. induction l; constructor; auto. Qed.

Lemma subseq_trans (A : Type) (s l : list A) :
  subseq s l -> forall t, subseq l t -> subseq s t.
Proof.
  intros H t Ht. revert s H.
  induction Ht; intros s' Hs.
  - exact Hs.
  - inversion Hs; subst.
    + constructor. auto.
    + apply subseq_drop. auto.
  - apply subseq_drop. auto.
Qed.

Lemma greedy_fold_subseq budget l : forall st,
  exists s, subseq s (map cand_cell (filter scored l)) /\
            fst (fold_left (greedy_step budget) l st) = fst st ++ s.
Proof.
  induction l as [|e l IH]; intros [sel tot].
  - exists []. split; [constructor|]. simpl. now rewrite app_nil_r.
  - cbn [fold_left filter].
    assert (Hstep : greedy_step budget (sel, tot) e =
                    if isnan (cand_val e) then (sel, tot)
                    else if fle (fadd tot (cand_cost e)) budget
                         then (sel ++ [cand_cell e], fadd tot (cand_cost e))
                         else (sel, tot)) by reflexivity.
    rewrite Hstep. unfold scored at 1. unfold notnan.
    destruct (isnan (cand_val e)); cbn [negb map fst].
    + apply IH.
    + destruct (fle (fadd tot (cand_cost e)) budget).
      * destruct (IH (sel ++ [cand_cell e], fadd tot (cand_cost e)))
          as (s & Hs & E).
        exists (cand_cell e :: s). split; [now constructor|].
        rewrite E. cbn [fst]. now rewrite <- app_assoc.
      * destruct (IH (sel, tot)) as (s & Hs & E).
        exists s. split; [now constructor|]. exact E.
Qed.

Lemma NoDup_map_filter (A B : Type) (f : A -> B) (p : A -> bool) l :
  NoDup (map f l) -> NoDup (map f (filter p l)).
Proof.
  intro H. eapply subseq_NoDup; [|exact H].
  apply subseq_map, subseq_filter.
Qed.

Lemma scored_cell score cost e :
  In e (greedy_flat score cost) -> scored e = true ->
  In (cand_cell e) (cells_of score) /\
  isnan (cell_score score (cand_cell e)) = false.
Proof.
  intros Hin Hs. split.
  - rewrite <- (greedy_flat_cells score cost). now apply in_map.
  - destruct (greedy_flat_entries score cost e Hin) as [E _].
    rewrite <- E. unfold scored, notnan in Hs. now apply negb_true_iff.
Qed.

Lemma greedy_selection_subseq score cost budget :
  subseq (fst (greedy_select_under_budget score cost budget))
         (map cand_cell
            (filter scored (py_sorted greedy_key_lt (greedy_flat score cost)))).
Proof.
  unfold greedy_select_under_budget.
  destruct (greedy_fold_subseq budget
              (py_sorted greedy_key_lt (greedy_flat score cost))
              ([], Fin 0%Qc)) as (s & Hs & E).
  rewrite E. exact Hs.
Qed.

(** X2.  On a score table with unique labels the greedy selection holds
    no cell twice, and every selected cell is a cell of the score table
    whose score is not NaN. *)
Theorem greedy_selection_distinct_scored
  (score : DataFrame) (cost : option DataFrame) (budget : float) :
  unique_labels (index score) = true ->
  unique_labels (columns score) = true ->
  let sel := fst (greedy_select_under_budget score cost budget) in
  NoDup sel /\
  forall c, In c sel ->
    In c (cells_of score) /\ isnan (cell_score score c) = false.
Proof.
  intros Hi Hc sel.
  pose proof (greedy_selection_subseq score cost budget) as Hs.
  fold sel in Hs. split.
  - eapply subseq_NoDup; [exact Hs|].
    apply NoDup_map_filter.
    eapply Permutation_NoDup.
    + apply Permutation_map, Permutation_sym, py_sorted_perm.
    + rewrite greedy_flat_cells. now apply cells_of_NoDup.
  - intros c Hin. eapply subseq_In in Hin; [|exact Hs].
    apply in_map_iff in Hin as (e & <- & He).
    apply filter_In in He as [He Hsc].
    apply (scored_cell score cost); auto.
    eapply Permutation_in; [apply py_sorted_perm|exact He].
Qed.

Lemma greedy_selection_distinct_scored_witness :
  let sel := fst (greedy_select_under_budget score_3x2 (Some unit_cost_3x2)
                    (fz 2)) in
  NoDup sel /\
  forall c, In c sel ->
    In c (cells_of score_3x2) /\ isnan (cell_score score_3x2 c) = false.
Proof.
  apply (greedy_selection_distinct_scored score_3x2 (Some unit_cost_3x2)
           (fz 2)); reflexivity.
Defined.

Lemma greedy_fold_unlimited l : forall sel (t : Qc),
  Forall (fun e => isfinite (cand_cost e) = true) l ->
  exists t', fold_left (greedy_step PInf) l (sel, Fin t) =
             (sel ++ map cand_cell (filter scored l), Fin t').
Proof.
  induction l as [|e l IH]; intros sel t Hf.
  - exists t. simpl. now rewrite app_nil_r.
  - inversion Hf as [|? ? He Hl]; subst.
    cbn [fold_left filter].
    assert (Hstep : greedy_step PInf (sel, Fin t) e =
                    if isnan (cand_val e) then (sel, Fin t)
                    else if fle (fadd (Fin t) (cand_cost e)) PInf
                         then (sel ++ [cand_cell e],
                               fadd (Fin t) (cand_cost e))
                         else (sel, Fin t)) by reflexivity.
    rewrite Hstep. unfold scored at 1. unfold notnan.
    destruct (isnan (cand_val e)); cbn [negb map].
    + now apply IH.
    + destruct (cand_cost e) as [| |c|]; try discriminate.
      cbn [fadd fle].
      destruct (IH (sel ++ [cand_cell e]) (t + c)%Qc Hl) as (t' & E).
      exists t'. rewrite E. now rewrite <- app_assoc.
Qed.

Lemma greedy_flat_cost_finite score cost :
  cost_ok cost = true ->
  Forall (fun e => isfinite (cand_cost e) = true) (greedy_flat score cost).
Proof.
  intro Hc. apply Forall_forall. intros e He.
  unfold greedy_flat in He. apply in_map_iff in He as (ab & <- & _).
  cbn [cand_cost]. now apply cost_ok_finite.
Qed.

(** X3.  With an infinite budget and finite costs the greedy selector
    accepts every cell whose score is not NaN, in its scan order, and
    nothing else. *)
Theorem greedy_unlimited_budget_selects_all
  (score : DataFrame) (cost : option DataFrame) :
  cost_ok cost = true ->
  let sel := fst (greedy_select_under_budget score cost PInf) in
  sel = map cand_cell
          (filter scored (py_sorted greedy_key_lt (greedy_flat score cost)))
  /\
  forall c, In c sel <->
            In c (cells_of score) /\ isnan (cell_score score c) = false.
Proof.
  intros Hc sel.
  assert (E : sel = map cand_cell
                (filter scored
                   (py_sorted greedy_key_lt (greedy_flat score cost)))).
  { unfold sel, greedy_select_under_budget.
    destruct (greedy_fold_unlimited
                (py_sorted greedy_key_lt (greedy_flat score cost)) [] 0%Qc)
      as (t' & E).
    - apply py_sorted_Forall. now apply greedy_flat_cost_finite.
    - rewrite E. reflexivity. }
  split; [exact E|].
  intro c. rewrite E. split.
  - intro Hin. apply in_map_iff in Hin as (e & <- & He).
    apply filter_In in He as [He Hs].
    apply (scored_cell score cost); auto.
    eapply Permutation_in; [apply py_sorted_perm|exact He].
  - intros [Hin Hn]. rewrite <- (greedy_flat_cells score cost) in Hin.
    apply in_map_iff in Hin as (e & <- & He).
    apply in_map. apply filter_In. split.
    + eapply Permutation_in; [apply Permutation_sym, py_sorted_perm|exact He].
    + destruct (greedy_flat_entries score cost e He) as [Ev _].
      unfold scored, notnan. rewrite Ev. now rewrite Hn.
Qed.

Lemma greedy_unlimited_budget_selects_all_witness :
  let sel := fst (greedy_select_under_budget means_2x2_gap (Some cost_2x2)
                    PInf) in
  sel = map cand_cell
          (filter scored
             (py_sorted greedy_key_lt
                (greedy_flat means_2x2_gap (Some cost_2x2))))
  /\
  forall c, In c sel <->
            In c (cells_of means_2x2_gap) /\
            isnan (cell_score means_2x2_gap c) = false.
Proof.
  apply (greedy_unlimited_budget_selects_all means_2x2_gap (Some cost_2x2)).
  reflexivity.
Defined.

Lemma exhaustive_returns_within score cost k budget :
  df_all isreal score = true -> cost_aligned score cost = true ->
  exhaustive_best_k score cost k budget = Some ([], Fin 0%Qc) \/
  exists best,
    In best (combinations (filter scored (greedy_flat score cost)) k) /\
    within_budget budget best = true /\
    exhaustive_best_k score cost k budget
    = Some (map cand_cell best, comb_score best).
Proof.
  intros Hreal Hal.
  set (flat := filter scored (greedy_flat score cost)).
  pose proof (scored_vals_finite score cost Hreal) as Hfin.
  fold flat in Hfin.
  assert (Hscores : Forall (fun c => exists q, comb_score c = Fin q)
                      (combinations flat k)).
  { apply Forall_forall. intros c Hc. apply combinations_subseq in Hc.
    destruct Hc as [Hsub _]. apply comb_score_fin.
    apply (subseq_Forall _ _ c flat Hsub).
    apply Forall_forall. intros e He. rewrite Forall_forall in Hfin.
    apply (Hfin e He). }
  unfold exhaustive_best_k.
  rewrite (candidates_scored score cost Hal). fold flat.
  destruct (exhaustive_fold_spec budget (combinations flat k) NInf []
              (or_introl eq_refl) Hscores)
    as [[Hst _] | [pre [best [post [Hsplit [Hw [_ [_ [_ Hst]]]]]]]]].
  - left. rewrite Hst. reflexivity.
  - right. exists best. split; [rewrite Hsplit; apply in_elt|].
    split; [exact Hw|].
    rewrite Hst. rewrite Forall_forall in Hscores.
    destruct (Hscores best) as [q Hq]; [rewrite Hsplit; apply in_elt|].
    rewrite Hq. reflexivity.
Qed.

Lemma comb_cost_selection score cost comb :
  Forall (fun e => In e (greedy_flat score cost)) comb ->
  comb_cost comb = selection_cost score cost (map cand_cell comb).
Proof.
  intro H. unfold comb_cost, selection_cost. f_equal.
  rewrite map_map. apply map_ext_in. intros e He.
  rewrite Forall_forall in H.
  now destruct (greedy_flat_entries score cost e (H e He)).
Qed.

Lemma scored_flat_NoDup score cost :
  unique_labels (index score) = true ->
  unique_labels (columns score) = true ->
  NoDup (map cand_cell (filter scored (greedy_flat score cost))).
Proof.
  intros Hi Hc. apply NoDup_map_filter. rewrite greedy_flat_cells.
  now apply cells_of_NoDup.
Qed.

(** X4.  The exhaustive selector returns either the empty selection with
    0, or a selection of exactly [k] pairwise distinct cells with non-NaN
    scores whose total cost is within the budget. *)
Theorem exhaustive_selection_feasible
  (score : DataFrame) (cost : option DataFrame) (k : nat) (budget : float) :
  df_wf score = true -> df_all isreal score = true ->
  cost_aligned score cost = true ->
  exists sel v,
    exhaustive_best_k score cost k budget = Some (sel, v) /\
    ((sel = [] /\ v = Fin 0%Qc) \/
     (length sel = k /\ NoDup sel /\
      (forall c, In c sel ->
         In c (cells_of score) /\ isnan (cell_score score c) = false) /\
      fle (selection_cost score cost sel) budget = true)).
Proof.
  intros Hwf Hreal Hal.
  destruct (df_wf_parts score Hwf) as (_ & Hi & Hc).
  destruct (exhaustive_returns_within score cost k budget Hreal Hal)
    as [E | (best & Hin & Hw & E)].
  - exists [], (Fin 0%Qc). split; auto.
  - exists (map cand_cell best), (comb_score best). split; [exact E|].
    right. apply combinations_subseq in Hin as [Hsub Hlen].
    assert (Hflat : Forall (fun e => In e (greedy_flat score cost) /\
                                     scored e = true) best).
    { apply (subseq_Forall _ _ best _ Hsub).
      apply Forall_forall. intros e He. now apply filter_In in He. }
    split; [now rewrite length_map|]. split.
    { eapply subseq_NoDup; [apply subseq_map, Hsub|].
      now apply scored_flat_NoDup. }
    split.
    { intros c Hcin. apply in_map_iff in Hcin as (e & <- & He).
      rewrite Forall_forall in Hflat. destruct (Hflat e He).
      now apply (scored_cell score cost). }
    rewrite <- (comb_cost_selection score cost).
    + exact Hw.
    + eapply Forall_impl; [|exact Hflat]. now intros e [H _].
Qed.

Lemma exhaustive_selection_feasible_witness :
  exists sel v,
    exhaustive_best_k score_3x2 (Some unit_cost_3x2) 2 (fz 2)
    = Some (sel, v) /\
    ((sel = [] /\ v = Fin 0%Qc) \/
     (length sel = 2%nat /\ NoDup sel /\
      (forall c, In c sel ->
         In c (cells_of score_3x2) /\
         isnan (cell_score score_3x2 c) = false) /\
      fle (selection_cost score_3x2 (Some unit_cost_3x2) sel) (fz 2)
      = true)).
Proof.
  apply (exhaustive_selection_feasible score_3x2 (Some unit_cost_3x2) 2
           (fz 2)); reflexivity.
Defined.

Lemma candidates_from_keyerror score c cs a b :
  In (a, b) cs -> isnan (loc_or NaN score a b) = false ->
  loc c a b = None ->
  candidates_from score (Some c) cs = None.
Proof.
  intros Hin Hn Hl. induction cs as [|[a' b'] r IH]; [contradiction|].
  cbn [candidates_from].
  destruct Hin as [E | Hin].
  - inversion E; subst. rewrite Hn, Hl. reflexivity.
  - rewrite (IH Hin).
    destruct (isnan (loc_or NaN score a' b')); [reflexivity|].
    destruct (loc c a' b'); reflexivity.
Qed.

(** X5.  A cost table that lacks a label of a cell with a non-NaN score:
    the exhaustive selector and the beam search raise (the unguarded
    [cost.loc[a, b]] is a KeyError), while the greedy selector carries on
    and charges that cell the unit cost 1. *)
Theorem unknown_cost_label_raises_except_in_greedy
  (score c : DataFrame) (a b : label) (k beam_width : nat)
  (max_iters : option nat) (budget : float) :
  In (a, b) (cells_of score) ->
  isnan (cell_score score (a, b)) = false ->
  loc c a b = None ->
  exhaustive_best_k score (Some c) k budget = None /\
  beam_search_pair_selection score (Some c) budget beam_width max_iters
  = None /\
  In (mkCand (a, b) (cell_score score (a, b)) (Fin 1%Qc))
     (greedy_flat score (Some c)).
Proof.
  intros Hin Hn Hl.
  assert (Hc : candidates score (Some c) = None)
    by (apply (candidates_from_keyerror score c _ a b); auto).
  split; [|split].
  - unfold exhaustive_best_k. now rewrite Hc.
  - unfold beam_search_pair_selection. now rewrite Hc.
  - unfold greedy_flat. apply in_map_iff. exists (a, b). split; auto.
    cbn [fst snd]. unfold loc_or at 2. rewrite Hl. reflexivity.
Qed.

Lemma unknown_cost_label_raises_except_in_greedy_witness :
  exhaustive_best_k means_1x2 (Some cost_1x1) 1 (fz 5) = None /\
  beam_search_pair_selection means_1x2 (Some cost_1x1) (fz 5) 2 None
  = None /\
  In (mkCand ("A1", "B2")%string
        (cell_score means_1x2 ("A1", "B2")%string) (Fin 1%Qc))
     (greedy_flat means_1x2 (Some cost_1x1)).
Proof.
  apply (unknown_cost_label_raises_except_in_greedy means_1x2 cost_1x1
           "A1"%string "B2"%string 1 2 None (fz 5)).
  - simpl. auto.
  - reflexivity.
  - reflexivity.
Defined.



Lemma In_firstn (A : Type) n (l : list A) x : In x (firstn n l) -> In x l.
Proof.
  intro H. rewrite <- (firstn_skipn n l). apply in_or_app. now left.
Qed.

Lemma top_by_score_In w gen e : In e (top_by_score w gen) -> In e gen.
Proof.
  unfold top_by_score. intro H. apply In_firstn in H.
  eapply Permutation_in; [apply py_sorted_perm|exact H].
Qed.




Lemma beam_candidates_entries score cost :
  Forall (fun cd => In cd (greedy_flat score cost) /\ scored cd = true)
    (py_sorted beam_key_lt (filter scored (greedy_flat score cost))).
Proof.
  apply py_sorted_Forall. apply Forall_forall. intros e He.
  now apply filter_In in He.
Qed.


Lemma flt_zero_not_fle (v : float) :
  flt (Fin 0%Qc) v = true -> fle v (Fin 0%Qc) = false.
Proof.
  destruct v as [| |q|]; simpl; try discriminate; auto.
  intro H. qc_order.
Qed.

Lemma beam_best_cases score cost budget beam_width max_iters :
  df_all isreal score = true -> cost_ok cost = true ->
  cost_aligned score cost = true -> isnan budget = false ->
  let cands :=
    py_sorted beam_key_lt (filter scored (greedy_flat score cost)) in
  let iters := match max_iters with
               | None => length cands
               | Some n => n
               end in
  let gens := generations budget beam_width cands iters [beam_start] in
  ((forall e, In e (concat gens) -> fle (b_score e) (Fin 0%Qc) = true) /\
   beam_search_pair_selection score cost budget beam_width max_iters
   = Some (greedy_select_under_budget score cost budget)) \/
  (exists best,
     In best (concat gens) /\
     flt (Fin 0%Qc) (b_score best) = true /\
     (forall e, In e (concat gens) ->
        fle (b_score e) (b_score best) = true) /\
     beam_search_pair_selection score cost budget beam_width max_iters
     = Some (b_sel best, b_score best)).
Proof.
  intros Hreal Hcost Hal Hb cands iters gens.
  pose proof (beam_search_run score cost budget beam_width max_iters
                Hreal Hcost Hal Hb) as Hrun.
  cbv zeta in Hrun. fold cands in Hrun. fold iters in Hrun.
  fold gens in Hrun.
  assert (Hfin : Forall bentry_fin (concat gens)).
  { apply generations_fin.
    - constructor; [split; reflexivity|constructor].
    - now apply beam_candidates_fin. }
  destruct (fold_better_spec (concat gens) beam_start eq_refl Hfin)
    as [[E Hle] | (Hin & Hlt & Hle)].
  - left. split; [exact Hle|]. rewrite Hrun, E. reflexivity.
  - right. exists (fold_left better (concat gens) beam_start).
    split; [exact Hin|]. split; [exact Hlt|]. split; [exact Hle|].
    rewrite Hrun. cbn [beam_start b_score] in Hlt.
    now rewrite (flt_zero_not_fle _ Hlt).
Qed.



Lemma loc_or_all p df a b :
  df_all p df = true -> p NaN = true -> p (loc_or NaN df a b) = true.
Proof.
  intros H Hn. unfold loc_or, loc.
  destruct (get_loc (index df) a); auto.
  destruct (get_loc (columns df) b); auto.
  now apply iat_all.
Qed.

Lemma fle_fadd_nonpositive x y :
  fle x (Fin 0%Qc) = true -> fle y (Fin 0%Qc) = true ->
  fle (fadd x y) (Fin 0%Qc) = true.
Proof.
  destruct x as [| |a|], y as [| |b|]; simpl; try discriminate; auto.
  intros Ha Hb. qc_hyps. qc_goal.
  change (this (a + b)%Qc) with (Qred (a + b)). rewrite Qred_correct.
  change (this (Q2Qc 0)) with 0%Q in *. lra.
Qed.

Lemma generations_nonpositive budget w cands iters : forall beam,
  Forall (fun cd => fle (cand_val cd) (Fin 0%Qc) = true) cands ->
  Forall (fun e => fle (b_score e) (Fin 0%Qc) = true) beam ->
  Forall (fun e => fle (b_score e) (Fin 0%Qc) = true)
         (concat (generations budget w cands iters beam)).
Proof.
  induction iters as [|n IH]; intros beam Hc Hbeam; [constructor|].
  cbn [generations concat].
  assert (Hg : Forall (fun e => fle (b_score e) (Fin 0%Qc) = true)
                 (next_generation budget cands beam)).
  { apply Forall_forall. intros e He.
    apply next_generation_in in He as (be & cd & Hbe & Hcd & _ & _ & ->).
    rewrite Forall_forall in Hbeam, Hc.
    cbn [extend b_score]. apply fle_fadd_nonpositive; auto. }
  apply Forall_app. split; [exact Hg|].
  apply IH; auto. apply Forall_forall. intros e He.
  apply top_by_score_In in He. rewrite Forall_forall in Hg. auto.
Qed.

(** X7.  When no score is positive the beam search finds nothing better
    than its empty start and returns exactly what the greedy selector
    returns, cost in second place. *)
Theorem beam_without_positive_score_is_greedy
  (score : DataFrame) (cost : option DataFrame) (budget : float)
  (beam_width : nat) (max_iters : option nat) :
  df_all isreal score = true -> cost_ok cost = true ->
  cost_aligned score cost = true -> isnan budget = false ->
  df_all nonpositive score = true ->
  beam_search_pair_selection score cost budget beam_width max_iters
  = Some (greedy_select_under_budget score cost budget).
Proof.
  intros Hreal Hcost Hal Hb Hnp.
  destruct (beam_best_cases score cost budget beam_width max_iters
              Hreal Hcost Hal Hb)
    as [[_ E] | (best & Hin & Hlt & _ & _)]; [exact E|].
  exfalso.
  assert (Hall : Forall (fun e => fle (b_score e) (Fin 0%Qc) = true)
            (concat
               (generations budget beam_width
                  (py_sorted beam_key_lt
                     (filter scored (greedy_flat score cost)))
                  match max_iters with
                  | Some n => n
                  | None =>
                      length (py_sorted beam_key_lt
                                (filter scored (greedy_flat score cost)))
                  end [beam_start]))).
  { apply generations_nonpositive.
    - eapply Forall_impl; [|apply beam_candidates_entries].
      intros cd [Hcd Hs].
      destruct (greedy_flat_entries score cost cd Hcd) as [Ev _].
      assert (Hp : nonpositive (cand_val cd) = true).
      { rewrite Ev. unfold cell_score. now apply loc_or_all. }
      unfold nonpositive in Hp. unfold scored, notnan in Hs.
      apply negb_true_iff in Hs. now rewrite Hs in Hp.
    - constructor; [reflexivity|constructor]. }
  rewrite Forall_forall in Hall. specialize (Hall best Hin).
  apply flt_zero_not_fle in Hlt. congruence.
Qed.

Lemma beam_without_positive_score_is_greedy_witness :
  beam_search_pair_selection score_nonpositive None (fz 2) 2 None
  = Some (greedy_select_under_budget score_nonpositive None (fz 2)).
Proof.
  apply (beam_without_positive_score_is_greedy score_nonpositive None
           (fz 2) 2 None); reflexivity.
Defined.

Lemma fadd_zero_l (x : float) : fadd (Fin 0%Qc) x = x.
Proof.
  destruct x as [| |q|]; simpl; auto. f_equal. apply Qcplus_0_l.
Qed.

Lemma generations_first budget w cands iters beam e :
  (0 < iters)%nat -> In e (next_generation budget cands beam) ->
  In e (concat (generations budget w cands iters beam)).
Proof.
  intros Hpos He. destruct iters as [|n]; [lia|].
  cbn [generations concat]. apply in_or_app. now left.
Qed.

(** X8.  Beam search with at least one iteration does at least as well as
    any single affordable cell: when it returns its own selection the
    returned score is at least the score of every scored cell that fits the
    budget alone; when it falls back to the greedy result no such cell has
    a positive score. *)
Theorem beam_at_least_best_single_cell
  (score : DataFrame) (cost : option DataFrame) (budget : float)
  (beam_width : nat) (max_iters : option nat) (c : cell) :
  df_all isreal score = true -> cost_ok cost = true ->
  cost_aligned score cost = true -> isnan budget = false ->
  max_iters <> Some 0%nat ->
  In c (cells_of score) -> isnan (cell_score score c) = false ->
  fle (cell_cost score cost c) budget = true ->
  exists sel v,
    beam_search_pair_selection score cost budget beam_width max_iters
    = Some (sel, v) /\
    (((sel, v) = greedy_select_under_budget score cost budget /\
      fle (cell_score score c) (Fin 0%Qc) = true) \/
     (flt (Fin 0%Qc) v = true /\ fle (cell_score score c) v = true)).
Proof.
  intros Hreal Hcost Hal Hb Hmi Hc Hn Hfle.
  set (cands := py_sorted beam_key_lt
                  (filter scored (greedy_flat score cost))).
  set (iters := match max_iters with
                | None => length cands
                | Some n => n
                end).
  assert (Hcd : exists cd, In cd cands /\ cand_cell cd = c /\
                           cand_val cd = cell_score score c /\
                           cand_cost cd = cell_cost score cost c).
  { rewrite <- (greedy_flat_cells score cost) in Hc.
    apply in_map_iff in Hc as (cd & <- & Hcd).
    destruct (greedy_flat_entries score cost cd Hcd) as [Ev Ec].
    exists cd. split; [|auto].
    eapply Permutation_in; [apply Permutation_sym, py_sorted_perm|].
    apply filter_In. split; [exact Hcd|].
    unfold scored, notnan. rewrite Ev. now rewrite Hn. }
  destruct Hcd as (cd & Hcd & Ecell & Ev & Ec).
  assert (Hpos : (0 < iters)%nat).
  { unfold iters. destruct max_iters as [[|n]|].
    - congruence.
    - lia.
    - destruct cands; [contradiction|simpl; lia]. }
  assert (Hext : In (extend beam_start cd)
                    (concat (generations budget beam_width cands iters
                               [beam_start]))).
  { apply generations_first; [exact Hpos|].
    apply next_generation_in. exists beam_start, cd.
    split; [now left|]. split; [exact Hcd|]. split; [reflexivity|].
    split; [|reflexivity].
    cbn [beam_start b_cost]. rewrite fadd_zero_l, Ec. exact Hfle. }
  assert (Hsc : b_score (extend beam_start cd) = cell_score score c).
  { cbn [extend beam_start b_score]. now rewrite fadd_zero_l. }
  destruct (beam_best_cases score cost budget beam_width max_iters
              Hreal Hcost Hal Hb)
    as [[Hle E] | (best & Hin & Hlt & Hle & E)].
  - exists (fst (greedy_select_under_budget score cost budget)),
           (snd (greedy_select_under_budget score cost budget)).
    rewrite <- surjective_pairing. split; [exact E|]. left.
    split; [reflexivity|]. rewrite <- Hsc. apply Hle. exact Hext.
  - exists (b_sel best), (b_score best). split; [exact E|]. right.
    split; [exact Hlt|]. rewrite <- Hsc. apply Hle. exact Hext.
Qed.

Lemma beam_at_least_best_single_cell_witness :
  exists sel v,
    beam_search_pair_selection score_1x3 (Some cost_1x3) (fz 5) 1 None
    = Some (sel, v) /\
    (((sel, v) = greedy_select_under_budget score_1x3 (Some cost_1x3)
                   (fz 5) /\
      fle (cell_score score_1x3 ("A1", "B2")%string) (Fin 0%Qc) = true) \/
     (flt (Fin 0%Qc) v = true /\
      fle (cell_score score_1x3 ("A1", "B2")%string) v = true)).
Proof.
  apply (beam_at_least_best_single_cell score_1x3 (Some cost_1x3) (fz 5) 1
           None ("A1", "B2")%string); try reflexivity.
  - discriminate.
  - simpl. auto.
Defined.

(** ** Cost normalization twice, and the complementarity index *)

Lemma flat_values_df_map f df :
  flat_values (df_map f df) = map f (flat_values df).
Proof. unfold flat_values, df_map. cbn [values]. now rewrite concat_map. Qed.

Lemma df_map_fix f df :
  (forall x, In x (flat_values df) -> f x = x) -> df_map f df = df.
Proof.
  intro H. destruct df as [idx cols vals]. unfold df_map. cbn [index columns values].
  f_equal. unfold flat_values in H. cbn [values] in H.
  induction vals as [|r vals IH]; [reflexivity|].
  cbn [map]. f_equal.
  - rewrite <- (map_id r) at 2. apply map_ext_in. intros x Hx.
    apply H. cbn [concat]. apply in_or_app. now left.
  - apply IH. intros x Hx. apply H. cbn [concat]. apply in_or_app. now right.
Qed.

Lemma nanmax_real xs :
  forallb isreal xs = true ->
  nanmax xs = NaN \/ exists m, nanmax xs = Fin m.
Proof.
  intro H. destruct (fmax_fold_real xs NaN H eq_refl) as (Hr & _).
  fold (nanmax xs) in Hr. destruct (nanmax xs) as [| |m|]; try discriminate.
  - now left.
  - right. now exists m.
Qed.

Lemma normalize_costs_unfold costs eps :
  normalize_costs costs eps =
  if fle (if Nat.ltb 0 (df_size costs) then nanmax (flat_values costs)
          else Fin 0%Qc) eps
  then fillna (Fin 0%Qc) costs
  else df_div_scalar costs
         (if Nat.ltb 0 (df_size costs) then nanmax (flat_values costs)
          else Fin 0%Qc).
Proof. reflexivity. Qed.

Lemma df_size_labels x y :
  index x = index y -> columns x = columns y -> df_size x = df_size y.
Proof. unfold df_size. now intros -> ->. Qed.

Lemma fdiv_one (x : float) : isreal x = true -> fdiv x (Fin 1%Qc) = x.
Proof.
  destruct x as [| |v|]; try discriminate; intros _; [reflexivity|].
  cbn [fdiv].
  assert (E : Qc_eqb 1%Qc 0%Qc = false) by (vm_compute; reflexivity).
  rewrite E. f_equal. field. discriminate.
Qed.

(** X9.  Normalising twice is normalising once: on a table of finite or
    missing costs, and for a threshold in [0, 1) such as the default 1e-9,
    [normalize_costs] leaves its own output unchanged. *)
Theorem normalize_costs_idempotent (costs : DataFrame) (e : Qc) :
  df_all isreal costs = true -> (0 <= e)%Qc -> (e < 1)%Qc ->
  normalize_costs (normalize_costs costs (Fin e)) (Fin e)
  = normalize_costs costs (Fin e).
Proof.
  intros Hreal He0 He1.
  pose proof (df_all_flat _ _ Hreal) as Hflat.
  set (c1 := normalize_costs costs (Fin e)).
  assert (Hsize : df_size c1 = df_size costs).
  { apply df_size_labels; apply normalize_costs_labels. }
  rewrite (normalize_costs_unfold c1). rewrite Hsize.
  assert (Hc1 : c1 = normalize_costs costs (Fin e)) by reflexivity.
  rewrite normalize_costs_unfold in Hc1.
  destruct (Nat.ltb 0 (df_size costs)) eqn:Hpos.
  2:{ (* no cell at all: both passes fill *)
    assert (Hz : fle (Fin 0%Qc) (Fin e) = true) by (apply Qc_leb_le, He0).
    rewrite Hz in *. unfold fillna at 1. apply df_map_fix.
    intros x Hx. rewrite Hc1 in Hx. unfold fillna in Hx.
    rewrite flat_values_df_map in Hx.
    apply in_map_iff in Hx as (x0 & <- & _). now destruct x0. }
  destruct (nanmax_real _ Hflat) as [Hm | [m Hm]].
  - (* every entry missing *)
    rewrite Hm in Hc1. cbn [fle] in Hc1.
    assert (Hall : forall x, In x (flat_values c1) -> x = NaN).
    { intros x Hx. rewrite Hc1 in Hx. unfold df_div_scalar in Hx.
      rewrite flat_values_df_map in Hx.
      apply in_map_iff in Hx as (x0 & <- & _). now destruct x0. }
    assert (Hm1 : nanmax (flat_values c1) = NaN).
    { assert (Hr1 : forallb isreal (flat_values c1) = true).
      { apply forallb_forall. intros x Hx. now rewrite (Hall x Hx). }
      destruct (nanmax_real _ Hr1) as [H|[m1 H]]; [exact H|].
      apply (nanmax_attained _ _ Hr1) in H. apply Hall in H. discriminate. }
    rewrite Hm1. cbn [fle]. unfold df_div_scalar. apply df_map_fix.
    intros x Hx. now rewrite (Hall x Hx).
  - rewrite Hm in Hc1. cbn [fle] in Hc1.
    destruct (Qc_leb m e) eqn:Hme.
    + (* small maximum: entries kept, gaps filled *)
      assert (Hall : forall x, In x (flat_values c1) ->
                exists v, x = Fin v /\ (v <= e)%Qc).
      { intros x Hx. rewrite Hc1 in Hx. unfold fillna in Hx.
        rewrite flat_values_df_map in Hx.
        apply in_map_iff in Hx as (x0 & <- & Hx0).
        rewrite forallb_forall in Hflat. pose proof (Hflat x0 Hx0) as Hr.
        destruct x0 as [| |v|]; try discriminate; cbn [isnan].
        - exists 0%Qc. auto.
        - exists v. split; [reflexivity|].
          apply Qcle_trans with m; [|now apply Qc_leb_le].
          apply (nanmax_upper (flat_values costs) m v); auto.
          now apply forallb_forall. }
      assert (Hr1 : forallb isreal (flat_values c1) = true).
      { apply forallb_forall. intros x Hx.
        destruct (Hall x Hx) as (v & -> & _). reflexivity. }
      destruct (nanmax_real _ Hr1) as [Hm1 | [m1 Hm1]]; rewrite Hm1.
      * cbn [fle]. unfold df_div_scalar. apply df_map_fix.
        intros x Hx. pose proof (nanmax_all_nan _ x Hr1 Hm1 Hx) as Hn.
        destruct (Hall x Hx) as (v & -> & _). discriminate.
      * pose proof (nanmax_attained _ _ Hr1 Hm1) as Hin.
        destruct (Hall _ Hin) as (v & Ev & Hv). inversion Ev; subst v.
        cbn [fle]. apply Qc_leb_le in Hv. rewrite Hv.
        unfold fillna. apply df_map_fix. intros x Hx.
        destruct (Hall x Hx) as (v & -> & _). reflexivity.
    + (* proper maximum: after division the maximum is 1 *)
      apply Qc_leb_nle in Hme.
      assert (Hm0 : (0 < m)%Qc) by (eapply Qcle_lt_trans; eauto).
      assert (Hne : Qc_eqb m 0%Qc = false).
      { apply Qc_eqb_neq. intros E0. rewrite E0 in Hm0.
        revert Hm0. apply Qcle_not_lt, Qcle_refl. }
      assert (Hne' : m <> 0%Qc) by now apply Qc_eqb_neq.
      assert (Hall : forall x, In x (flat_values c1) ->
                x = NaN \/ exists v, x = Fin v /\ (v <= 1)%Qc).
      { intros x Hx. rewrite Hc1 in Hx. unfold df_div_scalar in Hx.
        rewrite flat_values_df_map in Hx.
        apply in_map_iff in Hx as (x0 & <- & Hx0).
        rewrite forallb_forall in Hflat. pose proof (Hflat x0 Hx0) as Hr.
        destruct x0 as [| |v|]; try discriminate; cbn [fdiv].
        - now left.
        - right. rewrite Hne. exists (v / m)%Qc. split; [reflexivity|].
          apply Qcdiv_le_one; [exact Hm0|].
          apply (nanmax_upper (flat_values costs) m v); auto.
          now apply forallb_forall. }
      assert (Hone : In (Fin 1%Qc) (flat_values c1)).
      { rewrite Hc1. unfold df_div_scalar. rewrite flat_values_df_map.
        apply in_map_iff. exists (Fin m). split.
        - cbn [fdiv]. rewrite Hne. f_equal. now field.
        - now apply nanmax_attained. }
      assert (Hr1 : forallb isreal (flat_values c1) = true).
      { apply forallb_forall. intros x Hx.
        destruct (Hall x Hx) as [-> | (v & -> & _)]; reflexivity. }
      assert (Hm1 : nanmax (flat_values c1) = Fin 1%Qc).
      { destruct (nanmax_real _ Hr1) as [Hm1 | [m1 Hm1]].
        - pose proof (nanmax_all_nan _ _ Hr1 Hm1 Hone). discriminate.
        - pose proof (nanmax_upper _ m1 1%Qc Hr1 Hm1 Hone) as Hge.
          pose proof (nanmax_attained _ _ Hr1 Hm1) as Hin.
          destruct (Hall _ Hin) as [E | (v & E & Hv)]; [discriminate|].
          inversion E; subst v. rewrite Hm1. f_equal.
          now apply Qcle_antisym. }
      rewrite Hm1. cbn [fle].
      assert (E1 : Qc_leb 1%Qc e = false) by now apply Qc_leb_nle.
      rewrite E1. unfold df_div_scalar. apply df_map_fix.
      intros x Hx. apply fdiv_one.
      rewrite forallb_forall in Hr1. auto.
Qed.

Lemma normalize_costs_idempotent_witness :
  normalize_costs (normalize_costs cost_2x2_gap default_eps) default_eps
  = normalize_costs cost_2x2_gap default_eps.
Proof.
  apply (normalize_costs_idempotent cost_2x2_gap (qfrac 1 1000000000)).
  - reflexivity.
  - unfold Qcle. vm_compute. discriminate.
  - unfold Qclt. vm_compute. reflexivity.
Defined.

Lemma qabs_nonneg (q : Qc) : (0 <= qabs q)%Qc.
Proof.
  unfold qabs. destruct (Qc_ltb q 0%Qc) eqn:E.
  - apply Qc_ltb_lt in E. unfold Qcle, Qclt in *.
    change (this (- q)%Qc) with (Qred (- q)). rewrite Qred_correct.
    change (this 0%Qc) with 0%Q in *. lra.
  - now apply Qc_ltb_nlt in E.
Qed.

Lemma qabs_zero (q : Qc) : qabs q = 0%Qc <-> q = 0%Qc.
Proof.
  unfold qabs. destruct (Qc_ltb q 0%Qc) eqn:E; [|tauto].
  split; intro H.
  - rewrite <- (Qcopp_involutive q), H. reflexivity.
  - rewrite H. reflexivity.
Qed.

Lemma qsum_nonneg (l : list Qc) :
  Forall (fun q => (0 <= q)%Qc) l -> (0 <= qsum l)%Qc.
Proof.
  induction 1 as [|q l Hq Hl IH]; simpl; [apply Qcle_refl|].
  replace 0%Qc with (0 + 0)%Qc by ring. now apply Qcplus_le_compat.
Qed.

Lemma qsum_nonneg_zero (l : list Qc) :
  Forall (fun q => (0 <= q)%Qc) l -> qsum l = 0%Qc ->
  Forall (fun q => q = 0%Qc) l.
Proof.
  induction 1 as [|q l Hq Hl IH]; simpl; intro Hs; [constructor|].
  pose proof (qsum_nonneg l Hl) as Hn.
  assert (Hq0 : q = 0%Qc).
  { apply Qcle_antisym; [|exact Hq].
    rewrite <- Hs. rewrite <- (Qcplus_0_r q) at 1.
    apply Qcplus_le_compat; [apply Qcle_refl|exact Hn]. }
  constructor; [exact Hq0|]. apply IH. rewrite Hq0 in Hs.
  now rewrite Qcplus_0_l in Hs.
Qed.

Lemma fabs_real xs :
  forallb isreal xs = true -> forallb isreal (map fabs xs) = true.
Proof.
  intro H. apply forallb_forall. intros y Hy.
  apply in_map_iff in Hy as (x & <- & Hx).
  rewrite forallb_forall in H. specialize (H x Hx).
  now destruct x.
Qed.

Lemma nansum_abs xs :
  forallb isreal xs = true ->
  nansum (map fabs xs) = Fin (qsum (map (fun x => qabs (fval x)) xs)) /\
  (0 <= qsum (map (fun x => qabs (fval x)) xs))%Qc /\
  (qsum (map (fun x => qabs (fval x)) xs) = 0%Qc <->
   forallb nan_or_zero xs = true).
Proof.
  intro H. split; [|split].
  - rewrite nansum_real by now apply fabs_real.
    f_equal. rewrite map_map. apply qsum_map_ext. intros x Hx.
    rewrite forallb_forall in H. specialize (H x Hx).
    destruct x; try discriminate; reflexivity.
  - apply qsum_nonneg. apply Forall_forall. intros q Hq.
    apply in_map_iff in Hq as (x & <- & _). apply qabs_nonneg.
  - split.
    + intro Hs. apply qsum_nonneg_zero in Hs.
      * apply forallb_forall. intros x Hx. rewrite Forall_forall in Hs.
        rewrite forallb_forall in H. specialize (H x Hx).
        specialize (Hs (qabs (fval x)) (in_map _ _ _ Hx)).
        apply (proj1 (qabs_zero _)) in Hs.
        destruct x; try discriminate; [reflexivity|].
        cbn [nan_or_zero fval] in *. now apply Qc_eqb_eq.
      * apply Forall_forall. intros q Hq.
        apply in_map_iff in Hq as (x & <- & _). apply qabs_nonneg.
    + intro Hz. rewrite <- (qsum_map_zero _ xs).
      apply qsum_map_ext. intros x Hx.
      rewrite forallb_forall in Hz. specialize (Hz x Hx).
      destruct x; try discriminate; [reflexivity|].
      cbn [nan_or_zero fval] in *. apply Qc_eqb_eq in Hz. subst.
      reflexivity.
Qed.


Lemma interaction_flat cm :
  df_wf cm = true ->
  flat_values (interaction_matrix_from_cell_means cm) =
  concat
    (map (fun i =>
       map (fun j =>
          residual (iat cm i j)
            (nanmean (map (iat cm i) (seq 0 (length (columns cm)))))
            (nanmean (map (fun i' => iat cm i' j)
                          (seq 0 (length (index cm)))))
            (nanmean
               (concat (map (fun i' => map (iat cm i')
                                          (seq 0 (length (columns cm))))
                            (seq 0 (length (index cm)))))))
         (seq 0 (length (columns cm))))
       (seq 0 (length (index cm)))).
Proof.
  intro Hwf. destruct (df_wf_parts cm Hwf) as [Hs _].
  unfold interaction_matrix_from_cell_means, flat_values at 1.
  rewrite interaction_loop_values by exact Hwf.
  rewrite (flat_positions cm Hs). reflexivity.
Qed.

Lemma interaction_real cm :
  df_wf cm = true -> df_all isreal cm = true ->
  forallb isreal (flat_values (interaction_matrix_from_cell_means cm)) = true.
Proof.
  intros Hwf Hreal. rewrite (interaction_flat cm Hwf).
  assert (Hx : forall i j, isreal (iat cm i j) = true).
  { intros i j. apply iat_all; [exact Hreal | reflexivity]. }
  apply forallb_forall. intros y Hy. apply in_concat in Hy.
  destruct Hy as [r [Hr Hy]]. apply in_map_iff in Hr.
  destruct Hr as [i [<- Hi]]. apply in_map_iff in Hy.
  destruct Hy as [j [<- Hj]].
  apply (residual_value (iat cm) _ _ i j Hx Hi Hj).
Qed.



Lemma forallb_concat (A : Type) (p : A -> bool) (v : list (list A)) :
  forallb p (concat v) = forallb (forallb p) v.
Proof.
  induction v as [|r v IH]; [reflexivity|].
  cbn [concat forallb]. now rewrite forallb_app, IH.
Qed.

Lemma df_all_is_flat p df : df_all p df = forallb p (flat_values df).
Proof. unfold df_all, flat_values. now rewrite forallb_concat. Qed.


(** X11.  The unnormalized index is zero exactly when every interaction
    residual is zero or missing: a zero index means a table without
    interaction. *)
Theorem pci_simple_zero_iff_no_interaction
  (cell_means : DataFrame) (eps : float) :
  df_wf cell_means = true -> df_all isreal cell_means = true ->
  (pci_simple cell_means false eps = Some (Fin 0%Qc) <->
   df_all nan_or_zero (interaction_matrix_from_cell_means cell_means)
   = true).
Proof.
  intros Hwf Hreal.
  destruct (nansum_abs _ (interaction_real cell_means Hwf Hreal))
    as (Es & _ & Hz).
  unfold pci_simple. cbn [negb]. rewrite Es, df_all_is_flat.
  rewrite <- Hz. split.
  - intro E. now inversion E.
  - intro E. now rewrite E.
Qed.

Lemma pci_simple_zero_iff_no_interaction_witness :
  pci_simple means_2x2 false default_eps = Some (Fin 0%Qc) <->
  df_all nan_or_zero (interaction_matrix_from_cell_means means_2x2) = true.
Proof.
  apply (pci_simple_zero_iff_no_interaction means_2x2 default_eps);
    reflexivity.
Defined.




Lemma nan_or_zero_real x : nan_or_zero x = true -> isreal x = true.
Proof. now destruct x. Qed.

Lemma df_all_impl (p q : float -> bool) df :
  (forall x, p x = true -> q x = true) ->
  df_all p df = true -> df_all q df = true.
Proof.
  intros Hpq H. rewrite df_all_is_flat in *.
  apply forallb_forall. intros x Hx. rewrite forallb_forall in H. auto.
Qed.



(** X13.  A table whose entries are all zero or missing has a zero
    denominator: the normalized index is 0.0 when [eps] is not negative,
    and the division raises ZeroDivisionError when [eps] is negative. *)
Theorem pci_simple_degenerate_table (cell_means : DataFrame) (e : Qc) :
  df_wf cell_means = true -> df_all nan_or_zero cell_means = true ->
  pci_simple cell_means true (Fin e) =
  if Qc_leb 0%Qc e then Some (Fin 0%Qc) else None.
Proof.
  intros Hwf Hz.
  pose proof (df_all_impl _ _ cell_means nan_or_zero_real Hz) as Hreal.
  destruct (nansum_abs _ (interaction_real cell_means Hwf Hreal))
    as (Es & _ & _).
  destruct (nansum_abs _ (df_all_flat _ _ Hreal)) as (Ed & _ & Hd).
  rewrite df_all_is_flat in Hz. apply Hd in Hz.
  unfold pci_simple. rewrite Es, Ed, Hz. cbn [negb fle].
  destruct (Qc_leb 0%Qc e); reflexivity.
Qed.

Lemma pci_simple_degenerate_table_witness :
  pci_simple means_zero true (Fin (- qz 1)%Qc) =
  if Qc_leb 0%Qc (- qz 1)%Qc then Some (Fin 0%Qc) else None.
Proof.
  apply (pci_simple_degenerate_table means_zero (- qz 1)%Qc); reflexivity.
Defined.

(** ** Estimation from rows: cell means and main effects *)

Lemma string_compare_OT (x y : string) :
  String.compare x y = String_as_OT.compare x y.
Proof. reflexivity. Qed.

Lemma string_ltb_lt (x y : string) :
  String.ltb x y = true <-> String_as_OT.lt x y.
Proof.
  unfold String.ltb, String_as_OT.lt. rewrite string_compare_OT.
  destruct (String_as_OT.compare x y); split; congruence.
Qed.

Lemma string_ltb_irrefl (x : string) : String.ltb x x = false.
Proof.
  destruct (String.ltb x x) eqn:E; [|reflexivity].
  apply string_ltb_lt in E.
  exfalso. revert E. apply (StrictOrder_Irreflexive (R := String_as_OT.lt)).
Qed.

Lemma string_ltb_trans (x y z : string) :
  String.ltb x y = true -> String.ltb y z = true -> String.ltb x z = true.
Proof.
  rewrite !string_ltb_lt.
  apply (StrictOrder_Transitive (R := String_as_OT.lt)).
Qed.

Lemma string_ltb_asym (x y : string) :
  String.ltb x y = true -> String.ltb y x = false.
Proof.
  intro H. destruct (String.ltb y x) eqn:E; [|reflexivity].
  pose proof (string_ltb_trans x y x H E) as C.
  now rewrite string_ltb_irrefl in C.
Qed.

Lemma string_ltb_total (x y : string) :
  String.ltb x y = false -> String.ltb y x = false -> x = y.
Proof.
  intros H1 H2.
  destruct (String_as_OT.compare_spec x y) as [E|L|G].
  - exact E.
  - apply string_ltb_lt in L. congruence.
  - apply string_ltb_lt in G. congruence.
Qed.

Lemma string_nlt_trans (x y z : string) :
  String.ltb y x = false -> String.ltb z y = false ->
  String.ltb z x = false.
Proof.
  intros H1 H2. destruct (String.ltb z x) eqn:E; [|reflexivity].
  destruct (String.ltb x y) eqn:Exy.
  - pose proof (string_ltb_trans z x y E Exy). congruence.
  - pose proof (string_ltb_total x y Exy H1). subst. congruence.
Qed.

Lemma existsb_label x ls : existsb (String.eqb x) ls = true <-> In x ls.
Proof.
  rewrite existsb_exists. split.
  - intros (y & Hy & E). apply String.eqb_eq in E. now subst.
  - intro H. exists x. split; [exact H|apply String.eqb_refl].
Qed.

Lemma distinct_labels_in x ls : In x (distinct_labels ls) <-> In x ls.
Proof.
  induction ls as [|y r IH]; [tauto|]. cbn [distinct_labels].
  destruct (existsb (String.eqb y) r) eqn:E.
  - rewrite IH. apply existsb_label in E. split; [now right|].
    intros [<-|H]; auto.
  - cbn [In]. now rewrite IH.
Qed.

Lemma distinct_labels_NoDup ls : NoDup (distinct_labels ls).
Proof.
  induction ls as [|y r IH]; [constructor|]. cbn [distinct_labels].
  destruct (existsb (String.eqb y) r) eqn:E; [exact IH|].
  constructor; [|exact IH]. rewrite distinct_labels_in.
  intro H. apply existsb_label in H. congruence.
Qed.

Lemma sorted_levels_in x ls : In x (sorted_levels ls) <-> In x ls.
Proof.
  unfold sorted_levels. split; intro H.
  - apply distinct_labels_in.
    eapply Permutation_in; [apply py_sorted_perm|exact H].
  - apply distinct_labels_in in H.
    eapply Permutation_in; [apply Permutation_sym, py_sorted_perm|exact H].
Qed.

Lemma sorted_levels_NoDup ls : NoDup (sorted_levels ls).
Proof.
  eapply Permutation_NoDup; [apply Permutation_sym, py_sorted_perm|].
  apply distinct_labels_NoDup.
Qed.

Lemma StronglySorted_strict (A : Type) (R S : A -> A -> Prop) l :
  (forall x y, x <> y -> R x y -> S x y) ->
  NoDup l -> StronglySorted R l -> StronglySorted S l.
Proof.
  intros HRS Hnd Hs. induction Hs as [|x l Hs IH Hall]; [constructor|].
  inversion Hnd as [|? ? Hx Hl]; subst. constructor; [auto|].
  rewrite Forall_forall in *. intros y Hy. apply HRS; [|auto].
  intros ->. contradiction.
Qed.

Lemma sorted_levels_sorted ls :
  StronglySorted (fun x y => String.ltb x y = true) (sorted_levels ls).
Proof.
  apply StronglySorted_strict
    with (R := not_after String.ltb).
  - intros x y Hne H. unfold not_after in H.
    destruct (String.ltb x y) eqn:E; [reflexivity|].
    exfalso. apply Hne. now apply string_ltb_total.
  - apply sorted_levels_NoDup.
  - apply (py_sorted_sorted label String.ltb (fun _ => True)).
    + intros x y _ _. apply string_ltb_asym.
    + intros x y z _ _ _. apply string_nlt_trans.
    + apply Forall_forall. auto.
Qed.

Lemma has_label_true_in ls a : has_label ls a = true -> In a ls.
Proof.
  unfold has_label. destruct (get_loc ls a) as [i|] eqn:E; [|discriminate].
  intros _. rewrite <- (get_loc_nth ls a i E).
  apply nth_In. now apply get_loc_bound in E.
Qed.

Lemma NoDup_unique_labels ls : NoDup ls -> unique_labels ls = true.
Proof.
  induction 1 as [|x r Hx Hr IH]; [reflexivity|].
  cbn [unique_labels]. rewrite IH, andb_true_r.
  destruct (has_label r x) eqn:E; [|reflexivity].
  apply has_label_true_in in E. contradiction.
Qed.

Lemma in_get_loc ls a : In a ls -> exists i, get_loc ls a = Some i.
Proof.
  intro H. apply has_label_in in H. unfold has_label in H.
  destruct (get_loc ls a) as [i|]; [now exists i|discriminate].
Qed.

Lemma built_loc (g : label -> label -> float) idx cols a b :
  In a idx -> In b cols ->
  loc (mkDF idx cols (map (fun a => map (fun b => g a b) cols) idx)) a b
  = Some (g a b).
Proof.
  intros Ha Hb. unfold loc. cbn [index columns].
  destruct (in_get_loc idx a Ha) as [i Ei].
  destruct (in_get_loc cols b Hb) as [j Ej].
  rewrite Ei, Ej. f_equal.
  rewrite built_iat.
  - now rewrite (get_loc_nth _ _ _ Ei), (get_loc_nth _ _ _ Ej).
  - now apply get_loc_bound in Ei.
  - now apply get_loc_bound in Ej.
Qed.

Lemma assoc_key_map (A B : Type) (h : A -> B) k (l : list (key * A)) :
  assoc_key k (map (fun g => (fst g, h (snd g))) l)
  = option_map h (assoc_key k l).
Proof.
  induction l as [|[k' v] r IH]; [reflexivity|].
  cbn [map assoc_key fst snd]. destruct (key_eqb k' k); [reflexivity|exact IH].
Qed.

Lemma assoc_key_some_in (A : Type) k (l : list (key * A)) v :
  assoc_key k l = Some v -> In (k, v) l.
Proof.
  induction l as [|[k' v'] r IH]; [discriminate|].
  cbn [assoc_key]. destruct (key_eqb k' k) eqn:E.
  - intro H. inversion H; subst. apply key_eqb_eq in E. subst. now left.
  - intro H. right. auto.
Qed.

Lemma groupby_lookup (df : observations) k :
  assoc_key k (groupby df) =
  if existsb (key_eqb k) (map fst df)
  then Some (map snd (filter (fun r => key_eqb (fst r) k) df))
  else None.
Proof.
  destruct (existsb (key_eqb k) (map fst df)) eqn:E.
  - apply existsb_key in E. apply groupby_keys in E.
    apply assoc_key_in in E as [v Hv]. rewrite Hv. f_equal.
    apply assoc_key_some_in in Hv. now apply groupby_series.
  - apply assoc_key_absent. rewrite groupby_keys. intro H.
    apply existsb_key in H. congruence.
Qed.

Lemma cell_key_eqb c d : key_eqb (cell_key c) (cell_key d) = cell_eqb c d.
Proof.
  unfold cell_key, cell_eqb. cbn [key_eqb]. now rewrite andb_true_r.
Qed.

Lemma cell_series (df : two_factor_rows) c :
  map snd (filter (fun r => key_eqb (fst r) (cell_key c))
             (map (fun r => (cell_key (fst r), snd r)) df))
  = cell_outcomes df c.
Proof.
  unfold cell_outcomes. induction df as [|r df IH]; [reflexivity|].
  cbn [map filter fst]. rewrite cell_key_eqb.
  destruct (cell_eqb (fst r) c); cbn [map snd]; now rewrite IH.
Qed.

Lemma cell_unobserved (df : two_factor_rows) c :
  ~ In (cell_key c) (map fst (map (fun r => (cell_key (fst r), snd r)) df)) ->
  cell_outcomes df c = [].
Proof.
  intro H. unfold cell_outcomes.
  induction df as [|r df IH]; [reflexivity|].
  cbn [map filter fst] in *.
  destruct (cell_eqb (fst r) c) eqn:E.
  - apply cell_eqb_eq in E. subst c. exfalso. apply H. now left.
  - apply IH. intro Hin. apply H. now right.
Qed.

Lemma nanmean_nil : nanmean [] = NaN.
Proof. reflexivity. Qed.

Lemma cell_mean_lookup (df : two_factor_rows) a b :
  match assoc_key [a; b]
          (map (fun g => (fst g, nanmean (snd g))) (cell_groups df)) with
  | Some v => v
  | None => NaN
  end = nanmean (cell_outcomes df (a, b)).
Proof.
  rewrite assoc_key_map. unfold cell_groups. rewrite groupby_lookup.
  change [a; b] with (cell_key (a, b)).
  destruct (existsb _ _) eqn:E; cbn [option_map].
  - now rewrite cell_series.
  - rewrite cell_unobserved; [reflexivity|].
    intro H. apply existsb_key in H. congruence.
Qed.

Lemma estimate_cell_means_wf (df : two_factor_rows) :
  df_wf (estimate_two_factor_cell_means df) = true.
Proof.
  unfold df_wf, estimate_two_factor_cell_means.
  rewrite built_shape. cbn [index columns andb].
  rewrite !NoDup_unique_labels; [reflexivity| |]; apply sorted_levels_NoDup.
Qed.


(** X14.  [estimate_two_factor_cell_means] returns a well-formed table
    whose row and column labels are the observed levels of the two factors,
    each once and in ascending order; the entry of a cell is the mean of
    the non-missing outcomes of the rows of that cell, and a cell without
    any row (or with missing outcomes only) reads NaN. *)
Theorem estimate_two_factor_cell_means_spec (df : two_factor_rows) :
  let cm := estimate_two_factor_cell_means df in
  df_wf cm = true /\
  (forall a, In a (index cm) <-> In a (map (fun r => fst (fst r)) df)) /\
  (forall b, In b (columns cm) <-> In b (map (fun r => snd (fst r)) df)) /\
  StronglySorted (fun x y => String.ltb x y = true) (index cm) /\
  StronglySorted (fun x y => String.ltb x y = true) (columns cm) /\
  (forall a b, In a (index cm) -> In b (columns cm) ->
     loc cm a b = Some (nanmean (cell_outcomes df (a, b)))) /\
  (forall a b, filter notnan (cell_outcomes df (a, b)) = [] ->
     loc_or NaN cm a b = NaN).
Proof.
  intro cm.
  assert (Hloc : forall a b, In a (index cm) -> In b (columns cm) ->
            loc cm a b = Some (nanmean (cell_outcomes df (a, b)))).
  { intros a b Ha Hb. unfold cm, estimate_two_factor_cell_means in *.
    cbn [index columns] in Ha, Hb.
    rewrite (built_loc (fun a b =>
               match assoc_key [a; b]
                       (map (fun g => (fst g, nanmean (snd g)))
                            (cell_groups df)) with
               | Some v => v
               | None => NaN
               end)) by assumption.
    f_equal. apply cell_mean_lookup. }
  split; [apply estimate_cell_means_wf|].
  split; [intro a; apply sorted_levels_in|].
  split; [intro b; apply sorted_levels_in|].
  split; [apply sorted_levels_sorted|].
  split; [apply sorted_levels_sorted|].
  split; [exact Hloc|].
  intros a b Hnone. unfold loc_or.
  destruct (loc cm a b) as [v|] eqn:E; [|reflexivity].
  assert (Ha : In a (index cm) /\ In b (columns cm)).
  { unfold loc in E.
    destruct (get_loc (index cm) a) as [i|] eqn:Ei; [|discriminate].
    destruct (get_loc (columns cm) b) as [j|] eqn:Ej; [|discriminate].
    split; apply has_label_true_in; unfold has_label.
    - now rewrite Ei.
    - now rewrite Ej. }
  destruct Ha as [Ha Hb]. rewrite (Hloc a b Ha Hb) in E.
  inversion E. unfold nanmean. rewrite Hnone. reflexivity.
Qed.





Lemma distinct_keys_singletons ls :
  distinct_keys (map (fun x : label => [x]) ls)
  = map (fun x => [x]) (distinct_labels ls).
Proof.
  induction ls as [|x r IH]; [reflexivity|].
  cbn [map distinct_keys distinct_labels].
  assert (E : existsb (key_eqb [x]) (map (fun x : label => [x]) r)
              = existsb (String.eqb x) r).
  { clear IH. induction r as [|y r IHr]; [reflexivity|].
    cbn [map existsb]. rewrite IHr. f_equal.
    cbn [key_eqb]. apply andb_true_r. }
  rewrite E. destruct (existsb (String.eqb x) r); [exact IH|].
  cbn [map]. now rewrite IH.
Qed.

Lemma key_ltb_singletons x y : key_ltb [x] [y] = String.ltb x y.
Proof.
  cbn [key_ltb]. destruct (String.eqb x y) eqn:E; [|reflexivity].
  apply String.eqb_eq in E. subst. now rewrite string_ltb_irrefl.
Qed.

Lemma insert_sorted_singletons x l :
  insert_sorted key_ltb [x] (map (fun x : label => [x]) l)
  = map (fun x => [x]) (insert_sorted String.ltb x l).
Proof.
  induction l as [|y l IH]; [reflexivity|].
  cbn [map insert_sorted]. rewrite key_ltb_singletons.
  destruct (String.ltb y x); [|reflexivity].
  cbn [map]. now rewrite IH.
Qed.

Lemma py_sorted_singletons l :
  py_sorted key_ltb (map (fun x : label => [x]) l)
  = map (fun x => [x]) (py_sorted String.ltb l).
Proof.
  induction l as [|x l IH]; [reflexivity|].
  cbn [map py_sorted]. now rewrite IH, insert_sorted_singletons.
Qed.

Lemma rows_at_group (df : list obs_row) f a :
  map snd (filter (fun r => key_eqb (fst r) [a])
             (map (fun r => ([row_level r f], (row_y r, row_w r))) df))
  = rows_at df f a.
Proof.
  unfold rows_at. induction df as [|r df IH]; [reflexivity|].
  cbn [map filter fst key_eqb]. rewrite andb_true_r.
  destruct (String.eqb (row_level r f) a); cbn [map snd]; now rewrite IH.
Qed.

Lemma main_effect_unfold (df : list obs_row) f weighted :
  main_effect df f weighted =
  mkSeries (sorted_levels (map (fun r => row_level r f) df))
    (map (fun a => if weighted then weighted_mean (rows_at df f a)
                   else nanmean (map fst (rows_at df f a)))
         (sorted_levels (map (fun r => row_level r f) df))).
Proof.
  unfold main_effect, groupby_rows.
  rewrite !map_map. cbn [fst snd].
  assert (Ek : @map obs_row key (fun x => [row_level x f]) df
               = map (fun x => [x]) (map (fun r => row_level r f) df))
    by now rewrite map_map.
  rewrite Ek, distinct_keys_singletons, py_sorted_singletons.
  fold (sorted_levels (map (fun r => row_level r f) df)).
  rewrite !map_map. cbn [hd]. rewrite map_id. f_equal.
  apply map_ext. intro a.
  destruct weighted; [f_equal|do 2 f_equal]; apply rows_at_group.
Qed.

Lemma series_loc_built (g : label -> float) l a :
  In a l -> series_loc (mkSeries l (map g l)) a = Some (g a).
Proof.
  intro H. unfold series_loc. cbn [s_index s_values].
  destruct (in_get_loc l a H) as [i Ei]. rewrite Ei. f_equal.
  rewrite (nth_map_in _ _ g l i EmptyString NaN)
    by now apply get_loc_bound in Ei.
  now rewrite (get_loc_nth _ _ _ Ei).
Qed.

Lemma series_loc_absent (g : label -> float) l a :
  ~ In a l -> series_loc (mkSeries l (map g l)) a = None.
Proof.
  intro H. unfold series_loc. cbn [s_index].
  destruct (get_loc l a) as [i|] eqn:E; [|reflexivity].
  exfalso. apply H. apply has_label_true_in. unfold has_label. now rewrite E.
Qed.

Lemma dict_get_set_same (A : Type) k (v : A) d :
  dict_get k (dict_set k v d) = Some v.
Proof.
  induction d as [|[k' v'] r IH]; cbn [dict_set dict_get].
  - now rewrite String.eqb_refl.
  - destruct (String.eqb k' k) eqn:E; cbn [dict_get]; rewrite E; auto.
Qed.

Lemma dict_get_set_other (A : Type) k k' (v : A) d :
  k <> k' -> dict_get k (dict_set k' v d) = dict_get k d.
Proof.
  intro Hne. induction d as [|[k2 v2] r IH]; cbn [dict_set dict_get].
  - destruct (String.eqb k' k) eqn:E; [|reflexivity].
    apply String.eqb_eq in E. congruence.
  - destruct (String.eqb k2 k') eqn:E; cbn [dict_get].
    + apply String.eqb_eq in E. subst k2.
      destruct (String.eqb k' k) eqn:E2; [|reflexivity].
      apply String.eqb_eq in E2. congruence.
    + destruct (String.eqb k2 k); auto.
Qed.

Lemma main_effects_lookup (df : list obs_row) weighted cols : forall d f,
  dict_get f
    (fold_left (fun effects f => dict_set f (main_effect df f weighted)
                                   effects) cols d)
  = if existsb (String.eqb f) cols then Some (main_effect df f weighted)
    else dict_get f d.
Proof.
  induction cols as [|c cols IH]; intros d f; [reflexivity|].
  cbn [fold_left existsb]. rewrite IH.
  destruct (existsb (String.eqb f) cols); [now rewrite orb_true_r|].
  rewrite orb_false_r. destruct (String.eqb f c) eqn:E.
  - apply String.eqb_eq in E. subst c. apply dict_get_set_same.
  - apply dict_get_set_other. intro H. subst c.
    now rewrite String.eqb_refl in E.
Qed.

Lemma estimate_main_effects_get (df : list obs_row) cols weighted f :
  dict_get f (estimate_main_effects df cols weighted) =
  if existsb (String.eqb f) cols then Some (main_effect df f weighted)
  else None.
Proof. unfold estimate_main_effects. now rewrite main_effects_lookup. Qed.

(** X16.  [estimate_main_effects] without weights returns one series per
    requested factor and none for any other name; the series of a factor is
    indexed by the observed levels of that factor, each once and in
    ascending order, and holds at each level the mean of the non-missing
    outcomes of the rows at that level. *)
Theorem estimate_main_effects_unweighted
  (df : list obs_row) (factor_cols : list string) :
  let effects := estimate_main_effects df factor_cols false in
  (forall f, ~ In f factor_cols -> dict_get f effects = None) /\
  (forall f, In f factor_cols ->
     exists s,
       dict_get f effects = Some s /\
       s_index s = sorted_levels (map (fun r => row_level r f) df) /\
       StronglySorted (fun x y => String.ltb x y = true) (s_index s) /\
       (forall a, In a (map (fun r => row_level r f) df) ->
          series_loc s a = Some (nanmean (map fst (rows_at df f a)))) /\
       (forall a, ~ In a (map (fun r => row_level r f) df) ->
          series_loc s a = None)).
Proof.
  intro effects. split.
  - intros f Hf. unfold effects. rewrite estimate_main_effects_get.
    destruct (existsb (String.eqb f) factor_cols) eqn:E; [|reflexivity].
    apply existsb_label in E. contradiction.
  - intros f Hf. exists (main_effect df f false). split.
    + unfold effects. rewrite estimate_main_effects_get.
      apply existsb_label in Hf. now rewrite Hf.
    + rewrite main_effect_unfold. cbn [s_index].
      split; [reflexivity|]. split; [apply sorted_levels_sorted|]. split.
      * intros a Ha.
        apply (series_loc_built
                 (fun a => nanmean (map fst (rows_at df f a)))).
        now apply sorted_levels_in.
      * intros a Ha.
        apply (series_loc_absent
                 (fun a => nanmean (map fst (rows_at df f a)))).
        now rewrite sorted_levels_in.
Qed.

Lemma weighted_mean_formula (g : list (float * float)) :
  Forall (fun yw => isreal (fst yw) = true /\ isfinite (snd yw) = true) g ->
  weighted_mean g =
  if Qc_eqb (qsum (map (fun yw => fval (snd yw)) g)) 0%Qc then NaN
  else Fin (qsum (map (fun yw => fval (fst yw) * fval (snd yw))%Qc g)
            / qsum (map (fun yw => fval (snd yw)) g))%Qc.
Proof.
  intro H. unfold weighted_mean.
  rewrite !nansum_real.
  - rewrite !map_map. cbn [feq].
    assert (E : qsum (map (fun x => fval (fmul (fst x) (snd x))) g)
                = qsum (map (fun yw => fval (fst yw) * fval (snd yw))%Qc g)).
    { apply qsum_map_ext. intros [y w] Hyw. rewrite Forall_forall in H.
      destruct (H _ Hyw) as [Hy Hw]. cbn [fst snd] in *.
      destruct y, w; try discriminate; cbn [fmul fval]; ring. }
    rewrite E.
    destruct (Qc_eqb (qsum (map (fun x => fval (snd x)) g)) 0%Qc) eqn:Ez;
      cbn [negb fdiv]; [reflexivity|].
    now rewrite Ez.
  - apply forallb_forall. intros x Hx. apply in_map_iff in Hx as (yw & <- & Hyw).
    rewrite Forall_forall in H. destruct (H _ Hyw) as [_ Hw].
    now destruct (snd yw).
  - apply forallb_forall. intros x Hx. apply in_map_iff in Hx as (yw & <- & Hyw).
    rewrite Forall_forall in H. destruct (H _ Hyw) as [Hy Hw].
    destruct (fst yw), (snd yw); try discriminate; reflexivity.
Qed.

Lemma rows_at_Forall (P : float * float -> Prop) (Q : obs_row -> Prop)
  (df : list obs_row) f a :
  (forall r, Q r -> P (row_y r, row_w r)) ->
  Forall Q df -> Forall P (rows_at df f a).
Proof.
  intros HQP H. apply Forall_forall. intros yw Hyw.
  unfold rows_at in Hyw. apply in_map_iff in Hyw as (r & <- & Hr).
  apply filter_In in Hr as [Hr _]. rewrite Forall_forall in H. auto.
Qed.

(** X17.  The weighted main effect at a level is the weighted sum of the
    non-missing outcomes over the sum of ALL weights at that level: a row
    whose outcome is missing adds nothing above but still adds its weight
    below.  When the weights at a level add up to zero the effect is NaN;
    nothing is raised. *)
Theorem estimate_main_effects_weighted
  (df : list obs_row) (factor_cols : list string) (f : string) (a : label) :
  Forall (fun r => isreal (row_y r) = true /\ isfinite (row_w r) = true) df ->
  In f factor_cols -> In a (map (fun r => row_level r f) df) ->
  let g := rows_at df f a in
  let sw := qsum (map (fun yw => fval (snd yw)) g) in
  let swy := qsum (map (fun yw => fval (fst yw) * fval (snd yw))%Qc g) in
  exists s,
    dict_get f (estimate_main_effects df factor_cols true) = Some s /\
    series_loc s a = Some (if Qc_eqb sw 0%Qc then NaN else Fin (swy / sw)%Qc).
Proof.
  intros Hdf Hf Ha g sw swy. exists (main_effect df f true). split.
  - rewrite estimate_main_effects_get.
    apply existsb_label in Hf. now rewrite Hf.
  - rewrite main_effect_unfold.
    rewrite (series_loc_built (fun a => weighted_mean (rows_at df f a)))
      by now apply sorted_levels_in.
    f_equal. apply weighted_mean_formula.
    apply (rows_at_Forall _ (fun r => isreal (row_y r) = true /\
                                      isfinite (row_w r) = true));
      [auto|exact Hdf].
Qed.

Lemma estimate_main_effects_weighted_witness :
  exists s,
    dict_get "A"%string (estimate_main_effects toy_df ["A"; "B"]%string true)
    = Some s /\
    series_loc s "A1"%string =
    Some (if Qc_eqb
               (qsum (map (fun yw => fval (snd yw))
                          (rows_at toy_df "A"%string "A1"%string))) 0%Qc
          then NaN
          else Fin (qsum (map (fun yw => fval (fst yw) * fval (snd yw))%Qc
                              (rows_at toy_df "A"%string "A1"%string))
                    / qsum (map (fun yw => fval (snd yw))
                                (rows_at toy_df "A"%string "A1"%string)))%Qc).
Proof.
  apply (estimate_main_effects_weighted toy_df ["A"; "B"]%string
           "A"%string "A1"%string).
  - repeat constructor.
  - simpl. auto.
  - simpl. auto.
Defined.






Example test_estimate_two_factor_cell_means_shape_and_values :
  let cm := estimate_two_factor_cell_means
              [(("A1", "B1")%string, fz 1); (("A1", "B2")%string, fz 2);
               (("A2", "B1")%string, fz 3); (("A2", "B2")%string, fz 4)] in
  (length (index cm), length (columns cm)) = (2, 2)%nat /\
  loc cm "A1"%string "B1"%string = Some (fz 1) /\
  loc cm "A2"%string "B2"%string = Some (fz 4).
Proof.
  cbv zeta. split; [reflexivity|].
  split; apply opt_float_eq; vm_compute; reflexivity.
Qed.

Example test_estimate_main_effects_unweighted :
  let effects := estimate_main_effects toy_df ["A"; "B"]%string false in
  option_map (fun s => (series_loc s "A1"%string, series_loc s "A2"%string))
    (dict_get "A"%string effects)
  = Some (Some (ffrac 3 2), Some (ffrac 7 2)) /\
  option_map (fun s => series_loc s "B1"%string)
    (dict_get "B"%string effects)
  = Some (Some (fz 2)).
Proof.
  cbv zeta. rewrite !estimate_main_effects_get.
  cbn [existsb String.eqb Ascii.eqb Bool.eqb orb option_map].
  split.
  - do 2 f_equal; apply opt_float_eq; vm_compute; reflexivity.
  - f_equal. apply opt_float_eq. vm_compute. reflexivity.
Qed.

(** ** Bootstrap: resamples, key order, percentiles and the pipeline *)

Section ResampleFacts.
Variable rng : Type.
Variable integers : rng -> nat -> nat -> list nat * rng.
Variable stat : list float -> float.
Hypothesis integers_ok : integers_in_range integers.

Lemma replicate_loop_resamples arr n_boot : forall g,
  arr <> [] ->
  Forall (resample_stat stat arr)
         (fst (replicate_loop integers stat arr n_boot g)).
Proof.
  induction n_boot as [|m IH]; intros g Hne; [constructor|].
  cbn [replicate_loop].
  assert (Hpos : (0 < length arr)%nat).
  { destruct arr; [congruence|simpl; lia]. }
  destruct (integers_ok g (length arr) (length arr) Hpos) as [Hlen Hall].
  destruct (integers g (length arr) (length arr)) as [idx g1] eqn:Ei.
  cbn [fst] in Hlen, Hall.
  specialize (IH g1 Hne).
  destruct (replicate_loop integers stat arr m g1) as [rest g2].
  cbn [fst] in *. constructor; [|exact IH].
  exists (map (fun i => nth i arr NaN) idx). split; [|split].
  - now rewrite length_map.
  - apply Forall_forall. intros x Hx. apply in_map_iff in Hx as (i & <- & Hi).
    apply nth_In. rewrite Forall_forall in Hall. auto.
  - reflexivity.
Qed.

Lemma bootstrap_groups_resamples n_boot groups : forall g k reps,
  In (k, reps) (fst (bootstrap_groups integers stat n_boot groups g)) ->
  exists s, In (k, s) groups /\
    ((filter notnan s = [] /\ reps = repeat NaN n_boot) \/
     (filter notnan s <> [] /\
      Forall (resample_stat stat (filter notnan s)) reps)).
Proof.
  induction groups as [|[k' s] r IH]; intros g k reps Hin; [destruct Hin|].
  cbn [bootstrap_groups] in Hin.
  destruct (Nat.eqb (length (filter notnan s)) 0) eqn:E.
  - apply Nat.eqb_eq in E. apply length_zero_iff_nil in E.
    destruct (bootstrap_groups integers stat n_boot r g) as [rest g'] eqn:Er.
    cbn [fst] in Hin. destruct Hin as [Hin|Hin].
    + inversion Hin; subst. exists s. split; [now left|]. left. auto.
    + destruct (IH g k reps) as (s' & Hs' & Hcase).
      * rewrite Er. exact Hin.
      * exists s'. split; [now right|exact Hcase].
  - apply Nat.eqb_neq in E.
    assert (Hne : filter notnan s <> []).
    { intro H. rewrite H in E. now apply E. }
    pose proof (replicate_loop_resamples (filter notnan s) n_boot g Hne)
      as Hres.
    destruct (replicate_loop integers stat (filter notnan s) n_boot g)
      as [reps0 g1].
    destruct (bootstrap_groups integers stat n_boot r g1) as [rest g2] eqn:Er.
    cbn [fst] in Hin, Hres. destruct Hin as [Hin|Hin].
    + inversion Hin; subst. exists s. split; [now left|]. right. auto.
    + destruct (IH g1 k reps) as (s' & Hs' & Hcase).
      * rewrite Er. exact Hin.
      * exists s'. split; [now right|exact Hcase].
Qed.
End ResampleFacts.

Lemma lcg_integers_in_range : integers_in_range lcg_integers.
Proof.
  intros g n k Hn. revert g. induction k as [|k IH]; intro g.
  - split; [reflexivity|constructor].
  - cbn [lcg_integers]. destruct (IH (lcg_next g)) as [Hl Hf].
    destruct (lcg_integers (lcg_next g) n k) as [rest s''].
    cbn [fst] in *. split; [simpl; now rewrite Hl|].
    constructor; [|exact Hf].
    pose proof (Z.mod_pos_bound (lcg_next g) (Z.of_nat n)) as Hb. lia.
Qed.

Lemma In_boot_dict (k : key) (reps : list float) (l : list (key * list float)) :
  existsb (fun kv => key_eqb (fst kv) k && row_eqb (snd kv) reps) l = true ->
  In (k, reps) l.
Proof.
  intro H. apply existsb_exists in H as ([k' r'] & Hin & E).
  cbn [fst snd] in E. apply andb_true_iff in E as [E1 E2].
  apply key_eqb_eq in E1. apply row_eqb_eq in E2. now subst.
Qed.

(** X19.  Every bootstrap replicate is the statistic of a resample: for a
    generator that honours the contract of [rng.integers], each value stored
    for a cell is [stat] applied to a sample of the same size as the cell's
    non-missing outcomes and drawn from them alone; a cell without a
    non-missing outcome holds NaN throughout. *)
Theorem bootstrap_replicates_are_resample_statistics
  (rng : Type) (seeded : Z -> rng)
  (integers : rng -> nat -> nat -> list nat * rng) (fresh : rng)
  (df : observations) (stat : list float -> float) (n_boot : nat)
  (random_state : option Z) (k : key) (reps : list float) :
  integers_in_range integers ->
  In (k, reps)
     (bootstrap_cell_statistics seeded integers fresh df stat n_boot
        random_state) ->
  (group_values df k = [] /\ reps = repeat NaN n_boot) \/
  (group_values df k <> [] /\
   Forall (resample_stat stat (group_values df k)) reps).
Proof.
  intros Hok Hin. unfold bootstrap_cell_statistics in Hin.
  destruct (bootstrap_groups_resamples rng integers stat Hok n_boot
              (groupby df) _ k reps Hin) as (s & Hs & Hcase).
  apply groupby_series in Hs. subst s. exact Hcase.
Qed.

Lemma bootstrap_replicates_are_resample_statistics_witness :
  (group_values obs_diagonal ["A1"; "B1"]%string = [] /\
   [fz 3; fz 3; fz 3] = repeat NaN 3) \/
  (group_values obs_diagonal ["A1"; "B1"]%string <> [] /\
   Forall (resample_stat np_mean
             (group_values obs_diagonal ["A1"; "B1"]%string))
          [fz 3; fz 3; fz 3]).
Proof.
  apply (bootstrap_replicates_are_resample_statistics Z (fun s : Z => s)
           lcg_integers 0%Z obs_diagonal np_mean 3 (Some 7%Z)
           ["A1"; "B1"]%string [fz 3; fz 3; fz 3]).
  - apply lcg_integers_in_range.
  - apply In_boot_dict. vm_compute. reflexivity.
Defined.









Lemma key_ltb_irrefl (x : key) : key_ltb x x = false.
Proof.
  induction x as [|a x IH]; [reflexivity|].
  cbn [key_ltb]. now rewrite String.eqb_refl.
Qed.

Lemma key_ltb_trans (x : key) : forall y z,
  key_ltb x y = true -> key_ltb y z = true -> key_ltb x z = true.
Proof.
  induction x as [|a x IH]; intros [|b y] [|c z]; cbn [key_ltb];
    try discriminate; auto.
  destruct (String.eqb a b) eqn:Eab, (String.eqb b c) eqn:Ebc.
  - apply String.eqb_eq in Eab, Ebc. subst. rewrite String.eqb_refl.
    apply IH.
  - apply String.eqb_eq in Eab. subst. rewrite Ebc. auto.
  - apply String.eqb_eq in Ebc. subst. rewrite Eab. auto.
  - intros H1 H2. pose proof (string_ltb_trans a b c H1 H2) as H3.
    destruct (String.eqb a c) eqn:Eac; [|exact H3].
    apply String.eqb_eq in Eac. subst.
    now rewrite string_ltb_irrefl in H3.
Qed.

Lemma key_ltb_total (x : key) : forall y,
  key_ltb x y = false -> key_ltb y x = false -> x = y.
Proof.
  induction x as [|a x IH]; intros [|b y]; cbn [key_ltb];
    try discriminate; auto.
  rewrite (String.eqb_sym b a).
  destruct (String.eqb a b) eqn:Eab.
  - apply String.eqb_eq in Eab. subst. intros H1 H2. f_equal. now apply IH.
  - intros H1 H2. pose proof (string_ltb_total a b H1 H2). subst.
    now rewrite String.eqb_refl in Eab.
Qed.

Lemma key_ltb_asym (x y : key) :
  key_ltb x y = true -> key_ltb y x = false.
Proof.
  intro H. destruct (key_ltb y x) eqn:E; [|reflexivity].
  pose proof (key_ltb_trans x y x H E) as C.
  now rewrite key_ltb_irrefl in C.
Qed.

Lemma key_nlt_trans (x y z : key) :
  key_ltb y x = false -> key_ltb z y = false -> key_ltb z x = false.
Proof.
  intros H1 H2. destruct (key_ltb z x) eqn:E; [|reflexivity].
  destruct (key_ltb x y) eqn:Exy.
  - pose proof (key_ltb_trans z x y E Exy). congruence.
  - pose proof (key_ltb_total x y Exy H1). subst. congruence.
Qed.

Lemma distinct_keys_NoDup ks : NoDup (distinct_keys ks).
Proof.
  induction ks as [|k r IH]; [constructor|]. cbn [distinct_keys].
  destruct (existsb (key_eqb k) r) eqn:E; [exact IH|].
  constructor; [|exact IH]. rewrite distinct_keys_in.
  intro H. apply existsb_key in H. congruence.
Qed.

Lemma sorted_keys_NoDup ks :
  NoDup (py_sorted key_ltb (distinct_keys ks)).
Proof.
  eapply Permutation_NoDup; [apply Permutation_sym, py_sorted_perm|].
  apply distinct_keys_NoDup.
Qed.

Lemma sorted_keys_sorted ks :
  StronglySorted (fun x y => key_ltb x y = true)
                 (py_sorted key_ltb (distinct_keys ks)).
Proof.
  apply StronglySorted_strict with (R := not_after key_ltb).
  - intros x y Hne H. unfold not_after in H.
    destruct (key_ltb x y) eqn:E; [reflexivity|].
    exfalso. apply Hne. now apply key_ltb_total.
  - apply sorted_keys_NoDup.
  - apply (py_sorted_sorted key key_ltb (fun _ => True)).
    + intros x y _ _. apply key_ltb_asym.
    + intros x y z _ _ _. apply key_nlt_trans.
    + apply Forall_forall. auto.
Qed.

Lemma groupby_key_list (df : observations) :
  map fst (groupby df) = py_sorted key_ltb (distinct_keys (map fst df)).
Proof. unfold groupby. rewrite map_map. cbn [fst]. apply map_id. Qed.

Lemma bootstrap_keys (rng : Type) (seeded : Z -> rng)
  (integers : rng -> nat -> nat -> list nat * rng) (fresh : rng)
  (df : observations) (stat : list float -> float) (n_boot : nat)
  (random_state : option Z) :
  map fst (bootstrap_cell_statistics seeded integers fresh df stat n_boot
             random_state)
  = py_sorted key_ltb (distinct_keys (map fst df)).
Proof.
  unfold bootstrap_cell_statistics.
  rewrite bootstrap_groups_keys. apply groupby_key_list.
Qed.

Lemma bootstrap_to_dataframe_plain (boot_dict : list (key * list float)) :
  bf_index (bootstrap_to_dataframe boot_dict None None) = map fst boot_dict.
Proof.
  unfold bootstrap_to_dataframe. destruct boot_dict as [|[k v] r]; reflexivity.
Qed.

(** X21.  The bootstrap visits the cells in ascending key order: the keys
    of the returned dict are strictly ascending, hence pairwise distinct,
    and they are exactly the observed keys; without level lists the table
    of replicates keeps that order for its rows. *)
Theorem bootstrap_cells_in_sorted_order
  (rng : Type) (seeded : Z -> rng)
  (integers : rng -> nat -> nat -> list nat * rng) (fresh : rng)
  (df : observations) (stat : list float -> float) (n_boot : nat)
  (random_state : option Z) :
  let res := bootstrap_cell_statistics seeded integers fresh df stat n_boot
               random_state in
  StronglySorted (fun x y => key_ltb x y = true) (map fst res) /\
  NoDup (map fst res) /\
  (forall k, In k (map fst res) <-> In k (map fst df)) /\
  bf_index (bootstrap_to_dataframe res None None) = map fst res.
Proof.
  intro res. unfold res. rewrite bootstrap_to_dataframe_plain.
  rewrite bootstrap_keys.
  split; [apply sorted_keys_sorted|].
  split; [apply sorted_keys_NoDup|].
  split; [|reflexivity].
  intro k. split; intro H.
  - apply distinct_keys_in.
    eapply Permutation_in; [apply py_sorted_perm|exact H].
  - apply (proj2 (distinct_keys_in _ _)) in H.
    eapply Permutation_in; [apply Permutation_sym, py_sorted_perm|exact H].
Qed.

Ltac qc2q :=
  unfold Qcle, Qclt, Qcminus, Qcplus, Qcopp, Qcmult, qz in *;
  cbn [this Q2Qc] in *;
  rewrite ?Qred_correct in *.

Lemma frac_bounds (pos : Qc) :
  (0 <= pos - qz (Qfloor pos))%Qc /\ (pos - qz (Qfloor pos) <= 1)%Qc.
Proof.
  pose proof (Qfloor_le pos) as H1. pose proof (Qlt_floor pos) as H2.
  rewrite inject_Z_plus in H2.
  split; qc2q.
  - change (Qred 0) with 0%Q. lra.
  - change (Qred 1) with 1%Q. change (inject_Z 1) with 1%Q in H2. lra.
Qed.

Lemma interpolate_between (x y g : Qc) :
  (x <= y)%Qc -> (0 <= g)%Qc -> (g <= 1)%Qc ->
  (x <= x + (y - x) * g)%Qc /\ (x + (y - x) * g <= y)%Qc.
Proof.
  intros Hxy Hg0 Hg1. split; qc2q; nra.
Qed.

Lemma interpolate_step (x y g1 g2 : Qc) :
  (x <= y)%Qc -> (g1 <= g2)%Qc ->
  (x + (y - x) * g1 <= x + (y - x) * g2)%Qc.
Proof.
  intros Hxy Hg. qc2q. nra.
Qed.

Lemma sorted_nth (s : list Qc) :
  StronglySorted Qcle s ->
  forall i j, (i <= j)%nat -> (j < length s)%nat ->
  (nth i s 0 <= nth j s 0)%Qc.
Proof.
  induction 1 as [|x s Hs IH Hall]; intros i j Hij Hj; [simpl in Hj; lia|].
  destruct i as [|i], j as [|j]; cbn [nth].
  - apply Qcle_refl.
  - rewrite Forall_forall in Hall. apply Hall. apply nth_In.
    simpl in Hj. lia.
  - lia.
  - apply IH; simpl in Hj; lia.
Qed.

Lemma interpolate_range (s : list Qc) (pos : Qc) :
  s <> [] -> StronglySorted Qcle s ->
  let lo := Nat.min (Z.to_nat (Qfloor pos)) (length s - 1) in
  let hi := Nat.min (S lo) (length s - 1) in
  (nth lo s 0 <= interpolate s pos)%Qc /\
  (interpolate s pos <= nth hi s 0)%Qc.
Proof.
  intros Hne Hs lo hi. unfold interpolate. fold lo. fold hi.
  destruct (frac_bounds pos) as [Hg0 Hg1].
  assert (Hlen : (0 < length s)%nat) by (destruct s; [congruence|simpl; lia]).
  apply interpolate_between; auto.
  apply sorted_nth; [exact Hs| |]; unfold hi, lo; lia.
Qed.

Lemma interpolate_mono (s : list Qc) (p1 p2 : Qc) :
  s <> [] -> StronglySorted Qcle s ->
  (0 <= p1)%Qc -> (p1 <= p2)%Qc ->
  (interpolate s p1 <= interpolate s p2)%Qc.
Proof.
  intros Hne Hs H0 H12.
  assert (Hlen : (0 < length s)%nat) by (destruct s; [congruence|simpl; lia]).
  assert (Hf : (Qfloor p1 <= Qfloor p2)%Z) by (apply Qfloor_resp_le, H12).
  assert (Hf0 : (0 <= Qfloor p1)%Z).
  { change 0%Z with (Qfloor 0). apply Qfloor_resp_le. exact H0. }
  destruct (Z.eq_dec (Qfloor p1) (Qfloor p2)) as [E|Ne].
  - unfold interpolate. rewrite <- E.
    apply interpolate_step.
    + apply sorted_nth; [exact Hs| |]; lia.
    + qc2q. lra.
  - destruct (interpolate_range s p1 Hne Hs) as [_ Hup].
    destruct (interpolate_range s p2 Hne Hs) as [Hdown _].
    eapply Qcle_trans; [exact Hup|].
    eapply Qcle_trans; [|exact Hdown].
    apply sorted_nth; [exact Hs| |]; lia.
Qed.

Ltac qc2q_div :=
  unfold Qcle, Qclt, Qcdiv, Qcinv, Qcminus, Qcplus, Qcopp, Qcmult, qz in *;
  cbn [this Q2Qc] in *;
  rewrite ?Qred_correct in *.

Lemma half_alpha_bounds (al : Qc) :
  (0 <= al)%Qc -> (al <= qz 2)%Qc ->
  (0 <= qz 100 * (al / qz 2))%Qc /\
  (qz 100 * (al / qz 2) <= qz 100)%Qc /\
  (0 <= qz 100 * (1 - al / qz 2))%Qc /\
  (qz 100 * (1 - al / qz 2) <= qz 100)%Qc /\
  ((al <= 1)%Qc ->
   (qz 100 * (al / qz 2) <= qz 100 * (1 - al / qz 2))%Qc) /\
  ((1 <= al)%Qc ->
   (qz 100 * (1 - al / qz 2) <= qz 100 * (al / qz 2))%Qc).
Proof.
  intros H0 H2.
  split; [|split; [|split; [|split; [|split; intro H1]]]]; qc2q_div;
    change (inject_Z 100) with 100%Q in *;
    change (inject_Z 2) with 2%Q in *;
    change (Qred 0) with 0%Q in *;
    change (Qred 1) with 1%Q in *; change (/ 2)%Q with (1 # 2)%Q; lra.
Qed.

Lemma virtual_index_mono (n : nat) (q1 q2 : Qc) :
  (0 <= q1)%Qc -> (q1 <= q2)%Qc ->
  (0 <= virtual_index n q1)%Qc /\
  (virtual_index n q1 <= virtual_index n q2)%Qc.
Proof.
  intros H0 H12. pose proof (qz_nat_nonneg (n - 1)) as HN.
  unfold virtual_index. split; qc2q_div;
    change (Qred 0) with 0%Q in *;
    change (/ inject_Z 100)%Q with (1 # 100)%Q; nra.
Qed.

Lemma flt_fin_asym x y :
  isfinite x = true -> isfinite y = true ->
  flt x y = true -> flt y x = false.
Proof.
  destruct x, y; try discriminate. intros _ _. cbn [flt]. intro H. qc_order.
Qed.

Lemma flt_fin_nlt_trans x y z :
  isfinite x = true -> isfinite y = true -> isfinite z = true ->
  flt y x = false -> flt z y = false -> flt z x = false.
Proof.
  destruct x, y, z; try discriminate. intros _ _ _. cbn [flt].
  intros H1 H2. qc_order.
Qed.

Lemma sorted_finite (a : list float) :
  Forall (fun x => isfinite x = true) a ->
  Forall (fun x => isfinite x = true) (py_sorted flt a) /\
  StronglySorted Qcle (map fval (py_sorted flt a)).
Proof.
  intro H. split; [now apply py_sorted_Forall|].
  pose proof (py_sorted_sorted float flt (fun x => isfinite x = true)
                flt_fin_asym flt_fin_nlt_trans a H) as Hs.
  pose proof (py_sorted_Forall float flt (fun x => isfinite x = true) a H)
    as Hf.
  induction Hs as [|x l Hs IH Hall]; [constructor|].
  inversion Hf as [|? ? Hx Hl]; subst.
  cbn [map]. constructor; [now apply IH|].
  apply Forall_forall. intros q Hq. apply in_map_iff in Hq as (y & <- & Hy).
  rewrite Forall_forall in Hall, Hl. specialize (Hall y Hy).
  specialize (Hl y Hy). unfold not_after in Hall.
  destruct x, y; try discriminate. cbn [flt fval] in *.
  now apply Qc_ltb_nlt.
Qed.

Lemma nth_fin (l : list float) i :
  Forall (fun x => isfinite x = true) l -> (i < length l)%nat ->
  nth i l NaN = Fin (nth i (map fval l) 0%Qc).
Proof.
  intros H Hi. rewrite (nth_map_in _ _ fval l i NaN 0%Qc Hi).
  rewrite Forall_forall in H. specialize (H (nth i l NaN) (nth_In l NaN Hi)).
  now destruct (nth i l NaN).
Qed.

Lemma existsb_isnan_finite (a : list float) :
  Forall (fun x => isfinite x = true) a -> existsb isnan a = false.
Proof.
  induction 1 as [|x l Hx Hl IH]; [reflexivity|].
  cbn [existsb]. rewrite IH. now destruct x.
Qed.

Lemma percentile_interpolate (a : list float) (qq : Qc) :
  a <> [] -> Forall (fun x => isfinite x = true) a ->
  Qc_leb 0%Qc qq && Qc_leb qq (qz 100) = true ->
  percentile a (Fin qq) =
  Some (Fin (interpolate (map fval (py_sorted flt a))
                         (virtual_index (length a) qq))).
Proof.
  intros Hne Hfin Hq. unfold percentile. rewrite Hq.
  rewrite (existsb_isnan_finite a Hfin).
  destruct (sorted_finite a Hfin) as [Hsf _].
  assert (Hlen : length (py_sorted flt a) = length a)
    by apply py_sorted_length.
  destruct a as [|x0 a0]; [congruence|].
  set (l := x0 :: a0) in *. cbv zeta.
  assert (Hpos : (0 < length l)%nat) by (simpl; lia).
  unfold interpolate. rewrite length_map, Hlen.
  fold (virtual_index (length l) qq).
  set (pos := virtual_index (length l) qq).
  set (lo := Nat.min (Z.to_nat (Qfloor pos)) (length l - 1)).
  set (hi := Nat.min (S lo) (length l - 1)).
  rewrite (nth_fin _ lo Hsf) by (rewrite Hlen; unfold lo; lia).
  rewrite (nth_fin _ hi Hsf) by (rewrite Hlen; unfold hi; lia).
  reflexivity.
Qed.

Lemma Qfloor_qz (z : Z) : Qfloor (qz z) = z.
Proof.
  unfold qz. cbn [this Q2Qc].
  rewrite (Qfloor_comp _ _ (Qred_correct (inject_Z z))). apply Qfloor_Z.
Qed.

Lemma interpolate_at_integer (s : list Qc) (z : nat) :
  (z <= length s - 1)%nat ->
  interpolate s (qz (Z.of_nat z)) = nth z s 0%Qc.
Proof.
  intro Hz. unfold interpolate. rewrite Qfloor_qz, Nat2Z.id.
  rewrite (Nat.min_l z) by exact Hz. ring.
Qed.

Lemma virtual_index_zero (n : nat) : virtual_index n 0%Qc = qz (Z.of_nat 0).
Proof.
  unfold virtual_index. change (qz (Z.of_nat 0)) with 0%Qc.
  unfold Qcdiv. ring.
Qed.

Lemma virtual_index_hundred (n : nat) :
  virtual_index n (qz 100) = qz (Z.of_nat (n - 1)).
Proof.
  unfold virtual_index. field. intro H. discriminate H.
Qed.

Lemma sorted_members (a : list float) (x : Qc) :
  Forall (fun x => isfinite x = true) a ->
  In x (map fval (py_sorted flt a)) <-> In (Fin x) a.
Proof.
  intro H. destruct (sorted_finite a H) as [Hsf _]. split.
  - intro Hx. apply in_map_iff in Hx as (y & E & Hy).
    rewrite Forall_forall in Hsf. specialize (Hsf y Hy).
    destruct y; try discriminate. cbn [fval] in E. subst.
    eapply Permutation_in; [apply py_sorted_perm|exact Hy].
  - intro Hx. apply in_map_iff. exists (Fin x). split; [reflexivity|].
    eapply Permutation_in; [apply Permutation_sym, py_sorted_perm|exact Hx].
Qed.

Lemma within_finite lo hi a :
  Forall (within lo hi) a -> Forall (fun x => isfinite x = true) a.
Proof.
  intro H. eapply Forall_impl; [|exact H]. intros x (q & -> & _). reflexivity.
Qed.

Lemma sorted_data_bounds (a : list float) (lo hi : Qc) :
  a <> [] -> Forall (within lo hi) a ->
  let s := map fval (py_sorted flt a) in
  s <> [] /\ length s = length a /\ StronglySorted Qcle s /\
  forall i, (i < length s)%nat ->
    In (Fin (nth i s 0%Qc)) a /\
    (lo <= nth i s 0)%Qc /\ (nth i s 0 <= hi)%Qc.
Proof.
  intros Hne Hall s.
  pose proof (within_finite lo hi a Hall) as Hfin.
  destruct (sorted_finite a Hfin) as [Hsf Hs]. fold s in Hs.
  assert (Hlen : length s = length a).
  { unfold s. rewrite length_map. apply py_sorted_length. }
  assert (Hpos : (0 < length a)%nat) by (destruct a; [congruence|simpl; lia]).
  split; [|split; [exact Hlen|split; [exact Hs|]]].
  { intro E. rewrite E in Hlen. simpl in Hlen. lia. }
  intros i Hi.
  assert (Hm : In (Fin (nth i s 0%Qc)) a).
  { apply (sorted_members a _ Hfin). now apply nth_In. }
  split; [exact Hm|]. rewrite Forall_forall in Hall.
  destruct (Hall _ Hm) as (q & E & Hb). inversion E; subst. exact Hb.
Qed.

Lemma percentile_within (a : list float) (qq lo hi : Qc) :
  a <> [] -> Forall (within lo hi) a ->
  (0 <= qq)%Qc -> (qq <= qz 100)%Qc ->
  exists p, percentile a (Fin qq) = Some (Fin p) /\
            (lo <= p)%Qc /\ (p <= hi)%Qc.
Proof.
  intros Hne Hall Hq0 Hq1.
  pose proof (within_finite lo hi a Hall) as Hfin.
  destruct (sorted_data_bounds a lo hi Hne Hall)
    as (Hsne & Hlen & Hs & Hin).
  assert (Hpos : (0 < length a)%nat) by (destruct a; [congruence|simpl; lia]).
  rewrite percentile_interpolate; auto.
  2:{ apply andb_true_iff. split; now apply Qc_leb_le. }
  eexists. split; [reflexivity|].
  destruct (interpolate_range _ (virtual_index (length a) qq) Hsne Hs)
    as [Hd Hu].
  split.
  - eapply Qcle_trans; [|exact Hd]. apply Hin. lia.
  - eapply Qcle_trans; [exact Hu|]. apply Hin. lia.
Qed.

(** X22.  A percentile of finite data lies within the data: for a
    non-empty array of finite values between [lo] and [hi] and any [q] in
    [0, 100], [np.percentile] returns a value between [lo] and [hi]; the
    0th percentile is the smallest element and the 100th the largest. *)
Theorem percentile_within_data_range (a : list float) (qq lo hi : Qc) :
  a <> [] -> Forall (within lo hi) a ->
  (0 <= qq)%Qc -> (qq <= qz 100)%Qc ->
  (exists p, percentile a (Fin qq) = Some p /\ within lo hi p) /\
  (exists m, percentile a (Fin 0%Qc) = Some (Fin m) /\ In (Fin m) a /\
             forall x, In (Fin x) a -> (m <= x)%Qc) /\
  (exists M, percentile a (Fin (qz 100)) = Some (Fin M) /\ In (Fin M) a /\
             forall x, In (Fin x) a -> (x <= M)%Qc).
Proof.
  intros Hne Hall Hq0 Hq1.
  pose proof (within_finite lo hi a Hall) as Hfin.
  destruct (sorted_data_bounds a lo hi Hne Hall)
    as (Hsne & Hlen & Hs & Hin).
  set (s := map fval (py_sorted flt a)) in *.
  assert (Hpos : (0 < length a)%nat) by (destruct a; [congruence|simpl; lia]).
  split; [|split].
  - destruct (percentile_within a qq lo hi Hne Hall Hq0 Hq1)
      as (p & E & Hb).
    exists (Fin p). split; [exact E|]. exists p. auto.
  - rewrite percentile_interpolate; auto. fold s.
    rewrite virtual_index_zero, interpolate_at_integer by lia.
    eexists. split; [reflexivity|]. split; [apply Hin; lia|].
    intros x Hx. apply (sorted_members a x Hfin) in Hx. fold s in Hx.
    apply (In_nth _ _ 0%Qc) in Hx as (j & Hj & <-).
    apply sorted_nth; [exact Hs|lia|exact Hj].
  - rewrite percentile_interpolate; auto. fold s.
    rewrite virtual_index_hundred, interpolate_at_integer by lia.
    eexists. split; [reflexivity|]. split; [apply Hin; lia|].
    intros x Hx. apply (sorted_members a x Hfin) in Hx. fold s in Hx.
    apply (In_nth _ _ 0%Qc) in Hx as (j & Hj & <-).
    apply sorted_nth; [exact Hs|lia|lia].
Qed.

Lemma percentile_within_data_range_witness :
  (exists p, percentile [fz 4; fz 0; fz 2] (Fin (qz 50)) = Some p /\
             within (qz 0) (qz 4) p) /\
  (exists m, percentile [fz 4; fz 0; fz 2] (Fin 0%Qc) = Some (Fin m) /\
             In (Fin m) [fz 4; fz 0; fz 2] /\
             forall x, In (Fin x) [fz 4; fz 0; fz 2] -> (m <= x)%Qc) /\
  (exists M, percentile [fz 4; fz 0; fz 2] (Fin (qz 100)) = Some (Fin M) /\
             In (Fin M) [fz 4; fz 0; fz 2] /\
             forall x, In (Fin x) [fz 4; fz 0; fz 2] -> (x <= M)%Qc).
Proof.
  apply (percentile_within_data_range [fz 4; fz 0; fz 2] (qz 50) (qz 0)
           (qz 4)).
  - discriminate.
  - repeat constructor;
      (eexists; split; [reflexivity|];
       split; unfold Qcle; vm_compute; discriminate).
  - unfold Qcle. vm_compute. discriminate.
  - unfold Qcle. vm_compute. discriminate.
Defined.

Lemma real_present_finite (xs : list float) :
  forallb isreal xs = true ->
  Forall (fun x => isfinite x = true) (filter notnan xs).
Proof.
  intro H. apply Forall_forall. intros x Hx. apply filter_In in Hx as [Hx Hn].
  rewrite forallb_forall in H. specialize (H x Hx). now destruct x.
Qed.

Lemma half_alpha_quantiles (al : Qc) :
  fmul (fz 100) (fdiv (Fin al) (fz 2)) = Fin (qz 100 * (al / qz 2))%Qc /\
  fmul (fz 100) (one_minus_half (Fin al))
  = Fin (qz 100 * (1 - al / qz 2))%Qc.
Proof.
  unfold one_minus_half, fz. cbn [fdiv].
  assert (E : Qc_eqb (qz 2) 0%Qc = false) by (vm_compute; reflexivity).
  rewrite E. cbn [fsub fopp fadd fmul]. split; reflexivity.
Qed.

Lemma row_quantiles_ordered (al : Qc) (xs : list float) :
  forallb isreal xs = true -> filter notnan xs <> [] ->
  (0 <= al)%Qc -> (al <= qz 2)%Qc ->
  exists l u,
    row_quantile (fdiv (Fin al) (fz 2)) xs = Some (Fin l) /\
    row_quantile (one_minus_half (Fin al)) xs = Some (Fin u) /\
    ((al <= 1)%Qc -> (l <= u)%Qc) /\ ((1 <= al)%Qc -> (u <= l)%Qc).
Proof.
  intros Hreal Hne H0 H2.
  pose proof (real_present_finite xs Hreal) as Hfin.
  destruct (half_alpha_bounds al H0 H2) as (A0 & A1 & B0 & B1 & Hle & Hge).
  destruct (half_alpha_quantiles al) as [E1 E2].
  unfold row_quantile. rewrite E1, E2.
  rewrite !percentile_interpolate; auto.
  - eexists. eexists. split; [reflexivity|]. split; [reflexivity|].
    destruct (sorted_finite _ Hfin) as [_ Hs].
    assert (Hsne : map fval (py_sorted flt (filter notnan xs)) <> []).
    { intro E. apply (f_equal (@length Qc)) in E.
      rewrite length_map, py_sorted_length in E.
      destruct (filter notnan xs); [congruence|discriminate]. }
    split; intro H1.
    + destruct (virtual_index_mono (length (filter notnan xs)) _ _ A0
                  (Hle H1)) as [V0 V1].
      now apply interpolate_mono.
    + destruct (virtual_index_mono (length (filter notnan xs)) _ _ B0
                  (Hge H1)) as [V0 V1].
      now apply interpolate_mono.
  - apply andb_true_iff. split; now apply Qc_leb_le.
  - apply andb_true_iff. split; now apply Qc_leb_le.
Qed.

Lemma percentile_rows_ordered (al : Qc) (rows : list (key * list float)) :
  Forall (fun kv => forallb isreal (snd kv) = true /\
                    filter notnan (snd kv) <> []) rows ->
  (0 <= al)%Qc -> (al <= qz 2)%Qc ->
  forall sqrt,
  exists out,
    percentile_rows sqrt (Fin al) rows = Some out /\
    map ci_key out = map fst rows /\
    Forall (fun r => exists l u, ci_lower r = Fin l /\ ci_upper r = Fin u /\
                                 ((al <= 1)%Qc -> (l <= u)%Qc) /\
                                 ((1 <= al)%Qc -> (u <= l)%Qc)) out.
Proof.
  intros H H0 H2 sqrt.
  induction H as [|[k xs] rows [Hreal Hne] Hrows IH].
  - exists []. repeat split; constructor.
  - destruct IH as (out & Eout & Ekeys & Hord).
    destruct (row_quantiles_ordered al xs Hreal Hne H0 H2)
      as (l & u & El & Eu & Hlu).
    cbn [percentile_rows snd] in *. rewrite El, Eu, Eout.
    eexists. split; [reflexivity|]. cbn [map ci_key fst]. split.
    + now rewrite Ekeys.
    + constructor; [|exact Hord].
      exists l, u. cbn [ci_lower ci_upper]. auto.
Qed.

Lemma one_le_two : (1 <= qz 2)%Qc.
Proof. unfold Qcle. vm_compute. discriminate. Qed.

(** X23.  The percentile interval is a proper interval: for a level
    [alpha] in [0, 1] and a table of replicates whose rows each hold at
    least one non-missing value, [compute_bootstrap_ci] in percentile mode
    returns one row per cell, in table order, with a finite lower bound
    that is at most the finite upper bound, and leaves the global
    generator untouched. *)
Theorem percentile_ci_is_ordered
  (gstate : Type) (standard_normal : gstate -> nat -> list float * gstate)
  (sqrt : Qc -> Qc) (boot_df : BootFrame) (al : Qc) (g : gstate) :
  bf_empty boot_df = false ->
  Forall (fun kv => forallb isreal (snd kv) = true /\
                    filter notnan (snd kv) <> [])
         (combine (bf_index boot_df) (bf_values boot_df)) ->
  (0 <= al)%Qc -> (al <= 1)%Qc ->
  exists rows,
    compute_bootstrap_ci standard_normal sqrt boot_df (Fin al) "percentile" g
    = (Some rows, g) /\
    map ci_key rows
    = map fst (combine (bf_index boot_df) (bf_values boot_df)) /\
    Forall (fun r => exists l u, ci_lower r = Fin l /\ ci_upper r = Fin u /\
                                 (l <= u)%Qc) rows.
Proof.
  intros Hne Hrows H0 H1.
  destruct (percentile_rows_ordered al _ Hrows H0
              (Qcle_trans _ _ _ H1 one_le_two) sqrt)
    as (out & Eout & Ekeys & Hord).
  exists out. unfold compute_bootstrap_ci. rewrite Hne.
  cbn [String.eqb Ascii.eqb Bool.eqb andb]. rewrite Eout.
  split; [reflexivity|]. split; [exact Ekeys|].
  eapply Forall_impl; [|exact Hord].
  intros r (l & u & El & Eu & Hle & _). exists l, u. auto.
Qed.

Lemma percentile_ci_is_ordered_witness :
  exists rows,
    compute_bootstrap_ci tape_standard_normal sqrt_floor boot_one_cell
      (Fin (qfrac 1 20)) "percentile" (tape_of 0)
    = (Some rows, tape_of 0) /\
    map ci_key rows
    = map fst (combine (bf_index boot_one_cell) (bf_values boot_one_cell)) /\
    Forall (fun r => exists l u, ci_lower r = Fin l /\ ci_upper r = Fin u /\
                                 (l <= u)%Qc) rows.
Proof.
  apply (percentile_ci_is_ordered tape tape_standard_normal sqrt_floor
           boot_one_cell (qfrac 1 20) (tape_of 0)).
  - reflexivity.
  - repeat constructor. discriminate.
  - unfold Qcle. vm_compute. discriminate.
  - unfold Qcle. vm_compute. discriminate.
Defined.

Lemma half_alpha_out_of_range (al : Qc) :
  (al < 0)%Qc \/ (qz 2 < al)%Qc ->
  Qc_leb 0%Qc (qz 100 * (al / qz 2))%Qc
  && Qc_leb (qz 100 * (al / qz 2))%Qc (qz 100) = false.
Proof.
  intros [H|H]; apply andb_false_iff; [left|right]; apply Qc_leb_nle;
    qc2q_div;
    change (inject_Z 100) with 100%Q in *;
    change (inject_Z 2) with 2%Q in *;
    change (Qred 0) with 0%Q in *; change (/ 2)%Q with (1 # 2)%Q; lra.
Qed.

(** X24.  What [compute_bootstrap_ci] does with its arguments on a
    non-empty table.  A method other than 'percentile' and 'se' raises.  In
    percentile mode a level outside [0, 2] raises (the quantile level
    [alpha / 2] leaves [0, 1]); a level between 1 and 2 is accepted without
    complaint and yields reversed bounds: the reported upper bound is at
    most the reported lower bound. *)
Theorem percentile_ci_alpha_validation
  (gstate : Type) (standard_normal : gstate -> nat -> list float * gstate)
  (sqrt : Qc -> Qc) (boot_df : BootFrame) (al : Qc) (g : gstate) :
  bf_empty boot_df = false ->
  combine (bf_index boot_df) (bf_values boot_df) <> [] ->
  Forall (fun kv => forallb isreal (snd kv) = true /\
                    filter notnan (snd kv) <> [])
         (combine (bf_index boot_df) (bf_values boot_df)) ->
  (forall method alpha,
     String.eqb method "percentile" = false ->
     String.eqb method "se" = false ->
     compute_bootstrap_ci standard_normal sqrt boot_df alpha method g
     = (None, g)) /\
  ((al < 0)%Qc \/ (qz 2 < al)%Qc ->
   compute_bootstrap_ci standard_normal sqrt boot_df (Fin al) "percentile" g
   = (None, g)) /\
  ((1 <= al)%Qc -> (al <= qz 2)%Qc ->
   exists rows,
     compute_bootstrap_ci standard_normal sqrt boot_df (Fin al) "percentile"
       g = (Some rows, g) /\
     Forall (fun r => exists l u, ci_lower r = Fin l /\ ci_upper r = Fin u /\
                                  (u <= l)%Qc) rows).
Proof.
  intros Hne Hrows Hall. split; [|split].
  - intros method alpha Hp Hs. unfold compute_bootstrap_ci.
    now rewrite Hne, Hp, Hs.
  - intro Hout. unfold compute_bootstrap_ci. rewrite Hne.
    cbn [String.eqb Ascii.eqb Bool.eqb andb].
    destruct (combine (bf_index boot_df) (bf_values boot_df))
      as [|[k xs] rows]; [congruence|].
    cbn [percentile_rows]. unfold row_quantile at 1.
    destruct (half_alpha_quantiles al) as [E1 _]. rewrite E1.
    unfold percentile at 1. rewrite (half_alpha_out_of_range al Hout).
    reflexivity.
  - intros H1 H2.
    assert (H0 : (0 <= al)%Qc).
    { eapply Qcle_trans; [|exact H1]. unfold Qcle. vm_compute. discriminate. }
    destruct (percentile_rows_ordered al _ Hall H0 H2 sqrt)
      as (out & Eout & _ & Hord).
    exists out. unfold compute_bootstrap_ci. rewrite Hne.
    cbn [String.eqb Ascii.eqb Bool.eqb andb]. rewrite Eout.
    split; [reflexivity|].
    eapply Forall_impl; [|exact Hord].
    intros r (l & u & El & Eu & _ & Hge). exists l, u. auto.
Qed.

Lemma percentile_ci_alpha_validation_witness :
  (forall method alpha,
     String.eqb method "percentile" = false ->
     String.eqb method "se" = false ->
     compute_bootstrap_ci tape_standard_normal sqrt_floor boot_one_cell
       alpha method (tape_of 0) = (None, tape_of 0)) /\
  ((qz 3 < 0)%Qc \/ (qz 2 < qz 3)%Qc ->
   compute_bootstrap_ci tape_standard_normal sqrt_floor boot_one_cell
     (Fin (qz 3)) "percentile" (tape_of 0) = (None, tape_of 0)) /\
  ((1 <= qz 3)%Qc -> (qz 3 <= qz 2)%Qc ->
   exists rows,
     compute_bootstrap_ci tape_standard_normal sqrt_floor boot_one_cell
       (Fin (qz 3)) "percentile" (tape_of 0) = (Some rows, tape_of 0) /\
     Forall (fun r => exists l u, ci_lower r = Fin l /\ ci_upper r = Fin u /\
                                  (u <= l)%Qc) rows).
Proof.
  apply (percentile_ci_alpha_validation tape tape_standard_normal sqrt_floor
           boot_one_cell (qz 3) (tape_of 0)).
  - reflexivity.
  - discriminate.
  - repeat constructor. discriminate.
Defined.



Lemma map_fst_combine (A B : Type) (l : list A) (l' : list B) :
  length l = length l' -> map fst (combine l l') = l.
Proof.
  revert l'. induction l as [|x l IH]; intros [|y l'] H; try discriminate;
    [reflexivity|].
  cbn [combine map fst]. f_equal. apply IH. simpl in H. lia.
Qed.













(** ** Uncertainty from bootstrap draws, and the variance shares *)

Lemma set_loc_in_grid df a b v :
  has_label (index df) a = true -> has_label (columns df) b = true ->
  set_loc df a b v =
  mkDF (index df) (columns df)
    (map (fun ir =>
       map (fun jx =>
          if String.eqb (fst ir) a && String.eqb (fst jx) b then v
          else snd jx)
         (combine (columns df) (snd ir)))
       (combine (index df) (values df))).
Proof.
  intros Ha Hb. unfold set_loc. rewrite Ha. cbv zeta. rewrite Hb. reflexivity.
Qed.

Lemma set_loc_labels df a b v :
  has_label (index df) a = true -> has_label (columns df) b = true ->
  index (set_loc df a b v) = index df /\
  columns (set_loc df a b v) = columns df.
Proof.
  intros Ha Hb. rewrite (set_loc_in_grid df a b v Ha Hb). split; reflexivity.
Qed.

Lemma set_loc_shape df a b v :
  has_label (index df) a = true -> has_label (columns df) b = true ->
  df_shape df = true -> df_shape (set_loc df a b v) = true.
Proof.
  intros Ha Hb Hs. rewrite (set_loc_in_grid df a b v Ha Hb).
  unfold df_shape in *. cbn [index columns values].
  apply andb_true_iff in Hs as [H1 H2]. apply Nat.eqb_eq in H1.
  apply andb_true_iff. split.
  - apply Nat.eqb_eq. rewrite length_map, length_combine. lia.
  - apply forallb_forall. intros r Hr. apply in_map_iff in Hr as (ir & <- & Hir).
    apply Nat.eqb_eq. rewrite length_map, length_combine.
    destruct ir as [i0 r0]. apply in_combine_r in Hir. cbn [snd].
    rewrite forallb_forall in H2. specialize (H2 r0 Hir).
    apply Nat.eqb_eq in H2. lia.
Qed.

Lemma set_loc_iat df a b v i j :
  has_label (index df) a = true -> has_label (columns df) b = true ->
  df_shape df = true ->
  (i < length (index df))%nat -> (j < length (columns df))%nat ->
  iat (set_loc df a b v) i j =
  if String.eqb (nth i (index df) EmptyString) a
     && String.eqb (nth j (columns df) EmptyString) b
  then v else iat df i j.
Proof.
  intros Ha Hb Hs Hi Hj. rewrite (set_loc_in_grid df a b v Ha Hb).
  destruct (df_shape_rows df Hs) as [Hlen Hrows].
  unfold iat. cbn [values].
  rewrite (nth_map_in _ _ _ (combine (index df) (values df)) i
             (EmptyString, []) [])
    by (rewrite length_combine; lia).
  rewrite combine_nth by exact (eq_sym Hlen). cbn [fst snd].
  rewrite (nth_map_in _ _ _
             (combine (columns df) (nth i (values df) [])) j
             (EmptyString, NaN) NaN)
    by (rewrite length_combine, Hrows; lia).
  rewrite combine_nth by exact (eq_sym (Hrows i Hi)).
  reflexivity.
Qed.

Lemma set_loc_loc df a b v a' b' :
  has_label (index df) a = true -> has_label (columns df) b = true ->
  df_shape df = true ->
  loc (set_loc df a b v) a' b' =
  match loc df a' b' with
  | Some x => Some (if String.eqb a' a && String.eqb b' b then v else x)
  | None => None
  end.
Proof.
  intros Ha Hb Hs. destruct (set_loc_labels df a b v Ha Hb) as [Ei Ec].
  unfold loc. rewrite Ei, Ec.
  destruct (get_loc (index df) a') as [i|] eqn:Gi; [|reflexivity].
  destruct (get_loc (columns df) b') as [j|] eqn:Gj; [|reflexivity].
  rewrite set_loc_iat; auto.
  - now rewrite (get_loc_nth _ _ _ Gi), (get_loc_nth _ _ _ Gj).
  - now apply get_loc_bound in Gi.
  - now apply get_loc_bound in Gj.
Qed.

Lemma pair_key_eqb a0 b0 a b :
  key_eqb [a0; b0] [a; b] = String.eqb a a0 && String.eqb b b0.
Proof.
  cbn [key_eqb]. now rewrite andb_true_r, (String.eqb_sym a0 a),
    (String.eqb_sym b0 b).
Qed.

Lemma uncertainty_loop_in_grid (sqrt : Qc -> Qc)
  (np_attr : string -> option (list float -> float)) (aggfunc : string)
  (f : list float -> float) (items : list (key * list float)) : forall df,
  (forall arr, aggregate sqrt np_attr aggfunc arr = Some (f arr)) ->
  Forall (fun kv => exists a b, fst kv = [a; b] /\
                                has_label (index df) a = true /\
                                has_label (columns df) b = true) items ->
  NoDup (map fst items) ->
  df_shape df = true ->
  exists out,
    uncertainty_loop sqrt np_attr aggfunc items df = Some out /\
    index out = index df /\ columns out = columns df /\
    df_shape out = true /\
    forall a b,
      loc out a b =
      match loc df a b with
      | Some x => Some (match assoc_key [a; b] items with
                        | Some arr => f arr
                        | None => x
                        end)
      | None => None
      end.
Proof.
  induction items as [|[k arr] r IH]; intros df Hagg Hgrid Hnd Hs.
  - exists df. cbn [uncertainty_loop assoc_key].
    repeat split; auto. intros a b. now destruct (loc df a b).
  - inversion Hgrid as [|? ? (a0 & b0 & Ek & Ha0 & Hb0) Hrest]; subst.
    inversion Hnd as [|? ? Hk Hnd']; subst.
    cbn [fst] in Ek, Hk. subst k.
    cbn [uncertainty_loop]. rewrite Hagg.
    destruct (set_loc_labels df a0 b0 (f arr) Ha0 Hb0) as [Ei Ec].
    destruct (IH (set_loc df a0 b0 (f arr))) as (out & Eout & Oi & Oc & Os & Hloc).
    + exact Hagg.
    + eapply Forall_impl; [|exact Hrest].
      intros kv (a & b & E & Ha & Hb). exists a, b. rewrite Ei, Ec. auto.
    + exact Hnd'.
    + now apply set_loc_shape.
    + exists out. split; [exact Eout|].
      split; [now rewrite Oi|]. split; [now rewrite Oc|].
      split; [exact Os|].
      intros a b. rewrite Hloc, (set_loc_loc df a0 b0 (f arr) a b Ha0 Hb0 Hs).
      destruct (loc df a b) as [x|]; [|reflexivity].
      cbn [assoc_key]. rewrite pair_key_eqb.
      destruct (String.eqb a a0 && String.eqb b b0) eqn:E; [|reflexivity].
      apply andb_true_iff in E as [E1 E2].
      apply String.eqb_eq in E1, E2. subst a0 b0.
      now rewrite (assoc_key_absent _ [a; b] r Hk).
Qed.

Lemma df_const_shape v idx cols : df_shape (df_const v idx cols) = true.
Proof.
  unfold df_const. apply (built_shape (fun _ _ => v)).
Qed.

Lemma df_const_loc v idx cols a b :
  In a idx -> In b cols -> loc (df_const v idx cols) a b = Some v.
Proof.
  intros Ha Hb. unfold df_const. apply (built_loc (fun _ _ => v)); auto.
Qed.

Lemma assoc_key_NoDup (A : Type) k (v : A) (l : list (key * A)) :
  NoDup (map fst l) -> In (k, v) l -> assoc_key k l = Some v.
Proof.
  induction l as [|[k' v'] r IH]; intros Hnd Hin; [destruct Hin|].
  inversion Hnd as [|? ? Hk Hnd']; subst. cbn [assoc_key].
  destruct Hin as [E|Hin].
  - inversion E; subst. now rewrite key_eqb_refl.
  - destruct (key_eqb k' k) eqn:E.
    + apply key_eqb_eq in E. subst k'. exfalso. apply Hk.
      apply in_map_iff. exists (k, v). auto.
    + auto.
Qed.

Lemma uncertainty_grid_table (sqrt : Qc -> Qc)
  (np_attr : string -> option (list float -> float)) (aggfunc : string)
  (f : list float -> float) (bv : list (key * list float))
  (la lb : list label) :
  (forall arr, aggregate sqrt np_attr aggfunc arr = Some (f arr)) ->
  Forall (fun k => exists a b, k = [a; b] /\ In a la /\ In b lb)
         (map fst bv) ->
  NoDup (map fst bv) ->
  exists u,
    uncertainty_loop sqrt np_attr aggfunc bv (df_const NaN la lb) = Some u /\
    index u = la /\ columns u = lb /\ df_shape u = true /\
    (forall a b arr, In ([a; b], arr) bv -> loc u a b = Some (f arr)) /\
    (forall a b, In a la -> In b lb -> ~ In [a; b] (map fst bv) ->
       loc u a b = Some NaN).
Proof.
  intros Hagg Hgrid Hnd.
  destruct (uncertainty_loop_in_grid sqrt np_attr aggfunc f bv
              (df_const NaN la lb) Hagg) as (u & Eu & Ui & Uc & Us & Hloc).
  - apply Forall_forall. intros kv Hkv.
    rewrite Forall_forall in Hgrid.
    destruct (Hgrid (fst kv) (in_map fst _ _ Hkv)) as (a & b & E & Ha & Hb).
    exists a, b. cbn [df_const index columns].
    split; [exact E|]. split; now apply has_label_in.
  - exact Hnd.
  - apply df_const_shape.
  - exists u. split; [exact Eu|]. split; [exact Ui|]. split; [exact Uc|].
    split; [exact Us|]. split.
    + intros a b arr Hin. rewrite Hloc.
      rewrite Forall_forall in Hgrid.
      destruct (Hgrid [a; b] (in_map fst _ _ Hin))
        as (a' & b' & E & Ha & Hb). inversion E; subst a' b'.
      rewrite (df_const_loc NaN la lb a b Ha Hb).
      now rewrite (assoc_key_NoDup _ [a; b] arr bv Hnd Hin).
    + intros a b Ha Hb Hout. rewrite Hloc.
      rewrite (df_const_loc NaN la lb a b Ha Hb).
      now rewrite (assoc_key_absent _ [a; b] bv Hout).
Qed.






Lemma np_std1_few (sqrt : Qc -> Qc) (arr : list float) :
  (length arr <= 1)%nat -> np_std1 sqrt arr = NaN.
Proof.
  intro H. destruct arr as [|x [|y arr]]; [reflexivity| |simpl in H; lia].
  unfold np_std1. cbn [length Nat.sub map].
  destruct x as [| |q|]; try reflexivity.
  assert (Em : np_mean [Fin q] = Fin q).
  { unfold np_mean, py_sum, fnat, fz. cbn [fold_left fadd length fdiv].
    assert (E1 : Qc_eqb (qz (Z.of_nat 1)) 0%Qc = false)
      by (vm_compute; reflexivity).
    rewrite E1. f_equal. change (qz (Z.of_nat 1)) with 1%Qc. field.
    discriminate. }
  rewrite Em. cbn [fsub fopp fadd fmul]. unfold py_sum.
  cbn [fold_left fadd]. unfold fnat, fz. cbn [fdiv].
  change (Qc_eqb (qz (Z.of_nat 0)) 0%Qc) with true. cbn iota.
  assert (Ez : (0 + (q + - q) * (q + - q))%Qc = 0%Qc) by ring.
  rewrite Ez. reflexivity.
Qed.

Lemma aggregate_few (sqrt : Qc -> Qc)
  (np_attr : string -> option (list float -> float)) (aggfunc : string)
  (arr : list float) :
  aggfunc = "std"%string \/ aggfunc = "se"%string ->
  (length arr <= 1)%nat ->
  aggregate sqrt np_attr aggfunc arr = Some NaN.
Proof.
  intros [-> | ->] H; unfold aggregate;
    cbn [String.eqb Ascii.eqb Bool.eqb andb];
    rewrite (np_std1_few sqrt arr H); reflexivity.
Qed.

Lemma aggregate_std_se_total (sqrt : Qc -> Qc)
  (np_attr : string -> option (list float -> float)) (aggfunc : string) :
  aggfunc = "std"%string \/ aggfunc = "se"%string ->
  exists f, forall arr, aggregate sqrt np_attr aggfunc arr = Some (f arr).
Proof.
  intros [-> | ->].
  - exists (np_std1 sqrt). reflexivity.
  - exists (fun arr => fdiv (np_std1 sqrt arr)
                            (fsqrt sqrt (fnat (length arr)))). reflexivity.
Qed.

(** X29.  Too few draws mean no penalty.  Under 'std' and 'se' a cell with
    fewer than two bootstrap draws gets the uncertainty NaN, and
    [compute_risk_adjusted_score] reads a NaN uncertainty as zero: without
    a cost table the score of that cell is its mean, whatever [kappa] and
    [rho]. *)
Theorem too_few_draws_give_no_uncertainty_penalty
  (sqrt : Qc -> Qc) (np_attr : string -> option (list float -> float))
  (bootstrap_values : list (key * list float)) (means : DataFrame)
  (aggfunc : string) (a b : label) (arr : list float) (i j : nat)
  (kappa rho : Qc) (flag : bool) :
  aggfunc = "std"%string \/ aggfunc = "se"%string ->
  df_shape means = true ->
  Forall (fun k => exists a b, k = [a; b] /\ In a (index means) /\
                               In b (columns means))
         (map fst bootstrap_values) ->
  NoDup (map fst bootstrap_values) ->
  In ([a; b], arr) bootstrap_values -> (length arr <= 1)%nat ->
  get_loc (index means) a = Some i -> get_loc (columns means) b = Some j ->
  exists u,
    compute_uncertainty_from_bootstrap sqrt np_attr bootstrap_values
      (Some (index means)) (Some (columns means)) aggfunc = Some u /\
    loc u a b = Some NaN /\
    iat (compute_risk_adjusted_score means (Some u) None
           (Fin kappa) (Fin rho) flag) i j
    = iat means i j.
Proof.
  intros Hagg Hs Hgrid Hnd Hin Hfew Gi Gj.
  destruct (aggregate_std_se_total sqrt np_attr aggfunc Hagg) as [f Hf].
  destruct (uncertainty_grid_table sqrt np_attr aggfunc f bootstrap_values
              (index means) (columns means) Hf Hgrid Hnd)
    as (u & Eu & _ & _ & _ & Hval & _).
  assert (Hnan : loc u a b = Some NaN).
  { rewrite (Hval a b arr Hin). f_equal.
    pose proof (aggregate_few sqrt np_attr aggfunc arr Hagg Hfew) as E.
    rewrite Hf in E. now inversion E. }
  exists u. split; [exact Eu|]. split; [exact Hnan|].
  pose proof (get_loc_bound _ _ _ Gi) as Hi.
  pose proof (get_loc_bound _ _ _ Gj) as Hj.
  rewrite (score_missing_uncertainty means u None kappa (Fin rho) flag i j
             Hs Hi Hj).
  - rewrite (cost_term_omitted means flag i j Hi Hj).
    rewrite fmul_fin_zero. apply fsub_zero_r.
  - rewrite (get_loc_nth _ _ _ Gi), (get_loc_nth _ _ _ Gj).
    unfold loc_or. now rewrite Hnan.
Qed.

Lemma too_few_draws_give_no_uncertainty_penalty_witness :
  exists u,
    compute_uncertainty_from_bootstrap sqrt_floor np_attr_mean
      [(["A1"; "B1"]%string, [fz 1; fz 3]); (["A2"; "B2"]%string, [fz 7])]
      (Some (index means_2x2)) (Some (columns means_2x2)) "se" = Some u /\
    loc u "A2"%string "B2"%string = Some NaN /\
    iat (compute_risk_adjusted_score means_2x2 (Some u) None
           (Fin (qz 5)) (Fin (qz 1)) true) 1 1
    = iat means_2x2 1 1.
Proof.
  apply (too_few_draws_give_no_uncertainty_penalty sqrt_floor np_attr_mean
           [(["A1"; "B1"]%string, [fz 1; fz 3]);
            (["A2"; "B2"]%string, [fz 7])]
           means_2x2 "se"%string "A2"%string "B2"%string [fz 7] 1 1
           (qz 5) (qz 1) true).
  - now right.
  - reflexivity.
  - repeat constructor; eexists; eexists;
      (split; [reflexivity|]); simpl; auto.
  - repeat constructor; simpl; intuition discriminate.
  - simpl. auto.
  - simpl. lia.
  - reflexivity.
  - reflexivity.
Defined.

Example test_compute_uncertainty_from_bootstrap_dict_input :
  match compute_uncertainty_from_bootstrap sqrt_floor np_attr_mean
          boot_dict_test None None "std" with
  | Some unc_df =>
      match loc unc_df "A1"%string "B1"%string with
      | Some v => fgt v (Fin 0%Qc)
      | None => false
      end && has_label (index unc_df) "A1"%string
  | None => false
  end = true.
Proof. vm_compute. reflexivity. Qed.











